(** * SevenTTY symbol font generator: glyph rasterizer and NFNT/FOND encoder

    A shallow embedding of [tools/generate_symbolfont.py]: the [Bitmap]
    class, [render_glyph], [pack_nfnt] and the resource layout written by
    [emit_rez], with the properties of the font resources proved on it.

    Python integers are [Z].  A Python exception is a value of [error];
    code that can raise lives in the [result] monad.  Floats are IEEE 754
    doubles: an integer too large for one raises [OverflowError] where the
    code converts it.  The comparison with [r * 1.5] in [outline_circle] is
    evaluated with the rounding of doubles; the float expressions of
    [fill_triangle] and of the dotted circle are operations of the class
    [FloatModel], whose values are left open and whose failures are not.
    Memory is not part of the model: lists have any length. *)

From Stdlib Require Import ZArith QArith Lia List Bool Ascii String Sorted.
From stdpp Require Import base tactics option list list_numbers.

Local Open Scope Z_scope.

(** ** Exceptions *)

Inductive error : Set :=
  | IndexError          (* list index out of range *)
  | ZeroDivisionError   (* [//] by zero *)
  | ValueError          (* [range] with step 0 *)
  | StructError         (* [struct.pack] argument out of range *)
  | OverflowError       (* int too large to convert to float *)
  | WrappedIndex.       (* see [py_index] *)

Inductive result (A : Type) : Type :=
  | Ok (a : A)
  | Raise (e : error).
Arguments Ok {A} a.
Arguments Raise {A} e.

#[global] Instance result_ret : MRet result := @Ok.
#[global] Instance result_bind : MBind result := fun A B f m =>
  match m with
  | Ok a => f a
  | Raise e => Raise e
  end.

(** [for i in l: s = body(i, s)] *)
Fixpoint for_each {A S : Type} (l : list A) (body : A -> S -> result S) (s : S)
  : result S :=
  match l with
  | [] => Ok s
  | i :: l' => s' ← body i s; for_each l' body s'
  end.

(** [range(a, b)] *)
Definition range (a b : Z) : list Z := seqZ a (b - a).

(** [range(a, b, step)]; Python raises ValueError when the step is 0. *)
Definition range_step (a b step : Z) : result (list Z) :=
  if step =? 0 then Raise ValueError
  else if 0 <? step then
    Ok ((fun k => a + Z.of_nat k * step) <$> seq 0 (Z.to_nat ((b - a + step - 1) / step)))
  else
    Ok ((fun k => a + Z.of_nat k * step) <$> seq 0 (Z.to_nat ((a - b - step - 1) / (- step)))).

(** [a // b] *)
Definition floordiv (a b : Z) : result Z :=
  if b =? 0 then Raise ZeroDivisionError else Ok (a / b).

(** A list subscript [l[i]].  Python counts a negative index from the end
    of the list, so that [l[-1]] is a valid access to the last element.  No
    caller in this program means that: the model reports such an access as
    [WrappedIndex] instead of performing it, and an [Ok] run is one in
    which every subscript was within [0 <= i < len(l)]. *)
Definition py_index {A : Type} (l : list A) (i : Z) : result nat :=
  if (0 <=? i) && (i <? Z.of_nat (length l)) then Ok (Z.to_nat i)
  else if (- Z.of_nat (length l) <=? i) && (i <? 0) then Raise WrappedIndex
  else Raise IndexError.

(** ** class Bitmap *)

Record Bitmap : Type := mkBitmap {
  bm_w : Z;
  bm_h : Z;
  pixels : list (list Z)
}.

(** [Bitmap.__init__]: [[0] * width for _ in range(height)]; a negative
    count gives an empty list. *)
Definition Bitmap_init (width height : Z) : Bitmap :=
  mkBitmap width height
    (replicate (Z.to_nat height) (replicate (Z.to_nat width) 0)).

(** The statement [self.pixels[y][x] = 1]. *)
Definition store (y x : Z) (bm : Bitmap) : result Bitmap :=
  iy ← py_index (pixels bm) y;
  match pixels bm !! iy with
  | None => Raise IndexError
  | Some row =>
      ix ← py_index row x;
      Ok (mkBitmap (bm_w bm) (bm_h bm) (<[iy := <[ix := 1]> row]> (pixels bm)))
  end.

(** Reading [bm.pixels[y][x]] at grid coordinates; 0 outside the lists. *)
Definition px (bm : Bitmap) (x y : Z) : Z :=
  if (0 <=? x) && (0 <=? y) then
    match pixels bm !! Z.to_nat y with
    | Some row => default 0 (row !! Z.to_nat x)
    | None => 0
    end
  else 0.

(** A drawing command: a method call on a bitmap. *)
Definition cmd : Type := Bitmap -> result Bitmap.

Definition skip : cmd := fun bm => Ok bm.
Definition seq_cmd (c1 c2 : cmd) : cmd := fun bm => bm' ← c1 bm; c2 bm'.
Infix ">>" := seq_cmd (at level 62, right associativity).

(** [if b: c] *)
Definition when (b : bool) (c : cmd) : cmd := if b then c else skip.

(** [for i in range(a, b): body(i)] *)
Definition for_range (a b : Z) (body : Z -> cmd) : cmd :=
  for_each (range a b) body.

(** [for i in range(a, b, step): body(i)] *)
Definition for_range_step (a b step : Z) (body : Z -> cmd) : cmd := fun bm =>
  l ← range_step a b step; for_each l body bm.

(** A statement that computes [a // b] on its way; [k] is the rest of it. *)
Definition div_then (a b : Z) (k : Z -> cmd) : cmd := fun bm =>
  q ← floordiv a b; k q bm.

(** A statement that reads [l[i]] on its way. *)
Definition subscript (l : list Z) (i : Z) (k : Z -> cmd) : cmd := fun bm =>
  n ← py_index l i;
  match l !! n with
  | Some v => k v bm
  | None => Raise IndexError
  end.

Definition set (x y : Z) : cmd := fun bm =>
  when ((0 <=? x) && (x <? bm_w bm) && ((0 <=? y) && (y <? bm_h bm)))
    (store y x) bm.

Definition fill_rect (x0 y0 x1 y1 : Z) : cmd := fun bm =>
  for_range (Z.max 0 y0) (Z.min (bm_h bm) y1) (fun y =>
    for_range (Z.max 0 x0) (Z.min (bm_w bm) x1) (fun x =>
      store y x)) bm.

Definition hline (y x0 x1 : Z) : cmd := fun bm =>
  for_range (Z.max 0 x0) (Z.min (bm_w bm) x1) (fun x =>
    when ((0 <=? y) && (y <? bm_h bm)) (store y x)) bm.

Definition vline (x y0 y1 : Z) : cmd := fun bm =>
  for_range (Z.max 0 y0) (Z.min (bm_h bm) y1) (fun y =>
    when ((0 <=? x) && (x <? bm_w bm)) (store y x)) bm.

(** The densities passed are the literals 0.25, 0.5 and 0.75; a float
    compares with them exactly, so a rational stands for it. *)
Definition dither (density : Q) : cmd := fun bm =>
  for_range 0 (bm_h bm) (fun y =>
    for_range 0 (bm_w bm) (fun x =>
      if Qle_bool (75 # 100) density then
        when (negb ((x mod 2 =? 0) && (y mod 2 =? 0))) (store y x)
      else if Qle_bool (5 # 10) density then
        when ((x + y) mod 2 =? 0) (store y x)
      else if Qle_bool (25 # 100) density then
        when ((x mod 2 =? 0) && (y mod 2 =? 0)) (store y x)
      else skip)) bm.

Definition fill_circle (cx cy r : Z) : cmd := fun bm =>
  for_range 0 (bm_h bm) (fun y =>
    for_range 0 (bm_w bm) (fun x =>
      let dx := x - cx in
      let dy := y - cy in
      when (dx * dx + dy * dy <=? r * r) (store y x))) bm.

(** ** Floats

    [outline_circle] multiplies its radius by the float 1.5.  Python
    converts the integer to a double first, rounding to nearest, ties to
    even, and raises OverflowError when that reaches [2 ** 1024]; the
    product is rounded again and is infinite from [2 ** 1024] on; an
    integer and a float are compared exactly. *)

(** [n] rounded to 53 significant bits, ties to even. *)
Definition round53 (n : Z) : Z :=
  let a := Z.abs n in
  let s := Z.log2 a - 52 in
  if s <=? 0 then n
  else
    let q := Z.shiftr a s in
    let rest := a - Z.shiftl q s in
    let half := Z.shiftl 1 (s - 1) in
    let q' := if (half <? rest) || ((rest =? half) && Z.odd q) then q + 1 else q in
    Z.sgn n * Z.shiftl q' s.

(** The least power of two that is not a double. *)
Definition float_limit : Z := 2 ^ 1024.

(** [float(n)], the conversion of the integer operand of [n * 1.5]. *)
Definition int_to_float (n : Z) : result Z :=
  let f := round53 n in
  if Z.abs f <? float_limit then Ok f else Raise OverflowError.

(** [lhs <= r * 1.5] for integers [lhs] and [r].  The exact product of the
    double [f] and 1.5 is [3 * f / 2]; [twice] is twice its rounded value,
    infinite when it reaches [2 * float_limit]. *)
Definition le_times_1_5 (lhs r : Z) : result bool :=
  f ← int_to_float r;
  let twice := round53 (3 * f) in
  Ok (if 2 * float_limit <=? twice then true
      else if twice <=? - (2 * float_limit) then false
      else 2 * lhs <=? twice).

Definition outline_circle (cx cy r : Z) : cmd := fun bm =>
  for_range 0 (bm_h bm) (fun y =>
    for_range 0 (bm_w bm) (fun x =>
      let dx := x - cx in
      let dy := y - cy in
      let d := dx * dx + dy * dy in
      fun bm =>
        b ← le_times_1_5 (Z.abs (d - r * r)) r;
        when b (store y x) bm)) bm.

(** ** Floating point

    [fill_triangle] and the dotted circle of [render_glyph] divide and
    take cosines in floats.  Their rounding is not modelled: the two
    float expressions are operations of a class.  An operation has no
    value where the expression raises OverflowError, because an integer
    operand is too large for a double or because the float given to [int]
    is infinite; it has one when the operands are at most [float_bound], far
    inside the range of a double.  Every theorem below holds for each
    instance of the class. *)

Definition point : Type := Z * Z.

Definition float_bound : Z := 2 ^ 1000.

Class FloatModel : Type := {
  (** [int(p0[0] + ((y - p0[1]) / (p1[1] - p0[1])) * (p1[0] - p0[0]))], asked
      only for [p0[1] != p1[1]] and [y] between them.  The list of
      intersections is sorted as floats before the first and the last are
      truncated; [int] is monotone, so these are the least and the greatest
      truncated value, and an infinite intersection is the first or the
      last. *)
  edge_x : point -> point -> Z -> option Z;
  (** [(int(cx + r * cos(radians(deg))), int(cy + r * sin(radians(deg))))] *)
  polar : Z -> Z -> Z -> Z -> option (Z * Z);
  edge_x_returns : forall p0 p1 y,
    snd p0 <> snd p1 ->
    Z.min (snd p0) (snd p1) <= y <= Z.max (snd p0) (snd p1) ->
    Z.abs (fst p0) <= float_bound -> Z.abs (fst p1) <= float_bound ->
    is_Some (edge_x p0 p1 y);
  polar_returns : forall cx cy r deg,
    Z.abs cx <= float_bound -> Z.abs cy <= float_bound ->
    Z.abs r <= float_bound ->
    is_Some (polar cx cy r deg)
}.

(** A statement that evaluates a float expression on its way. *)
Definition float_then {A : Type} (o : option A) (k : A -> cmd) : cmd := fun bm =>
  match o with
  | Some v => k v bm
  | None => Raise OverflowError
  end.

(** The arithmetic of the reals, truncated toward zero as [int] does and
    never out of range; used where an example is evaluated. *)
Definition floor_scaled_sqrt (a n : Z) : Z :=
  if 0 <=? a then Z.sqrt (n * a * a) else - Z.sqrt_up (n * a * a).

(** [int(c + a * sqrt(n) / 2)] *)
Definition trunc_half_sqrt (c a n : Z) : Z :=
  if 0 <=? 2 * c + floor_scaled_sqrt a n
  then (2 * c + floor_scaled_sqrt a n) / 2
  else - ((- (2 * c) + floor_scaled_sqrt (- a) n) / 2).

(** cos and sin of a multiple of 30 degrees, as [s * sqrt(n) / 2]. *)
Definition cos30 (k : Z) : Z * Z :=
  match k mod 12 with
  | 0 => (1, 4) | 1 => (1, 3) | 2 => (1, 1) | 3 => (0, 0)
  | 4 => (-1, 1) | 5 => (-1, 3) | 6 => (-1, 4) | 7 => (-1, 3)
  | 8 => (-1, 1) | 9 => (0, 0) | 10 => (1, 1) | _ => (1, 3)
  end.

(** The two float expressions in exact arithmetic, for operands of at most
    [float_bound]. *)
Definition exact_edge_x (p0 p1 : point) (y : Z) : option Z :=
  if (Z.abs (fst p0) <=? float_bound) && (Z.abs (fst p1) <=? float_bound) then
    Some (Z.quot (fst p0 * (snd p1 - snd p0) + (y - snd p0) * (fst p1 - fst p0))
                 (snd p1 - snd p0))
  else None.

Definition exact_polar (cx cy r deg : Z) : option (Z * Z) :=
  if (Z.abs cx <=? float_bound) && (Z.abs cy <=? float_bound)
       && (Z.abs r <=? float_bound) then
    let '(sc, nc) := cos30 (deg / 30) in
    let '(ss, ns) := cos30 (deg / 30 - 3) in
    Some (trunc_half_sqrt cx (sc * r) nc, trunc_half_sqrt cy (ss * r) ns)
  else None.

#[global] Instance exact_floats : FloatModel.
Proof.
  refine {| edge_x := exact_edge_x; polar := exact_polar |}.
  - intros p0 p1 y _ _ H0 H1. unfold exact_edge_x.
    apply Z.leb_le in H0, H1. rewrite H0, H1. eexists. reflexivity.
  - intros cx cy r deg H0 H1 H2. unfold exact_polar.
    apply Z.leb_le in H0, H1, H2. rewrite H0, H1, H2. simpl.
    destruct (cos30 (deg / 30)), (cos30 (deg / 30 - 3)). eexists. reflexivity.
Defined.

Definition min_list (l : list Z) : Z := foldr Z.min (hd 0 l) l.
Definition max_list (l : list Z) : Z := foldr Z.max (hd 0 l) l.

Section Drawing.
Context {FM : FloatModel}.

(** The x-crossings of row [y] with the three edges, horizontal edges
    skipped: the list [intersections] of [fill_triangle], truncated. *)
Definition intersections (p0 p1 p2 : point) (y : Z) : result (list Z) :=
  for_each [(p0, p1); (p1, p2); (p2, p0)] (fun e xs =>
    let '(a, b) := e in
    if snd a =? snd b then Ok xs
    else if (Z.min (snd a) (snd b) <=? y) && (y <=? Z.max (snd a) (snd b))
    then match edge_x a b y with
         | Some x => Ok (xs ++ [x])
         | None => Raise OverflowError
         end
    else Ok xs) [].

Definition fill_triangle (pts : point * point * point) : cmd := fun bm =>
  let '(p0, p1, p2) := pts in
  let min_y := Z.max 0 (Z.min (snd p0) (Z.min (snd p1) (snd p2))) in
  let max_y := Z.min (bm_h bm - 1) (Z.max (snd p0) (Z.max (snd p1) (snd p2))) in
  for_range min_y (max_y + 1) (fun y bm =>
    xs ← intersections p0 p1 p2 y;
    when (2 <=? Z.of_nat (length xs))
      (for_range (Z.max 0 (min_list xs)) (Z.min (bm_w bm) (max_list xs + 1))
                 (fun x => store y x)) bm) bm.

(** ** render_glyph

    [glyph_cmd] is the [if]/[elif] chain of [render_glyph], one branch per
    code point in the order of the source; the divisions whose divisor is
    not a positive literal are bound with [div_then] where the statement
    evaluates them.  [render_glyph] runs it on a fresh bitmap. *)
Definition glyph_cmd (unicode_cp w h : Z) : cmd :=
  let cx := w / 2 in
  let cy := h / 2 in
  if unicode_cp =? 0x2500 then (* horizontal *)
    hline cy 0 w
  else if unicode_cp =? 0x2502 then (* vertical *)
    vline cx 0 h
  else if unicode_cp =? 0x250C then (* down-right *)
    hline cy cx w >>
    vline cx cy h
  else if unicode_cp =? 0x2510 then (* down-left *)
    hline cy 0 (cx + 1) >>
    vline cx cy h
  else if unicode_cp =? 0x2514 then (* up-right *)
    hline cy cx w >>
    vline cx 0 (cy + 1)
  else if unicode_cp =? 0x2518 then (* up-left *)
    hline cy 0 (cx + 1) >>
    vline cx 0 (cy + 1)
  else if unicode_cp =? 0x251C then (* vertical-right *)
    vline cx 0 h >>
    hline cy cx w
  else if unicode_cp =? 0x2524 then (* vertical-left *)
    vline cx 0 h >>
    hline cy 0 (cx + 1)
  else if unicode_cp =? 0x252C then (* horizontal-down *)
    hline cy 0 w >>
    vline cx cy h
  else if unicode_cp =? 0x2534 then (* horizontal-up *)
    hline cy 0 w >>
    vline cx 0 (cy + 1)
  else if unicode_cp =? 0x253C then (* cross *)
    hline cy 0 w >>
    vline cx 0 h
  else if unicode_cp =? 0x2550 then (* double horizontal *)
    hline (cy - 1) 0 w >>
    hline (cy + 1) 0 w
  else if unicode_cp =? 0x2551 then (* double vertical *)
    vline (cx - 1) 0 h >>
    vline (cx + 1) 0 h
  else if unicode_cp =? 0x2554 then (* double down-right *)
    hline (cy - 1) (cx + 1) w >>
    hline (cy + 1) (cx - 1) w >>
    vline (cx - 1) (cy + 1) h >>
    vline (cx + 1) (cy - 1) h
  else if unicode_cp =? 0x2557 then (* double down-left *)
    hline (cy - 1) 0 cx >>
    hline (cy + 1) 0 (cx + 2) >>
    vline (cx + 1) (cy + 1) h >>
    vline (cx - 1) (cy - 1) h
  else if unicode_cp =? 0x255A then (* double up-right *)
    hline (cy - 1) (cx - 1) w >>
    hline (cy + 1) (cx + 1) w >>
    vline (cx - 1) 0 ((cy - 1) + 1) >>
    vline (cx + 1) 0 (cy + 1)
  else if unicode_cp =? 0x255D then (* double up-left *)
    hline (cy - 1) 0 (cx + 2) >>
    hline (cy + 1) 0 cx >>
    vline (cx + 1) 0 ((cy - 1) + 1) >>
    vline (cx - 1) 0 ((cy + 1) + 1)
  else if unicode_cp =? 0x2560 then (* double vertical-right *)
    vline (cx - 1) 0 h >>
    vline (cx + 1) 0 ((cy - 1) + 1) >>
    vline (cx + 1) (cy + 1) h >>
    hline (cy - 1) (cx + 1) w >>
    hline (cy + 1) (cx + 1) w
  else if unicode_cp =? 0x2563 then (* double vertical-left *)
    vline (cx + 1) 0 h >>
    vline (cx - 1) 0 ((cy - 1) + 1) >>
    vline (cx - 1) (cy + 1) h >>
    hline (cy - 1) 0 cx >>
    hline (cy + 1) 0 cx
  else if unicode_cp =? 0x2566 then (* double horizontal-down *)
    hline (cy - 1) 0 w >>
    hline (cy + 1) 0 cx >>
    hline (cy + 1) (cx + 2) w >>
    vline (cx - 1) (cy - 1) h >>
    vline (cx + 1) (cy - 1) h
  else if unicode_cp =? 0x2569 then (* double horizontal-up *)
    hline (cy + 1) 0 w >>
    hline (cy - 1) 0 cx >>
    hline (cy - 1) (cx + 2) w >>
    vline (cx - 1) 0 ((cy + 1) + 1) >>
    vline (cx + 1) 0 ((cy + 1) + 1)
  else if unicode_cp =? 0x256C then (* double cross *)
    hline (cy - 1) 0 cx >>
    hline (cy - 1) (cx + 2) w >>
    hline (cy + 1) 0 cx >>
    hline (cy + 1) (cx + 2) w >>
    vline (cx - 1) 0 cy >>
    vline (cx - 1) (cy + 2) h >>
    vline (cx + 1) 0 cy >>
    vline (cx + 1) (cy + 2) h
  else if unicode_cp =? 0x2552 then (* down-single right-double *)
    vline cx (cy - 1) h >>
    hline (cy - 1) cx w >>
    hline (cy + 1) cx w
  else if unicode_cp =? 0x2553 then (* down-double right-single *)
    hline cy (cx - 1) w >>
    vline (cx - 1) cy h >>
    vline (cx + 1) cy h
  else if unicode_cp =? 0x2555 then (* down-single left-double *)
    vline cx (cy - 1) h >>
    hline (cy - 1) 0 (cx + 1) >>
    hline (cy + 1) 0 (cx + 1)
  else if unicode_cp =? 0x2556 then (* down-double left-single *)
    hline cy 0 (cx + 2) >>
    vline (cx - 1) cy h >>
    vline (cx + 1) cy h
  else if unicode_cp =? 0x2558 then (* up-single right-double *)
    vline cx 0 (cy + 2) >>
    hline (cy - 1) cx w >>
    hline (cy + 1) cx w
  else if unicode_cp =? 0x2559 then (* up-double right-single *)
    hline cy (cx - 1) w >>
    vline (cx - 1) 0 (cy + 1) >>
    vline (cx + 1) 0 (cy + 1)
  else if unicode_cp =? 0x255B then (* up-single left-double *)
    vline cx 0 (cy + 2) >>
    hline (cy - 1) 0 (cx + 1) >>
    hline (cy + 1) 0 (cx + 1)
  else if unicode_cp =? 0x255C then (* up-double left-single *)
    hline cy 0 (cx + 2) >>
    vline (cx - 1) 0 (cy + 1) >>
    vline (cx + 1) 0 (cy + 1)
  else if unicode_cp =? 0x255E then (* vertical-single right-double *)
    vline cx 0 h >>
    hline (cy - 1) cx w >>
    hline (cy + 1) cx w
  else if unicode_cp =? 0x255F then (* vertical-double right-single *)
    vline (cx - 1) 0 h >>
    vline (cx + 1) 0 h >>
    hline cy (cx + 1) w
  else if unicode_cp =? 0x2561 then (* vertical-single left-double *)
    vline cx 0 h >>
    hline (cy - 1) 0 (cx + 1) >>
    hline (cy + 1) 0 (cx + 1)
  else if unicode_cp =? 0x2562 then (* vertical-double left-single *)
    vline (cx - 1) 0 h >>
    vline (cx + 1) 0 h >>
    hline cy 0 cx
  else if unicode_cp =? 0x2564 then (* down-single horizontal-double *)
    hline (cy - 1) 0 w >>
    hline (cy + 1) 0 w >>
    vline cx (cy + 1) h
  else if unicode_cp =? 0x2565 then (* down-double horizontal-single *)
    hline cy 0 w >>
    vline (cx - 1) cy h >>
    vline (cx + 1) cy h
  else if unicode_cp =? 0x2567 then (* up-single horizontal-double *)
    hline (cy - 1) 0 w >>
    hline (cy + 1) 0 w >>
    vline cx 0 cy
  else if unicode_cp =? 0x2568 then (* up-double horizontal-single *)
    hline cy 0 w >>
    vline (cx - 1) 0 (cy + 1) >>
    vline (cx + 1) 0 (cy + 1)
  else if unicode_cp =? 0x256A then (* vertical-single horizontal-double *)
    vline cx 0 h >>
    hline (cy - 1) 0 w >>
    hline (cy + 1) 0 w
  else if unicode_cp =? 0x256B then (* vertical-double horizontal-single *)
    vline (cx - 1) 0 h >>
    vline (cx + 1) 0 h >>
    hline cy 0 w
  else if unicode_cp =? 0x2574 then (* light left *)
    hline cy 0 (cx + 1)
  else if unicode_cp =? 0x2575 then (* light up *)
    vline cx 0 (cy + 1)
  else if unicode_cp =? 0x2576 then (* light right *)
    hline cy cx w
  else if unicode_cp =? 0x2577 then (* light down *)
    vline cx cy h
  else if unicode_cp =? 0x2501 then (* heavy horizontal *)
    hline (cy - 1) 0 w >>
    hline cy 0 w >>
    hline (cy + 1) 0 w
  else if unicode_cp =? 0x2503 then (* heavy vertical *)
    vline (cx - 1) 0 h >>
    vline cx 0 h >>
    vline (cx + 1) 0 h
  else if unicode_cp =? 0x254B then (* heavy cross *)
    hline (cy - 1) 0 w >>
    hline cy 0 w >>
    hline (cy + 1) 0 w >>
    vline (cx - 1) 0 h >>
    vline cx 0 h >>
    vline (cx + 1) 0 h
  else if unicode_cp =? 0x2504 then (* triple dash horizontal *)
    let seg := (Z.max 1 (w / 5)) in
    for_range_step 0 w (seg * 2) (fun i =>
        hline cy i (Z.min (i + seg) w))
  else if unicode_cp =? 0x2580 then (* upper half *)
    fill_rect 0 0 w (h / 2)
  else if unicode_cp =? 0x2581 then (* lower 1/8 *)
    fill_rect 0 (h - (Z.max 1 (h / 8))) w h
  else if unicode_cp =? 0x2582 then (* lower 1/4 *)
    fill_rect 0 (h - (Z.max 1 (h / 4))) w h
  else if unicode_cp =? 0x2583 then (* lower 3/8 *)
    fill_rect 0 (h - (Z.max 1 ((h * 3) / 8))) w h
  else if unicode_cp =? 0x2584 then (* lower half *)
    fill_rect 0 (h / 2) w h
  else if unicode_cp =? 0x2585 then (* lower 5/8 *)
    fill_rect 0 (h - (Z.max 1 ((h * 5) / 8))) w h
  else if unicode_cp =? 0x2586 then (* lower 3/4 *)
    fill_rect 0 (h - (Z.max 1 ((h * 3) / 4))) w h
  else if unicode_cp =? 0x2587 then (* lower 7/8 *)
    fill_rect 0 (h - (Z.max 1 ((h * 7) / 8))) w h
  else if unicode_cp =? 0x2588 then (* full block *)
    fill_rect 0 0 w h
  else if unicode_cp =? 0x2589 then (* left 7/8 *)
    fill_rect 0 0 (Z.max 1 ((w * 7) / 8)) h
  else if unicode_cp =? 0x258A then (* left 3/4 *)
    fill_rect 0 0 (Z.max 1 ((w * 3) / 4)) h
  else if unicode_cp =? 0x258B then (* left 5/8 *)
    fill_rect 0 0 (Z.max 1 ((w * 5) / 8)) h
  else if unicode_cp =? 0x258C then (* left half *)
    fill_rect 0 0 (w / 2) h
  else if unicode_cp =? 0x258D then (* left 3/8 *)
    fill_rect 0 0 (Z.max 1 ((w * 3) / 8)) h
  else if unicode_cp =? 0x258E then (* left 1/4 *)
    fill_rect 0 0 (Z.max 1 (w / 4)) h
  else if unicode_cp =? 0x258F then (* left 1/8 *)
    fill_rect 0 0 (Z.max 1 (w / 8)) h
  else if unicode_cp =? 0x2590 then (* right half *)
    fill_rect (w / 2) 0 w h
  else if unicode_cp =? 0x2591 then (* light shade *)
    dither (25 # 100)
  else if unicode_cp =? 0x2592 then (* medium shade *)
    dither (5 # 10)
  else if unicode_cp =? 0x2593 then (* dark shade *)
    dither (75 # 100)
  else if unicode_cp =? 0x2594 then (* upper 1/8 *)
    fill_rect 0 0 w (Z.max 1 (h / 8))
  else if unicode_cp =? 0x2595 then (* right 1/8 *)
    fill_rect (w - (Z.max 1 (w / 8))) 0 w h
  else if unicode_cp =? 0x25A0 then (* black square *)
    let m := (Z.max 1 ((Z.min w h) / 6)) in
    fill_rect m m (w - m) (h - m)
  else if unicode_cp =? 0x25A1 then (* white square *)
    let m := (Z.max 1 ((Z.min w h) / 6)) in
    fill_rect m m (w - m) (m + 1) >>
    fill_rect m ((h - m) - 1) (w - m) (h - m) >>
    fill_rect m m (m + 1) (h - m) >>
    fill_rect ((w - m) - 1) m (w - m) (h - m)
  else if unicode_cp =? 0x25AA then (* black small square *)
    let m := (Z.max 1 ((Z.min w h) / 4)) in
    fill_rect m m (w - m) (h - m)
  else if unicode_cp =? 0x25AB then (* white small square *)
    let m := (Z.max 1 ((Z.min w h) / 4)) in
    fill_rect m m (w - m) (m + 1) >>
    fill_rect m ((h - m) - 1) (w - m) (h - m) >>
    fill_rect m m (m + 1) (h - m) >>
    fill_rect ((w - m) - 1) m (w - m) (h - m)
  else if unicode_cp =? 0x25B2 then (* up triangle *)
    fill_triangle ((cx, 1), (1, (h - 2)), ((w - 2), (h - 2)))
  else if unicode_cp =? 0x25B6 then (* right triangle *)
    fill_triangle ((1, 1), (1, (h - 2)), ((w - 2), cy))
  else if unicode_cp =? 0x25BC then (* down triangle *)
    fill_triangle ((cx, (h - 2)), (1, 1), ((w - 2), 1))
  else if unicode_cp =? 0x25C0 then (* left triangle *)
    fill_triangle (((w - 2), 1), ((w - 2), (h - 2)), (1, cy))
  else if unicode_cp =? 0x25CB then (* white circle *)
    let r := ((Z.min cx cy) - 1) in
    outline_circle cx cy r
  else if unicode_cp =? 0x25CF then (* black circle *)
    let r := ((Z.min cx cy) - 1) in
    fill_circle cx cy r
  else if unicode_cp =? 0x2660 then (* spade *)
    fill_triangle ((cx, 1), (1, (cy + 1)), ((w - 2), (cy + 1))) >>
    fill_circle (cx - (w / 4)) (cy + 1) (w / 4) >>
    fill_circle (cx + (w / 4)) (cy + 1) (w / 4) >>
    vline cx (cy + 1) (h - 1)
  else if unicode_cp =? 0x2663 then (* club *)
    let r := (Z.max 1 (w / 4)) in
    fill_circle cx 2 r >>
    fill_circle ((cx - r) - 1) cy r >>
    fill_circle ((cx + r) + 1) cy r >>
    vline cx cy (h - 1)
  else if unicode_cp =? 0x2665 then (* heart *)
    let r := (Z.max 1 (w / 4)) in
    fill_circle (cx - r) (2 + r) r >>
    fill_circle (cx + r) (2 + r) r >>
    fill_triangle ((cx, (h - 2)), (0, (2 + r)), ((w - 1), (2 + r)))
  else if unicode_cp =? 0x2666 then (* diamond *)
    fill_triangle ((cx, 1), (1, cy), (cx, (h - 2))) >>
    fill_triangle ((cx, 1), ((w - 2), cy), (cx, (h - 2)))
  else if unicode_cp =? 0x263A then (* white smiley *)
    let r := ((Z.min cx cy) - 1) in
    outline_circle cx cy r >>
    when (6 <=? w)
       (set (cx - 1) (cy - 1) >>
        set (cx + 1) (cy - 1) >>
        set cx (cy + 1))
  else if unicode_cp =? 0x263B then (* black smiley *)
    let r := ((Z.min cx cy) - 1) in
    fill_circle cx cy r
  else if unicode_cp =? 0x266A then (* eighth note *)
    fill_circle (cx - 1) (h - 3) (Z.max 1 (w / 4)) >>
    vline ((cx + (Z.max 1 (w / 4))) - 1) 2 (h - 3) >>
    hline 2 ((cx + (Z.max 1 (w / 4))) - 1) (w - 1)
  else if unicode_cp =? 0x266B then (* beamed eighth notes *)
    let x0 := (Z.max 1 (w / 4)) in
    let x1 := ((w - (Z.max 1 (w / 4))) - 1) in
    fill_circle x0 (h - 3) (Z.max 1 (w / 5)) >>
    fill_circle x1 (h - 3) (Z.max 1 (w / 5)) >>
    vline (x0 + (Z.max 1 (w / 5))) 2 (h - 3) >>
    vline (x1 + (Z.max 1 (w / 5))) 2 (h - 3) >>
    hline 2 (x0 + (Z.max 1 (w / 5))) ((x1 + (Z.max 1 (w / 5))) + 1) >>
    hline 3 (x0 + (Z.max 1 (w / 5))) ((x1 + (Z.max 1 (w / 5))) + 1)
  else if unicode_cp =? 0x2713 then (* check mark *)
    for_range 0 ((Z.min w h) / 2) (fun i =>
        set ((cx / 2) + i) (cy + i)) >>
    for_range 0 (((Z.min w h) * 2) / 3) (fun i =>
        set (((cx / 2) + ((Z.min w h) / 2)) + i) (((cy + ((Z.min w h) / 2)) - 1) - i))
  else if unicode_cp =? 0x2717 then (* ballot x *)
    for_range 0 ((Z.min w h) - 2) (fun i =>
        div_then (i * (w - 2)) ((Z.min w h) - 2) (fun q1 =>
          set (1 + q1) (1 + i)) >>
        div_then (i * (w - 2)) ((Z.min w h) - 2) (fun q2 =>
          set ((w - 2) - q2) (1 + i)))
  else if unicode_cp =? 0x2190 then (* left arrow *)
    hline cy 0 w >>
    for_range 0 (Z.min 3 (h / 3)) (fun i =>
        set i ((cy - i) - 1) >>
        set i ((cy + i) + 1))
  else if unicode_cp =? 0x2191 then (* up arrow *)
    vline cx 0 h >>
    for_range 0 (Z.min 3 (w / 3)) (fun i =>
        set ((cx - i) - 1) i >>
        set ((cx + i) + 1) i)
  else if unicode_cp =? 0x2192 then (* right arrow *)
    hline cy 0 w >>
    for_range 0 (Z.min 3 (h / 3)) (fun i =>
        set ((w - 1) - i) ((cy - i) - 1) >>
        set ((w - 1) - i) ((cy + i) + 1))
  else if unicode_cp =? 0x2193 then (* down arrow *)
    vline cx 0 h >>
    for_range 0 (Z.min 3 (w / 3)) (fun i =>
        set ((cx - i) - 1) ((h - 1) - i) >>
        set ((cx + i) + 1) ((h - 1) - i))
  else if unicode_cp =? 0x2194 then (* left-right arrow *)
    hline cy 0 w >>
    for_range 0 (Z.min 3 (h / 3)) (fun i =>
        set i ((cy - i) - 1) >>
        set i ((cy + i) + 1) >>
        set ((w - 1) - i) ((cy - i) - 1) >>
        set ((w - 1) - i) ((cy + i) + 1))
  else if unicode_cp =? 0x23F5 then (* right-pointing triangle *)
    let m := (Z.max 1 ((Z.min w h) / 6)) in
    fill_triangle ((m, m), (m, ((h - m) - 1)), (((w - m) - 1), cy))
  else if unicode_cp =? 0x2217 then (* asterisk operator *)
    let r := ((Z.min cx cy) - 1) in
    vline cx (cy - r) ((cy + r) + 1) >>
    for_range (- r) (r + 1) (fun i =>
        div_then (i * r) (if negb (r =? 0) then r else 1) (fun q3 =>
          let dx := (q3 / 2) in
        set (cx + i) (cy - dx) >>
        set (cx + i) (cy + dx)))
  else if unicode_cp =? 0x2722 then (* four teardrop-spoked asterisk *)
    let r := ((Z.min cx cy) - 1) in
    vline cx (cy - r) ((cy + r) + 1) >>
    hline cy (cx - r) ((cx + r) + 1) >>
    set (cx - 1) (cy - 1) >>
    set (cx + 1) (cy - 1) >>
    set (cx - 1) (cy + 1) >>
    set (cx + 1) (cy + 1)
  else if unicode_cp =? 0x2733 then (* eight spoked asterisk *)
    let r := ((Z.min cx cy) - 1) in
    vline cx (cy - r) ((cy + r) + 1) >>
    hline cy (cx - r) ((cx + r) + 1) >>
    for_range (- r) (r + 1) (fun i =>
        set (cx + i) (cy + i) >>
        set (cx + i) (cy - i))
  else if unicode_cp =? 0x273B then (* teardrop-spoked asterisk *)
    let r := ((Z.min cx cy) - 1) in
    vline cx (cy - r) ((cy + r) + 1) >>
    hline cy (cx - r) ((cx + r) + 1) >>
    for_range (- r) (r + 1) (fun i =>
        set (cx + i) (cy + i) >>
        set (cx + i) (cy - i)) >>
    when (6 <=? w)
       (set (cx - 1) cy >>
        set (cx + 1) cy >>
        set cx (cy - 1) >>
        set cx (cy + 1))
  else if unicode_cp =? 0x273D then (* heavy teardrop-spoked pinwheel *)
    let r := ((Z.min cx cy) - 1) in
    vline cx (cy - r) ((cy + r) + 1) >>
    hline cy (cx - r) ((cx + r) + 1) >>
    for_range (- r) (r + 1) (fun i =>
        set (cx + i) (cy + i) >>
        set (cx + i) (cy - i)) >>
    let ir := (Z.max 1 (r / 2)) in
    fill_circle cx cy ir
  else if unicode_cp =? 0x2315 then (* telephone recorder (used as search icon) *)
    let lens_r := (Z.max 2 ((Z.min w h) / 3)) in
    let lens_cx := (cx - (lens_r / 3)) in
    let lens_cy := (cy - (lens_r / 3)) in
    outline_circle lens_cx lens_cy lens_r >>
    for_range 0 lens_r (fun i =>
        set ((lens_cx + lens_r) + i) ((lens_cy + lens_r) + i) >>
        when (8 <=? w)
           (set (((lens_cx + lens_r) + i) + 1) ((lens_cy + lens_r) + i)))
  else if (0x2800 <=? unicode_cp) && (unicode_cp <=? 0x28FF) then (* Braille patterns *)
    let pattern := unicode_cp - 0x2800 in
    let dot_r := Z.max 1 (Z.min w h / 8) in
    let col_x := [w / 3; w * 2 / 3] in
    let row_y := (fun i => h * (i + 1) / 5) <$> range 0 4 in
    let dot_map := [(0, 0, 0); (1, 0, 1); (2, 0, 2);
                    (0, 1, 3); (1, 1, 4); (2, 1, 5);
                    (3, 0, 6); (3, 1, 7)] in
    for_each dot_map (fun '(row, col, bit) =>
      when (negb (Z.land pattern (Z.shiftl 1 bit) =? 0))
        (subscript col_x col (fun x =>
         subscript row_y row (fun y =>
           fill_circle x y dot_r))))
  else if unicode_cp =? 0x276F then (* heavy right-pointing angle *)
    for_range 0 h (fun i =>
      let rest := fun x => set x i >> when (6 <=? w) (set (x + 1) i) in
      if i <=? cy then
        div_then (i * cx) (Z.max cy 1) (fun q =>
          rest (cx - cx + q))
      else
        div_then ((i - cy) * cx) (Z.max (h - 1 - cy) 1) (fun q =>
          rest (cx - q)))
  else if unicode_cp =? 0x2596 then (* quadrant lower left *)
    fill_rect 0 (h / 2) (w / 2) h
  else if unicode_cp =? 0x2597 then (* quadrant lower right *)
    fill_rect (w / 2) (h / 2) w h
  else if unicode_cp =? 0x2598 then (* quadrant upper left *)
    fill_rect 0 0 (w / 2) (h / 2)
  else if unicode_cp =? 0x2599 then (* quadrant upper left + lower left + lower right *)
    fill_rect 0 0 (w / 2) (h / 2) >>
    fill_rect 0 (h / 2) w h
  else if unicode_cp =? 0x259A then (* quadrant upper left + lower right *)
    fill_rect 0 0 (w / 2) (h / 2) >>
    fill_rect (w / 2) (h / 2) w h
  else if unicode_cp =? 0x259B then (* quadrant upper left + upper right + lower left *)
    fill_rect 0 0 w (h / 2) >>
    fill_rect 0 (h / 2) (w / 2) h
  else if unicode_cp =? 0x259C then (* quadrant upper left + upper right + lower right *)
    fill_rect 0 0 w (h / 2) >>
    fill_rect (w / 2) (h / 2) w h
  else if unicode_cp =? 0x259D then (* quadrant upper right *)
    fill_rect (w / 2) 0 w (h / 2)
  else if unicode_cp =? 0x259E then (* quadrant upper right + lower left *)
    fill_rect (w / 2) 0 w (h / 2) >>
    fill_rect 0 (h / 2) (w / 2) h
  else if unicode_cp =? 0x259F then (* quadrant upper right + lower left + lower right *)
    fill_rect (w / 2) 0 w (h / 2) >>
    fill_rect 0 (h / 2) w h
  else if unicode_cp =? 0x25C6 then (* black diamond *)
    fill_triangle ((cx, 1), (1, cy), (cx, (h - 2))) >>
    fill_triangle ((cx, 1), ((w - 2), cy), (cx, (h - 2)))
  else if unicode_cp =? 0x25C7 then (* white diamond *)
    for_range 0 cy (fun i =>
        set (cx - i) (cy - i) >>
        set (cx + i) (cy - i) >>
        set (cx - i) (cy + i) >>
        set (cx + i) (cy + i))
  else if unicode_cp =? 0x2714 then (* heavy check mark *)
    for_range (- 1) 2 (fun d =>
        for_range 0 (h / 3) (fun i =>
            set ((w / 4) + i) ((cy + i) + d)) >>
        for_range 0 ((h * 2) / 3) (fun i =>
            set (((w / 4) + (h / 3)) + i) ((((cy + (h / 3)) - 1) - i) + d)))
  else if unicode_cp =? 0x2718 then (* heavy ballot X *)
    for_range (- 1) 2 (fun d =>
        for_range 0 (h - 2) (fun i =>
            div_then (i * (w - 3)) (Z.max (h - 3) 1) (fun q4 =>
              set ((1 + q4) + d) (1 + i)) >>
            div_then (i * (w - 3)) (Z.max (h - 3) 1) (fun q5 =>
              set (((w - 2) - q5) + d) (1 + i))))
  else if unicode_cp =? 0x25FB then (* white medium square *)
    let m := (Z.max 1 ((Z.min w h) / 5)) in
    fill_rect m m (w - m) (m + 1) >>
    fill_rect m ((h - m) - 1) (w - m) (h - m) >>
    fill_rect m m (m + 1) (h - m) >>
    fill_rect ((w - m) - 1) m (w - m) (h - m)
  else if unicode_cp =? 0x25FC then (* black medium square *)
    let m := (Z.max 1 ((Z.min w h) / 5)) in
    fill_rect m m (w - m) (h - m)
  else if unicode_cp =? 0x25C9 then (* fisheye (filled circle with dot) *)
    let r := ((Z.min cx cy) - 1) in
    outline_circle cx cy r >>
    fill_circle cx cy (Z.max 1 (r / 2))
  else if unicode_cp =? 0x25EF then (* large circle *)
    let r := ((Z.min cx cy) - 1) in
    outline_circle cx cy r
  else if unicode_cp =? 0x2610 then (* ballot box *)
    let m := (Z.max 1 ((Z.min w h) / 6)) in
    fill_rect m m (w - m) (m + 1) >>
    fill_rect m ((h - m) - 1) (w - m) (h - m) >>
    fill_rect m m (m + 1) (h - m) >>
    fill_rect ((w - m) - 1) m (w - m) (h - m)
  else if unicode_cp =? 0x2612 then (* ballot box with X *)
    let m := (Z.max 1 ((Z.min w h) / 6)) in
    fill_rect m m (w - m) (m + 1) >>
    fill_rect m ((h - m) - 1) (w - m) (h - m) >>
    fill_rect m m (m + 1) (h - m) >>
    fill_rect ((w - m) - 1) m (w - m) (h - m) >>
    for_range 0 ((h - (2 * m)) - 2) (fun i =>
        div_then (i * ((w - (2 * m)) - 3)) (Z.max ((h - (2 * m)) - 3) 1) (fun q6 =>
          let x := ((m + 1) + q6) in
        set x ((m + 1) + i) >>
        div_then (i * ((w - (2 * m)) - 3)) (Z.max ((h - (2 * m)) - 3) 1) (fun q7 =>
          set (((w - m) - 2) - q7) ((m + 1) + i))))
  else if unicode_cp =? 0x2605 then (* black star *)
    fill_triangle ((cx, 0), ((cx - (cx / 2)), cy), ((cx + (cx / 2)), cy)) >>
    fill_triangle ((0, (h / 3)), ((w - 1), (h / 3)), (cx, (h - 2))) >>
    fill_rect (cx - (cx / 2)) (h / 3) ((cx + (cx / 2)) + 1) (cy + 1)
  else if unicode_cp =? 0x2630 then (* trigram (hamburger menu) *)
    let t := (Z.max 1 (h / 8)) in
    for_range 0 3 (fun row =>
        let y := ((h / 6) + ((row * h) / 3)) in
        fill_rect 1 y (w - 1) (y + t))
  else if unicode_cp =? 0x25B3 then (* white up-pointing triangle *)
    for_range 0 (h - 2) (fun i =>
        div_then (i * (w - 2)) (2 * (Z.max (h - 3) 1)) (fun q8 =>
          let hw := q8 in
        set (cx - hw) ((h - 2) - i) >>
        set (cx + hw) ((h - 2) - i))) >>
    hline (h - 2) (cx - ((w - 2) / 2)) ((cx + ((w - 2) / 2)) + 1)
  else if unicode_cp =? 0x26A0 then (* warning sign *)
    for_range 0 (h - 2) (fun i =>
        div_then (i * (w - 2)) (2 * (Z.max (h - 3) 1)) (fun q9 =>
          let hw := q9 in
        set (cx - hw) ((h - 2) - i) >>
        set (cx + hw) ((h - 2) - i))) >>
    hline (h - 2) (cx - ((w - 2) / 2)) ((cx + ((w - 2) / 2)) + 1) >>
    vline cx ((h / 4) + 1) ((h * 2) / 3) >>
    set cx ((h * 3) / 4)
  else if unicode_cp =? 0x25CE then (* bullseye (double circle) *)
    let r := ((Z.min cx cy) - 1) in
    outline_circle cx cy r >>
    when (3 <=? r)
       (outline_circle cx cy (r - 2))
  else if unicode_cp =? 0x25CC then (* dotted circle *)
    let r := Z.min cx cy - 1 in
    for_range_step 0 360 30 (fun angle_deg =>
      float_then (polar cx cy r angle_deg) (fun '(x, y) =>
        when ((0 <=? x) && (x <? w) && ((0 <=? y) && (y <? h)))
          (set x y)))
  else if unicode_cp =? 0x2139 then (* information source *)
    set cx 2 >>
    vline cx 4 (h - 2) >>
    hline (h - 2) (cx - 1) (cx + 2) >>
    hline 4 (cx - 1) (cx + 2)
  else if unicode_cp =? 0x00B7 then (* middle dot *)
    let dot_size := (Z.max 1 ((Z.min w h) / 6)) in
    for_range 0 dot_size (fun dy =>
        for_range 0 dot_size (fun dx =>
            set ((cx - (dot_size / 2)) + dx) ((cy - (dot_size / 2)) + dy)))
  else
    set cx 1 >>
    set (cx - 1) cy >>
    set (cx + 1) cy >>
    set cx (h - 2).

Definition render_glyph (unicode_cp w h : Z) : result Bitmap :=
  let bm := Bitmap_init w h in
  glyph_cmd unicode_cp w h bm.

End Drawing.

(** ** Configuration *)

(** (pt_size, cell_width, cell_height, ascent, descent, leading) *)
Definition metrics : Type := Z * Z * Z * Z * Z * Z.

Definition MONACO_METRICS : list metrics := [
  (9,  6,  12,  9,  2, 0);
  (10, 6,  14, 10,  2, 1);
  (12, 7,  17, 12,  3, 1);
  (14, 8,  19, 14,  3, 1);
  (18, 11, 25, 18,  4, 2);
  (24, 14, 33, 24,  6, 2);
  (36, 22, 49, 36,  9, 3)
].

Definition FOND_ID : Z := 200.
Definition NFNT_BASE_ID : Z := 200.
Definition FIRST_CHAR : Z := 0x20.
Definition LAST_CHAR : Z := 0xAD.

(** ** Dictionaries

    A Python dict keeps its keys in insertion order and a later value for a
    key replaces the earlier one in place: an association list without
    repeated keys. *)
Definition dict : Type := list (Z * Z).

Fixpoint dict_set (d : dict) (k v : Z) : dict :=
  match d with
  | [] => [(k, v)]
  | (k', v') :: d' =>
      if k' =? k then (k, v) :: d' else (k', v') :: dict_set d' k v
  end.

Fixpoint dict_get (d : dict) (k : Z) : option Z :=
  match d with
  | [] => None
  | (k', v) :: d' => if k' =? k then Some v else dict_get d' k
  end.

(** A dict display [{k1: v1, k2: v2, ...}] or a comprehension over the
    pairs in the order given. *)
Definition dict_of (items : list (Z * Z)) : dict :=
  foldl (fun d kv => dict_set d (fst kv) (snd kv)) [] items.

Definition GLYPH_MAP : dict := dict_of [
    (0x2500, 0x9B); (0x2502, 0x21); (0x250C, 0x22); (0x2510, 0x23);
    (0x2514, 0x24); (0x2518, 0x25); (0x251C, 0x26); (0x2524, 0x27);
    (0x252C, 0x28); (0x2534, 0x29); (0x253C, 0x2A); (0x2550, 0x2B);
    (0x2551, 0x2C); (0x2554, 0x2D); (0x2557, 0x2E); (0x255A, 0x2F);
    (0x255D, 0x30); (0x2560, 0x31); (0x2563, 0x32); (0x2566, 0x33);
    (0x2569, 0x34); (0x256C, 0x35); (0x2552, 0x36); (0x2553, 0x37);
    (0x2555, 0x38); (0x2556, 0x39); (0x2558, 0x3A); (0x2559, 0x3B);
    (0x255B, 0x3C); (0x255C, 0x3D); (0x255E, 0x3E); (0x255F, 0x3F);
    (0x2561, 0x40); (0x2562, 0x41); (0x2564, 0x42); (0x2565, 0x43);
    (0x2567, 0x44); (0x2568, 0x45); (0x256A, 0x46); (0x256B, 0x47);
    (0x2574, 0x48); (0x2575, 0x49); (0x2576, 0x4A); (0x2577, 0x4B);
    (0x2501, 0x4C); (0x2503, 0x4D); (0x254B, 0x4E); (0x2504, 0x4F);
    (0x2580, 0x50); (0x2581, 0x51); (0x2582, 0x52); (0x2583, 0x53);
    (0x2584, 0x54); (0x2585, 0x55); (0x2586, 0x56); (0x2587, 0x57);
    (0x2588, 0x58); (0x2589, 0x59); (0x258A, 0x5A); (0x258B, 0x5B);
    (0x258C, 0x5C); (0x258D, 0x5D); (0x258E, 0x5E); (0x258F, 0x5F);
    (0x2590, 0x60); (0x2591, 0x61); (0x2592, 0x62); (0x2593, 0x63);
    (0x2594, 0x64); (0x2595, 0x65); (0x25A0, 0x66); (0x25A1, 0x67);
    (0x25AA, 0x68); (0x25AB, 0x69); (0x25B2, 0x6A); (0x25B6, 0x6B);
    (0x25BC, 0x6C); (0x25C0, 0x6D); (0x25CB, 0x6E); (0x25CF, 0x6F);
    (0x2660, 0x70); (0x2663, 0x71); (0x2665, 0x72); (0x2666, 0x73);
    (0x263A, 0x74); (0x263B, 0x75); (0x266A, 0x76); (0x266B, 0x77);
    (0x2713, 0x78); (0x2717, 0x79); (0x2190, 0x7A); (0x2191, 0x7B);
    (0x2192, 0x7C); (0x2193, 0x7D); (0x2194, 0x7E); (0x23F5, 0x7F);
    (0x2217, 0x80); (0x2722, 0x81); (0x2733, 0x82); (0x273B, 0x83);
    (0x273D, 0x84); (0x280B, 0x85); (0x2819, 0x86); (0x2839, 0x87);
    (0x2838, 0x88); (0x283C, 0x89); (0x2834, 0x8A); (0x2826, 0x8B);
    (0x2827, 0x8C); (0x2807, 0x8D); (0x280F, 0x8E); (0x2315, 0x8F);
    (0x2596, 0x90); (0x2597, 0x91); (0x2598, 0x92); (0x2599, 0x93);
    (0x259A, 0x94); (0x259B, 0x95); (0x259C, 0x96); (0x259D, 0x97);
    (0x259E, 0x98); (0x259F, 0x99); (0x276F, 0x9A); (0x25C6, 0x9C);
    (0x25C7, 0x9D); (0x2714, 0x9E); (0x2718, 0x9F); (0x25FB, 0xA0);
    (0x25FC, 0xA1); (0x25C9, 0xA2); (0x25EF, 0xA3); (0x2610, 0xA4);
    (0x2612, 0xA5); (0x2605, 0xA6); (0x2630, 0xA7); (0x25B3, 0xA8);
    (0x26A0, 0xA9); (0x25CE, 0xAA); (0x25CC, 0xAB); (0x2139, 0xAC);
    (0x00B7, 0xAD)
  ].

(** [{v: k for k, v in GLYPH_MAP.items()}] *)
Definition CODE_TO_UNICODE : dict :=
  dict_of ((fun kv => (snd kv, fst kv)) <$> GLYPH_MAP).

(** ** Hexadecimal text *)

Definition hex_digit (d : Z) : ascii :=
  nth (Z.to_nat d) (list_ascii_of_string "0123456789ABCDEF") "0"%char.

Fixpoint hex_digits (fuel : nat) (n : Z) (acc : list ascii) : list ascii :=
  match fuel with
  | O => acc
  | S fuel' =>
      if n <? 16 then hex_digit n :: acc
      else hex_digits fuel' (n / 16) (hex_digit (n mod 16) :: acc)
  end.

(** [f'{v:0<width>X}']: upper-case digits, zero-padded to [width] characters;
    a negative number has its sign first, counted in the width.  The fuel
    is the bit length of [v], never less than its number of digits. *)
Definition format_X (width : nat) (v : Z) : list ascii :=
  let ds := hex_digits (S (Z.to_nat (Z.log2 (Z.abs v)))) (Z.abs v) [] in
  if v <? 0
  then "-"%char :: replicate (width - 1 - length ds) "0"%char ++ ds
  else replicate (width - length ds) "0"%char ++ ds.

(** [enumerate(l)] *)
Definition enumerate {A : Type} (l : list A) : list (Z * A) :=
  imap (fun i x => (Z.of_nat i, x)) l.

(** An expression [l[i]] that is read. *)
Definition list_read (l : list Z) (i : Z) : result Z :=
  n ← py_index l i;
  match l !! n with
  | Some v => Ok v
  | None => Raise IndexError
  end.

(** The statement [l[i] = v]. *)
Definition list_store (l : list Z) (i v : Z) : result (list Z) :=
  n ← py_index l i; Ok (<[n := v]> l).

(** The expression [bm.pixels[y][x]]. *)
Definition read_px (bm : Bitmap) (y x : Z) : result Z :=
  iy ← py_index (pixels bm) y;
  match pixels bm !! iy with
  | Some row => list_read row x
  | None => Raise IndexError
  end.

(** ** pack_nfnt *)

Record nfnt_data : Type := mk_nfnt_data {
  cell_w : Z;
  cell_h : Z;
  ascent : Z;
  descent : Z;
  leading : Z;
  row_words : Z;
  owTLoc : Z;
  strike_hex : list (list ascii);
  loc_table : list Z;
  ow_table : list Z
}.

Section Encoder.
Context {FM : FloatModel}.

(** The list of rendered glyphs, one per character code. *)
Definition glyph_bitmaps_of (cell_w cell_h : Z) : result (list Bitmap) :=
  for_each (range FIRST_CHAR (LAST_CHAR + 1)) (fun code acc =>
    match dict_get CODE_TO_UNICODE code with
    | Some ucp => bm ← render_glyph ucp cell_w cell_h; Ok (acc ++ [bm])
    | None => Ok (acc ++ [Bitmap_init cell_w cell_h])
    end) [].

(** The missing glyph, drawn as a box. *)
Definition missing_glyph (cell_w cell_h : Z) : result Bitmap :=
  (fill_rect 0 0 cell_w 1 >>
   fill_rect 0 (cell_h - 1) cell_w cell_h >>
   fill_rect 0 0 1 cell_h >>
   fill_rect (cell_w - 1) 0 cell_w cell_h) (Bitmap_init cell_w cell_h).

(** One row of the strike: [row_bits] pixels, glyph [gi] at [gi * cell_w]. *)
Definition strike_row (glyph_bitmaps : list Bitmap) (cell_w row_bits y : Z)
  : result (list Z) :=
  for_each (enumerate glyph_bitmaps) (fun gbm row =>
    let '(gi, bm) := gbm in
    let x_offset := gi * cell_w in
    for_each (range 0 cell_w) (fun x row =>
      if (y <? bm_h bm) && (x <? bm_w bm) then
        v ← read_px bm y x;
        if v =? 0 then Ok row else list_store row (x_offset + x) 1
      else Ok row) row)
    (replicate (Z.to_nat row_bits) 0).

(** The bytes of a row, most significant bit first. *)
Definition pack_row (row : list Z) (row_bits : Z) : result (list Z) :=
  starts ← range_step 0 row_bits 8;
  for_each starts (fun i row_bytes =>
    byte ← for_each (range 0 8) (fun bit byte =>
      if i + bit <? Z.of_nat (length row) then
        v ← list_read row (i + bit);
        if v =? 0 then Ok byte else Ok (Z.lor byte (Z.shiftr 0x80 bit))
      else Ok byte) 0;
    Ok (row_bytes ++ [byte])) [].

Definition pack_nfnt (pt_size cell_w cell_h ascent descent leading : Z)
  : result nfnt_data :=
  let num_chars := LAST_CHAR - FIRST_CHAR + 1 in
  let table_entries := num_chars + 2 in
  let total_glyphs := num_chars + 1 in
  let strip_width := total_glyphs * cell_w in
  let row_words := (strip_width + 15) / 16 in
  let row_bits := row_words * 16 in
  glyph_bitmaps ← glyph_bitmaps_of cell_w cell_h;
  missing ← missing_glyph cell_w cell_h;
  let glyph_bitmaps := glyph_bitmaps ++ [missing] in
  strike_rows ← for_each (range 0 cell_h) (fun y rows =>
    row ← strike_row glyph_bitmaps cell_w row_bits y;
    Ok (rows ++ [row])) [];
  strike_hex_rows ← for_each strike_rows (fun row acc =>
    row_bytes ← pack_row row row_bits;
    Ok (acc ++ [concat (format_X 2 <$> row_bytes)])) [];
  let loc_table :=
    ((fun i => i * cell_w) <$> range 0 num_chars)
    ++ [num_chars * cell_w]
    ++ [(num_chars + 1) * cell_w] in
  let ow_table :=
    ((fun i =>
        match dict_get CODE_TO_UNICODE (FIRST_CHAR + i) with
        | Some _ => Z.lor (Z.shiftl 0 8) cell_w
        | None => 0xFFFF
        end) <$> range 0 num_chars)
    ++ [Z.lor (Z.shiftl 0 8) cell_w]
    ++ [0xFFFF] in
  let strike_bytes := row_words * 2 * cell_h in
  let loc_bytes := table_entries * 2 in
  let ow_table_byte := 26 + strike_bytes + loc_bytes in
  let owTLoc_byte := 16 in
  let owTLoc := (ow_table_byte - owTLoc_byte) / 2 in
  Ok (mk_nfnt_data cell_w cell_h ascent descent leading row_words owTLoc
        strike_hex_rows loc_table ow_table).

(** ** emit_rez: the font resources

    What the loop over [MONACO_METRICS] prints for one size: the resource id
    and the four runs of hexadecimal text that make up the resource data, in
    the order printed.  The split of each run into lines of 64 characters
    does not change the data and is left out. *)
Record nfnt_rez : Type := mk_nfnt_rez {
  nfnt_id : Z;
  nfnt_pt : Z;
  header_words : list Z;
  header_hex : list ascii;
  strike_rows_hex : list (list ascii);
  loc_hex : list ascii;
  ow_hex : list ascii
}.

Definition emit_nfnt (i : Z) (m : metrics) : result nfnt_rez :=
  let '(pt, cw, ch, asc, dsc, lead) := m in
  let nfnt_id := NFNT_BASE_ID + i in
  data ← pack_nfnt pt cw ch asc dsc lead;
  let font_type := 0x9000 in
  let neg_descent := - dsc in
  let fRectWidth := cw in
  let fRectHeight := ch in
  let kern_max := 0 in
  let header_words := [
    font_type;
    FIRST_CHAR;
    LAST_CHAR;
    cw;
    kern_max;
    Z.land neg_descent 0xFFFF;
    fRectWidth;
    fRectHeight;
    Z.land (owTLoc data) 0xFFFF;
    asc;
    dsc;
    lead;
    row_words data
  ] in
  let header_hex := concat ((fun w => format_X 4 (Z.land w 0xFFFF)) <$> header_words) in
  let loc_hex := concat (format_X 4 <$> loc_table data) in
  let ow_hex := concat ((fun v => format_X 4 (Z.land v 0xFFFF)) <$> ow_table data) in
  Ok (mk_nfnt_rez nfnt_id pt header_words header_hex (strike_hex data) loc_hex ow_hex).

Definition emit_nfnts (all_metrics : list metrics) : result (list nfnt_rez) :=
  for_each (enumerate all_metrics) (fun im acc =>
    rz ← emit_nfnt (fst im) (snd im); Ok (acc ++ [rz])) [].

End Encoder.

(** The resource data of a font resource: its hexadecimal text in the order
    printed, two characters to the byte. *)
Definition nfnt_resource_hex (rz : nfnt_rez) : list ascii :=
  header_hex rz ++ concat (strike_rows_hex rz) ++ loc_hex rz ++ ow_hex rz.

(** The byte address at which the offset/width table starts in the
    resource: the bytes printed before it. *)
Definition ow_table_address (rz : nfnt_rez) : Z :=
  Z.of_nat (length (header_hex rz ++ concat (strike_rows_hex rz) ++ loc_hex rz)) / 2.

(** ** emit_rez: the family resource *)

(** [struct.pack('>H', v)] *)
Definition pack_H (v : Z) : result (list Z) :=
  if (0 <=? v) && (v <=? 0xFFFF) then Ok [v / 256; v mod 256]
  else Raise StructError.

(** [struct.pack('>h', v)] *)
Definition pack_h (v : Z) : result (list Z) :=
  if (-32768 <=? v) && (v <=? 32767)
  then Ok [(v mod 65536) / 256; v mod 256]
  else Raise StructError.

(** [struct.pack('>i', v)] *)
Definition pack_i (v : Z) : result (list Z) :=
  if (-2147483648 <=? v) && (v <=? 2147483647)
  then Ok [(v mod 4294967296) / 16777216; (v / 65536) mod 256;
           (v / 256) mod 256; v mod 256]
  else Raise StructError.

(** [fond_data += p] *)
Definition emit (p : result (list Z)) (fond_data : list Z) : result (list Z) :=
  bytes ← p; Ok (fond_data ++ bytes).

(** The fixed fields of the family record, up to [ffVersion]. *)
Definition fond_fixed_fields : result (list Z) :=
  let fond_flags := 0x8000 in
  let default_asc := 12 in
  let default_dsc := 3 in
  let default_lead := 1 in
  let default_wid := 7 in
  fond_data ← emit (pack_H fond_flags) [];
  fond_data ← emit (pack_h FOND_ID) fond_data;
  fond_data ← emit (pack_h FIRST_CHAR) fond_data;
  fond_data ← emit (pack_h LAST_CHAR) fond_data;
  fond_data ← emit (pack_h default_asc) fond_data;
  fond_data ← emit (pack_h default_dsc) fond_data;
  fond_data ← emit (pack_h default_lead) fond_data;
  fond_data ← emit (pack_h default_wid) fond_data;
  fond_data ← emit (pack_i 0) fond_data;
  fond_data ← emit (pack_i 0) fond_data;
  fond_data ← emit (pack_i 0) fond_data;
  fond_data ← for_each (range 0 9) (fun _ fond_data =>
    emit (pack_h 0) fond_data) fond_data;
  fond_data ← emit (pack_h 0) fond_data;
  fond_data ← emit (pack_h 0) fond_data;
  emit (pack_h 2) fond_data.

(** The family record: the fixed fields, then the font association table. *)
Definition fond_data_of (all_metrics : list metrics) : result (list Z) :=
  fond_data ← fond_fixed_fields;
  let num_entries := Z.of_nat (length all_metrics) in
  fond_data ← emit (pack_h (num_entries - 1)) fond_data;
  for_each (enumerate all_metrics) (fun im fond_data =>
    let '(i, (pt, cw, ch, asc, dsc, lead)) := im in
    fond_data ← emit (pack_h pt) fond_data;
    fond_data ← emit (pack_h 0) fond_data;
    emit (pack_h (NFNT_BASE_ID + i)) fond_data) fond_data.

(** [fond_data.hex().upper()] *)
Definition fond_hex_of (fond_data : list Z) : list ascii :=
  concat (format_X 2 <$> fond_data).

(** * Specification vocabulary *)

(** The shape [Bitmap.__init__] gives the pixel lists, kept by every method. *)
Definition wf (bm : Bitmap) : Prop :=
  length (pixels bm) = Z.to_nat (bm_h bm) /\
  Forall (fun row => length row = Z.to_nat (bm_w bm)) (pixels bm).

Definition in_grid (w h x y : Z) : Prop := 0 <= x < w /\ 0 <= y < h.

(** ** Painting

    [draws w h c P]: on every [w] by [h] bitmap the command [c] returns, keeps
    the bitmap's shape, sets to 1 the pixels of [P] that lie in the grid and
    leaves every other pixel as it was. *)
Definition draws (w h : Z) (c : cmd) (P : Z -> Z -> Prop) : Prop :=
  forall bm, wf bm -> bm_w bm = w -> bm_h bm = h ->
    exists bm', c bm = Ok bm' /\ wf bm' /\ bm_w bm' = w /\ bm_h bm' = h /\
      forall x y,
        (in_grid w h x y /\ P x y /\ px bm' x y = 1) \/
        (~ (in_grid w h x y /\ P x y) /\ px bm' x y = px bm x y).

(** The pixels a command sets on a fresh [w] by [h] bitmap. *)
Definition painted (w h : Z) (c : cmd) (x y : Z) : Prop :=
  exists bm', c (Bitmap_init w h) = Ok bm' /\ px bm' x y = 1.

(** A painter adds its own pixels to whatever the bitmap holds. *)
Definition painter (w h : Z) (c : cmd) : Prop := draws w h c (painted w h c).

(** [raises w h c]: on every [w] by [h] bitmap the command [c] raises
    OverflowError. *)
Definition raises (w h : Z) (c : cmd) : Prop :=
  forall bm, wf bm -> bm_w bm = w -> bm_h bm = h -> c bm = Raise OverflowError.

(** A command whose only failure is a float out of range: it raises on
    every [w] by [h] bitmap or draws on every one. *)
Definition paints (w h : Z) (c : cmd) (P : Z -> Z -> Prop) : Prop :=
  raises w h c \/ draws w h c P.

(** A command that keeps the shape of the bitmap whenever it returns. *)
Definition keeps (c : cmd) : Prop :=
  forall bm bm', wf bm -> c bm = Ok bm' ->
    wf bm' /\ bm_w bm' = bm_w bm /\ bm_h bm' = bm_h bm.

(** ** Numbers in the range of a float *)

(** The integer [n] converts to a double. *)
Definition float_ok (n : Z) : Prop := Z.abs (round53 n) < float_limit.

(** The largest cell width and height considered: what a 16-bit header
    field holds. *)
Definition cell_limit : Z := 65535.

Definition cell_fits (w h : Z) : Prop := Z.abs w <= cell_limit /\ Z.abs h <= cell_limit.

(** ** The drawing methods as data *)

Inductive draw_call : Type :=
  | Call_set (x y : Z)
  | Call_fill_rect (x0 y0 x1 y1 : Z)
  | Call_hline (y x0 x1 : Z)
  | Call_vline (x y0 y1 : Z)
  | Call_dither (density : Q)
  | Call_fill_circle (cx cy r : Z)
  | Call_outline_circle (cx cy r : Z)
  | Call_fill_triangle (pts : point * point * point).

Definition call `{FloatModel} (d : draw_call) : cmd :=
  match d with
  | Call_set x y => set x y
  | Call_fill_rect x0 y0 x1 y1 => fill_rect x0 y0 x1 y1
  | Call_hline y x0 x1 => hline y x0 x1
  | Call_vline x y0 y1 => vline x y0 y1
  | Call_dither density => dither density
  | Call_fill_circle cx cy r => fill_circle cx cy r
  | Call_outline_circle cx cy r => outline_circle cx cy r
  | Call_fill_triangle pts => fill_triangle pts
  end.

(** A sequence of calls on one bitmap. *)
Definition calls `{FloatModel} (ds : list draw_call) : cmd := for_each ds call.

(** The three dither patterns. *)
Definition dither_pattern (density : Q) (x y : Z) : Prop :=
  if Qle_bool (75 # 100) density then ~ (x mod 2 = 0 /\ y mod 2 = 0)
  else if Qle_bool (5 # 10) density then (x + y) mod 2 = 0
  else if Qle_bool (25 # 100) density then x mod 2 = 0 /\ y mod 2 = 0
  else False.

(** The region of the plane a call covers, before clipping to the grid. *)
Definition region `{FloatModel} (d : draw_call) (x y : Z) : Prop :=
  match d with
  | Call_set x0 y0 => x = x0 /\ y = y0
  | Call_fill_rect x0 y0 x1 y1 => x0 <= x < x1 /\ y0 <= y < y1
  | Call_hline y0 x0 x1 => y = y0 /\ x0 <= x < x1
  | Call_vline x0 y0 y1 => x = x0 /\ y0 <= y < y1
  | Call_dither density => dither_pattern density x y
  | Call_fill_circle cx cy r =>
      (x - cx) * (x - cx) + (y - cy) * (y - cy) <= r * r
  | Call_outline_circle cx cy r =>
      le_times_1_5 (Z.abs ((x - cx) * (x - cx) + (y - cy) * (y - cy) - r * r)) r
      = Ok true
  | Call_fill_triangle (p0, p1, p2) =>
      Z.min (snd p0) (Z.min (snd p1) (snd p2)) <= y
        <= Z.max (snd p0) (Z.max (snd p1) (snd p2)) /\
      exists xs, intersections p0 p1 p2 y = Ok xs /\
        (2 <= length xs)%nat /\ min_list xs <= x <= max_list xs
  end.

(** One scanline of [fill_triangle]: the pixels of row [y] from the first
    to the last crossing. *)
Definition scanline_region `{FloatModel} (p0 p1 p2 : point) (y x' y' : Z) : Prop :=
  y' = y /\
  exists xs, intersections p0 p1 p2 y = Ok xs /\
    (2 <= length xs)%nat /\ min_list xs <= x' <= max_list xs.

(** The arguments with which a method stays in the range of a float: the
    radius of [outline_circle] converts to a double, the x coordinates of
    [fill_triangle] are at most [float_bound]. *)
Definition call_fits (d : draw_call) : Prop :=
  match d with
  | Call_outline_circle cx cy r => float_ok r
  | Call_fill_triangle (p0, p1, p2) =>
      Z.abs (fst p0) <= float_bound /\ Z.abs (fst p1) <= float_bound /\
      Z.abs (fst p2) <= float_bound
  | _ => True
  end.

(** The placeholder of an unknown glyph: four points of a lozenge. *)
Definition lozenge_placeholder (w h : Z) : cmd :=
  set (w / 2) 1 >>
  set (w / 2 - 1) (h / 2) >>
  set (w / 2 + 1) (h / 2) >>
  set (w / 2) (h - 2).

(** ** Braille cells

    The dot a bit stands for: bits 0-2 the left column from the top, bits
    3-5 the right column from the top, bits 6 and 7 the bottom row, left
    and right.  [(column, row)], columns at [w // 3] and [w * 2 // 3], rows
    at [h * (row + 1) // 5]. *)
Definition braille_dot (bit : Z) : Z * Z :=
  if bit <? 3 then (0, bit)
  else if bit <? 6 then (1, bit - 3)
  else (bit - 6, 3).

Definition braille_centre (w h bit : Z) : Z * Z :=
  let '(col, row) := braille_dot bit in
  (if col =? 0 then w / 3 else w * 2 / 3, h * (row + 1) / 5).

Definition braille_radius (w h : Z) : Z := Z.max 1 (Z.min w h / 8).

Definition in_disk (c : Z * Z) (r x y : Z) : Prop :=
  (x - fst c) * (x - fst c) + (y - snd c) * (y - snd c) <= r * r.

(** ** Font resources *)

(** The point size, cell width and cell height of a configuration entry. *)
Definition pt_size_of (m : metrics) : Z := fst (fst (fst (fst (fst m)))).
Definition cell_width_of (m : metrics) : Z := snd (fst (fst (fst (fst m)))).
Definition cell_height_of (m : metrics) : Z := snd (fst (fst (fst m))).

(** A bitmap of one cell. *)
Definition cell_bitmap (cw ch : Z) (bm : Bitmap) : Prop :=
  wf bm /\ bm_w bm = cw /\ bm_h bm = ch.

(** The number of character codes of the font, [lastChar - firstChar + 1]. *)
Definition num_chars : Z := LAST_CHAR - FIRST_CHAR + 1.

(** What [pack_nfnt] returns for a cell, the strike apart: the fields it
    copies, [row_words], [owTLoc] and the two tables; the strike has one row
    of [row_words * 4] hexadecimal digits per pixel line. *)
Definition packed (cw ch asc dsc lead : Z) (data : nfnt_data) : Prop :=
  exists strike,
    data =
      mk_nfnt_data cw ch asc dsc lead
        (((num_chars + 1) * cw + 15) / 16)
        ((26 + ((num_chars + 1) * cw + 15) / 16 * 2 * ch + (num_chars + 2) * 2 - 16) / 2)
        strike
        (((fun i => i * cw) <$> range 0 num_chars)
           ++ [num_chars * cw] ++ [(num_chars + 1) * cw])
        (((fun i =>
             match dict_get CODE_TO_UNICODE (FIRST_CHAR + i) with
             | Some _ => Z.lor (Z.shiftl 0 8) cw
             | None => 0xFFFF
             end) <$> range 0 num_chars)
           ++ [Z.lor (Z.shiftl 0 8) cw] ++ [0xFFFF]) /\
    length strike = Z.to_nat ch /\
    Forall (fun r => length r = Z.to_nat (((num_chars + 1) * cw + 15) / 16 * 4)) strike.

(** The character codes that have a glyph. *)
Definition defined_codes : list Z :=
  filter (fun code => is_Some (dict_get CODE_TO_UNICODE code))
         (range FIRST_CHAR (LAST_CHAR + 1)).

(** The byte offset of header word [k]. *)
Definition header_field_address (k : Z) : Z := 2 * k.

(** The big-endian 16-bit words of a run of bytes. *)
Fixpoint words_of_bytes (bytes : list Z) : list Z :=
  match bytes with
  | hi :: lo :: rest => (hi * 256 + lo) :: words_of_bytes rest
  | _ => []
  end.

(** The fixed part of the family resource: 26 words. *)
Definition fond_header_bytes : Z := 52.

(** The entries of an association table, three words each. *)
Fixpoint triples_of_words (ws : list Z) : list (Z * Z * Z) :=
  match ws with
  | size :: style :: id :: rest => (size, style, id) :: triples_of_words rest
  | _ => []
  end.

(** Two bytes, big-endian, of a 16-bit two's-complement value. *)
Definition be16 (v : Z) : list Z := [(v mod 65536) / 256; v mod 256].

(** The six bytes of the association entry of size [i]. *)
Definition assoc_entry_bytes (im : Z * metrics) : list Z :=
  be16 (pt_size_of (snd im)) ++ be16 0 ++ be16 (NFNT_BASE_ID + fst im).

(** ** Vocabulary of the further properties *)

(** Arguments with which a drawing method has nothing to draw on a [w] by
    [h] bitmap. *)
Definition degenerate (w h : Z) (d : draw_call) : Prop :=
  match d with
  | Call_set x y => ~ in_grid w h x y
  | Call_fill_rect x0 y0 x1 y1 =>
      x1 <= x0 \/ y1 <= y0 \/ x1 <= 0 \/ y1 <= 0 \/ w <= x0 \/ h <= y0
  | Call_hline y x0 x1 => x1 <= x0 \/ x1 <= 0 \/ w <= x0 \/ y < 0 \/ h <= y
  | Call_vline x y0 y1 => y1 <= y0 \/ y1 <= 0 \/ h <= y0 \/ x < 0 \/ w <= x
  | Call_dither density => Qle_bool (25 # 100) density = false
  | Call_fill_circle cx cy r => False
  | Call_outline_circle cx cy r => r < 0 /\ float_ok r
  | Call_fill_triangle (p0, p1, p2) => snd p0 = snd p1 /\ snd p1 = snd p2
  end.

(** ** Reading the printed text back *)

(** The value of a hexadecimal digit, [0-9A-F]. *)
Definition hex_value (c : ascii) : Z :=
  let n := Z.of_nat (nat_of_ascii c) in
  if n <? 58 then n - 48 else n - 55.

(** [int(s, 16)] on a string of hexadecimal digits. *)
Definition parse_hex (s : list ascii) : Z :=
  foldl (fun acc c => acc * 16 + hex_value c) 0 s.

(** The first [k] groups of [n] digits of a text, each read as a number. *)
Fixpoint hex_groups (n k : nat) (s : list ascii) : list Z :=
  match k with
  | O => []
  | S k' => parse_hex (take n s) :: hex_groups n k' (drop n s)
  end.

(** The bytes of a text, two digits to the byte, and its 16-bit words. *)
Definition bytes_of_hex (s : list ascii) : list Z := hex_groups 2 (length s / 2) s.
Definition words_of_hex (s : list ascii) : list Z := hex_groups 4 (length s / 4) s.

(** Bit [j] of a strike row printed as [row_hex], counted from the left:
    the bit of weight [0x80 >> (j mod 8)] in byte [j / 8]. *)
Definition strike_bit (row_hex : list ascii) (j : Z) : bool :=
  match bytes_of_hex row_hex !! Z.to_nat (j / 8) with
  | Some b => Z.testbit b (7 - j mod 8)
  | None => false
  end.

(** A 16-bit word read as a signed number. *)
Definition signed16 (w : Z) : Z := if w <? 32768 then w else w - 65536.

(** ** emit_rez: the printed lines *)

(** [text[lo:hi]] for [0 <= lo <= hi]. *)
Definition slice {A : Type} (text : list A) (lo hi : Z) : list A :=
  take (Z.to_nat (hi - lo)) (drop (Z.to_nat lo) text).

(** The chunks that
    [for j in range(0, len(text), 64): chunk = text[j:j+64]]
    prints, one to a line. *)
Definition chunks_of (text : list ascii) : result (list (list ascii)) :=
  starts ← range_step 0 (Z.of_nat (length text)) 64;
  Ok (fmap (M := list) (fun j => slice text j (j + 64)) starts).

(** The data lines of a font resource in the order printed: the header on
    one line, then the chunks of every strike row, of the location table and
    of the offset/width table. *)
Definition nfnt_data_lines (rz : nfnt_rez) : result (list (list ascii)) :=
  strike ← for_each (strike_rows_hex rz) (fun row_hex lines =>
    chunks ← chunks_of row_hex; Ok (lines ++ chunks)) [];
  loc ← chunks_of (loc_hex rz);
  ow ← chunks_of (ow_hex rz);
  Ok ([header_hex rz] ++ strike ++ loc ++ ow).

(** A text cut every 64 characters. *)
Definition lines_of (text : list ascii) : list (list ascii) :=
  (fun k => take 64 (drop (k * 64) text)) <$> seq 0 ((length text + 63) / 64).

(** * Properties *)

(** ** The result monad and loops *)

Lemma for_each_app {A S : Type} (l1 l2 : list A) (body : A -> S -> result S) (s : S) :
  for_each (l1 ++ l2) body s = (s' ← for_each l1 body s; for_each l2 body s').
Proof.
  revert s. induction l1 as [|a l1 IH]; intros s; simpl; [reflexivity|].
  destruct (body a s) as [s'|e]; simpl; [apply IH | reflexivity].
Qed.

(** A loop whose body keeps an invariant and never raises runs to the end. *)
Lemma for_each_inv {A S : Type} (I : S -> Prop) (l : list A)
    (body : A -> S -> result S) (s : S) :
  I s ->
  (forall a s0, a ∈ l -> I s0 -> exists s1, body a s0 = Ok s1 /\ I s1) ->
  exists s', for_each l body s = Ok s' /\ I s'.
Proof.
  revert s. induction l as [|a l IH]; intros s Hs Hbody; simpl.
  - eauto.
  - destruct (Hbody a s) as (s1 & -> & Hs1); [left | assumption |]. simpl.
    apply IH; [assumption|]. intros; apply Hbody; [by right | assumption].
Qed.

Lemma elem_of_range (a b i : Z) : i ∈ range a b <-> a <= i < b.
Proof. unfold range. rewrite elem_of_seqZ. lia. Qed.

Lemma length_range (a b : Z) : length (range a b) = Z.to_nat (b - a).
Proof. unfold range. apply length_seqZ. Qed.

Lemma range_cons (a b : Z) : a < b -> range a b = a :: range (a + 1) b.
Proof.
  intros Hab. unfold range.
  replace (b - a) with (Z.succ (b - (a + 1))) by lia.
  rewrite seqZ_cons by lia. f_equal. f_equal; lia.
Qed.

Lemma range_nil (a b : Z) : b <= a -> range a b = [].
Proof. intros Hab. unfold range. apply seqZ_nil. lia. Qed.

(** Loops whose bodies agree on the elements of the list agree. *)
Lemma for_each_ext_cmd {A S : Type} (l : list A) (body body' : A -> S -> result S) (s : S) :
  (forall a, a ∈ l -> forall s0, body a s0 = body' a s0) ->
  for_each l body s = for_each l body' s.
Proof.
  revert s. induction l as [|a l IH]; intros s Hext; simpl; [reflexivity|].
  rewrite (Hext a) by left. destruct (body' a s) as [s'|e]; simpl; [|reflexivity].
  apply IH. intros; apply Hext. by right.
Qed.

(** A loop whose body does nothing does nothing. *)
Lemma for_each_skip {A S : Type} (l : list A) (body : A -> S -> result S) (s : S) :
  (forall a, a ∈ l -> forall s0, body a s0 = Ok s0) ->
  for_each l body s = Ok s.
Proof.
  induction l as [|a l IH]; intros Hbody; simpl; [reflexivity|].
  rewrite (Hbody a) by left. simpl. apply IH. intros; apply Hbody. by right.
Qed.

Lemma py_index_ok {A : Type} (l : list A) (i : Z) :
  0 <= i < Z.of_nat (length l) -> py_index l i = Ok (Z.to_nat i).
Proof.
  intros H. unfold py_index.
  destruct (Z.leb_spec 0 i), (Z.ltb_spec i (Z.of_nat (length l))); simpl; try lia.
  reflexivity.
Qed.

(** ** Bitmaps *)

Lemma wf_init (w h : Z) : wf (Bitmap_init w h).
Proof.
  split; simpl.
  - apply length_replicate.
  - apply Forall_replicate, length_replicate.
Qed.

Lemma px_init (w h x y : Z) : px (Bitmap_init w h) x y = 0.
Proof.
  unfold px, Bitmap_init; simpl.
  destruct ((0 <=? x) && (0 <=? y)); [|reflexivity].
  destruct (replicate _ _ !! Z.to_nat y) as [row|] eqn:E; [|reflexivity].
  apply lookup_replicate in E as [-> _].
  destruct (replicate _ _ !! Z.to_nat x) as [v|] eqn:E'; [|reflexivity].
  apply lookup_replicate in E' as [-> _]. reflexivity.
Qed.

Lemma px_outside (bm : Bitmap) (x y : Z) :
  wf bm -> ~ in_grid (bm_w bm) (bm_h bm) x y -> px bm x y = 0.
Proof.
  intros [Hlen Hrows] Hout. unfold px.
  destruct (Z.leb_spec 0 x), (Z.leb_spec 0 y); simpl; try reflexivity.
  destruct (pixels bm !! Z.to_nat y) as [row|] eqn:E; [|reflexivity].
  assert (Hy : (Z.to_nat y < length (pixels bm))%nat) by (eapply lookup_lt_Some; eauto).
  rewrite Forall_forall in Hrows.
  assert (Hrow : length row = Z.to_nat (bm_w bm)).
  { apply Hrows. eapply list_elem_of_lookup_2; eauto. }
  destruct (row !! Z.to_nat x) as [v|] eqn:E'; [|reflexivity].
  assert ((Z.to_nat x < length row)%nat) by (eapply lookup_lt_Some; eauto).
  exfalso. apply Hout. unfold in_grid. lia.
Qed.

(** What [self.pixels[y][x] = 1] does at a grid coordinate. *)
Lemma store_spec (bm : Bitmap) (x y : Z) :
  wf bm -> in_grid (bm_w bm) (bm_h bm) x y ->
  exists bm', store y x bm = Ok bm' /\ wf bm' /\
    bm_w bm' = bm_w bm /\ bm_h bm' = bm_h bm /\
    forall x' y', px bm' x' y' = if decide (x' = x /\ y' = y) then 1 else px bm x' y'.
Proof.
  intros [Hlen Hrows] [Hx Hy]. unfold store.
  rewrite py_index_ok by lia. simpl.
  destruct (pixels bm !! Z.to_nat y) as [row|] eqn:Erow.
  2:{ apply lookup_ge_None in Erow. lia. }
  assert (Hrow : length row = Z.to_nat (bm_w bm)).
  { rewrite Forall_forall in Hrows. apply Hrows. eapply list_elem_of_lookup_2; eauto. }
  rewrite py_index_ok by lia. simpl.
  eexists; split; [reflexivity|]. split; [|split; [reflexivity|split; [reflexivity|]]].
  - split; simpl.
    + rewrite length_insert. assumption.
    + apply Forall_insert; [assumption|]. rewrite length_insert. assumption.
  - intros x' y'. unfold px; simpl.
    destruct (Z.leb_spec 0 x'), (Z.leb_spec 0 y'); simpl;
      try (destruct (decide _) as [[-> ->]|]; [lia | reflexivity]).
    destruct (decide (Z.to_nat y' = Z.to_nat y)) as [Ey|Ey].
    + rewrite Ey, list_lookup_insert_eq by lia. rewrite Erow.
      destruct (decide (Z.to_nat x' = Z.to_nat x)) as [Ex|Ex].
      * rewrite Ex, list_lookup_insert_eq by lia. simpl.
        destruct (decide _) as [|Hn]; [reflexivity|]. exfalso. apply Hn. lia.
      * rewrite list_lookup_insert_ne by lia.
        destruct (decide _) as [[-> _]|]; [congruence | reflexivity].
    + rewrite list_lookup_insert_ne by lia.
      destruct (decide _) as [[_ ->]|]; [congruence | reflexivity].
Qed.

Lemma draws_weaken (w h : Z) (c : cmd) (P Q : Z -> Z -> Prop) :
  draws w h c P ->
  (forall x y, in_grid w h x y -> (P x y <-> Q x y)) ->
  draws w h c Q.
Proof.
  intros Hc HPQ bm Hwf Hw Hh.
  destruct (Hc bm Hwf Hw Hh) as (bm' & E & Hwf' & Hw' & Hh' & Hpx).
  exists bm'. do 4 (split; [assumption|]).
  intros x y. destruct (Hpx x y) as [(Hg & HP & H1)|[Hn H1]].
  - left. split; [assumption|]. split; [apply HPQ; assumption | assumption].
  - right. split; [|assumption]. intros [Hg HQ]. apply Hn. split; [assumption|].
    apply HPQ; assumption.
Qed.

Lemma draws_painted (w h : Z) (c : cmd) (P : Z -> Z -> Prop) :
  draws w h c P ->
  forall x y, painted w h c x y <-> (in_grid w h x y /\ P x y).
Proof.
  intros Hc x y.
  destruct (Hc (Bitmap_init w h) (wf_init w h) eq_refl eq_refl)
    as (bm' & E & _ & _ & _ & Hpx).
  unfold painted. rewrite E. split.
  - intros (b & [= <-] & H1). destruct (Hpx x y) as [(Hg & HP & _)|[_ H0]]; [tauto|].
    rewrite px_init in H0. congruence.
  - intros HgP. exists bm'. split; [reflexivity|].
    destruct (Hpx x y) as [(_ & _ & H1)|[Hn _]]; [assumption | tauto].
Qed.

Lemma draws_painter (w h : Z) (c : cmd) (P : Z -> Z -> Prop) :
  draws w h c P -> painter w h c.
Proof.
  intros Hc. unfold painter. eapply draws_weaken; [exact Hc|].
  intros x y Hg. rewrite (draws_painted _ _ _ _ Hc). tauto.
Qed.

Lemma draws_store (w h x y : Z) :
  in_grid w h x y -> draws w h (store y x) (fun x' y' => x' = x /\ y' = y).
Proof.
  intros Hg bm Hwf Hw Hh. subst w h.
  destruct (store_spec bm x y Hwf Hg) as (bm' & E & Hwf' & Hw' & Hh' & Hpx).
  exists bm'. do 4 (split; [assumption|]).
  intros x' y'. rewrite Hpx. destruct (decide _) as [[-> ->]|Hn].
  - left. tauto.
  - right. tauto.
Qed.

Lemma draws_skip (w h : Z) : draws w h skip (fun _ _ => False).
Proof.
  intros bm Hwf Hw Hh. exists bm. do 4 (split; [done|]).
  intros x y. right. tauto.
Qed.

Lemma draws_seq (w h : Z) (c1 c2 : cmd) (P1 P2 : Z -> Z -> Prop) :
  draws w h c1 P1 -> draws w h c2 P2 ->
  draws w h (c1 >> c2) (fun x y => P1 x y \/ P2 x y).
Proof.
  intros H1 H2 bm Hwf Hw Hh.
  destruct (H1 bm Hwf Hw Hh) as (bm1 & E1 & Hwf1 & Hw1 & Hh1 & Hpx1).
  destruct (H2 bm1 Hwf1 Hw1 Hh1) as (bm2 & E2 & Hwf2 & Hw2 & Hh2 & Hpx2).
  exists bm2. unfold seq_cmd. rewrite E1. simpl. rewrite E2.
  do 4 (split; [done|]).
  intros x y.
  destruct (Hpx2 x y) as [(Hg & HP & Hone)|[Hn Hsame]].
  - left. tauto.
  - rewrite Hsame. destruct (Hpx1 x y) as [(Hg & HP & Hone)|[Hn1 Hsame1]].
    + left. tauto.
    + right. tauto.
Qed.

Lemma draws_when (w h : Z) (b : bool) (c : cmd) (P : Z -> Z -> Prop) :
  (b = true -> draws w h c P) ->
  draws w h (when b c) (fun x y => b = true /\ P x y).
Proof.
  intros Hc. destruct b; simpl.
  - eapply draws_weaken; [apply Hc; reflexivity|]. tauto.
  - eapply draws_weaken; [apply draws_skip|]. intros x y _. split; [tauto | intros [? _]; discriminate].
Qed.

Lemma draws_for_each {A : Type} (w h : Z) (l : list A) (body : A -> cmd)
    (P : A -> Z -> Z -> Prop) :
  (forall a, a ∈ l -> draws w h (body a) (P a)) ->
  draws w h (for_each l body) (fun x y => exists a, a ∈ l /\ P a x y).
Proof.
  induction l as [|a l IH]; intros Hbody.
  - eapply draws_weaken; [apply draws_skip|].
    intros x y _. split; [tauto|]. intros (a & Ha & _). inversion Ha.
  - eapply draws_weaken.
    + apply (draws_seq w h (body a) (for_each l body)).
      * apply Hbody. left.
      * apply IH. intros; apply Hbody. by right.
    + intros x y _. split.
      * intros [H | (a' & Ha' & H)]; [exists a; split; [left | assumption] |].
        exists a'. split; [by right | assumption].
      * intros (a' & Ha' & H). apply elem_of_cons in Ha' as [-> | Ha']; [tauto|].
        right. eauto.
Qed.

Lemma draws_for_range (w h a b : Z) (body : Z -> cmd) (P : Z -> Z -> Z -> Prop) :
  (forall i, a <= i < b -> draws w h (body i) (P i)) ->
  draws w h (for_range a b body) (fun x y => exists i, a <= i < b /\ P i x y).
Proof.
  intros Hbody. unfold for_range. eapply draws_weaken.
  - apply draws_for_each with (P := P). intros i Hi. apply Hbody, elem_of_range, Hi.
  - intros x y _. split; intros (i & Hi & H); exists i; split; try assumption;
      apply elem_of_range; assumption.
Qed.

(** ** The drawing methods *)

Lemma draws_dims (w h : Z) (c c' : cmd) (P : Z -> Z -> Prop) :
  (forall bm, bm_w bm = w -> bm_h bm = h -> c bm = c' bm) ->
  draws w h c' P -> draws w h c P.
Proof.
  intros Heq Hc bm Hwf Hw Hh. rewrite (Heq bm Hw Hh). apply Hc; assumption.
Qed.

Ltac with_dims :=
  eapply draws_dims;
  [ let bm := fresh "bm" in let Hw := fresh "Hw" in let Hh := fresh "Hh" in
    intros bm Hw Hh; cbv beta delta [set fill_rect hline vline dither
      fill_circle];
    rewrite ?Hw, ?Hh; reflexivity
  | ].

Lemma andb_leb_ltb (a x b : Z) : (a <=? x) && (x <? b) = true <-> a <= x < b.
Proof. rewrite andb_true_iff, Z.leb_le, Z.ltb_lt. tauto. Qed.

Lemma draws_set (w h x y : Z) :
  draws w h (set x y) (fun x' y' => x' = x /\ y' = y).
Proof.
  with_dims. eapply draws_weaken.
  - apply draws_when. intros Hb. apply draws_store.
    apply andb_true_iff in Hb as [Hx Hy].
    apply andb_leb_ltb in Hx, Hy. split; assumption.
  - intros x' y' Hg. simpl. split; [tauto|]. intros [-> ->]. split; [|tauto].
    destruct Hg as [Hx Hy]. apply andb_true_iff. split; apply andb_leb_ltb; assumption.
Qed.

Lemma draws_fill_rect (w h x0 y0 x1 y1 : Z) :
  draws w h (fill_rect x0 y0 x1 y1) (fun x y => x0 <= x < x1 /\ y0 <= y < y1).
Proof.
  with_dims. eapply draws_weaken.
  - apply draws_for_range. intros y Hy. apply draws_for_range. intros x Hx.
    apply draws_store. unfold in_grid. lia.
  - intros x y [Hx Hy]. simpl. split.
    + intros (y' & Hy' & x' & Hx' & -> & ->). lia.
    + intros [Hx' Hy']. exists y. split; [lia|]. exists x. split; [lia|]. tauto.
Qed.

Lemma draws_hline (w h y x0 x1 : Z) :
  draws w h (hline y x0 x1) (fun x' y' => y' = y /\ x0 <= x' < x1).
Proof.
  with_dims. eapply draws_weaken.
  - apply draws_for_range. intros x Hx. apply draws_when. intros Hb.
    apply draws_store. apply andb_leb_ltb in Hb. unfold in_grid. lia.
  - intros x' y' [Hx Hy]. simpl. split.
    + intros (x & Hx' & _ & -> & ->). lia.
    + intros [-> Hx']. exists x'. split; [lia|]. split; [|tauto].
      apply andb_leb_ltb. assumption.
Qed.

Lemma draws_vline (w h x y0 y1 : Z) :
  draws w h (vline x y0 y1) (fun x' y' => x' = x /\ y0 <= y' < y1).
Proof.
  with_dims. eapply draws_weaken.
  - apply draws_for_range. intros y Hy. apply draws_when. intros Hb.
    apply draws_store. apply andb_leb_ltb in Hb. unfold in_grid. lia.
  - intros x' y' [Hx Hy]. simpl. split.
    + intros (y & Hy' & _ & -> & ->). lia.
    + intros [-> Hy']. exists y'. split; [lia|]. split; [|tauto].
      apply andb_leb_ltb. assumption.
Qed.

(** A method that tests every pixel of the grid. *)
Lemma draws_per_pixel (w h : Z) (test : Z -> Z -> bool) :
  draws w h
    (for_range 0 h (fun y => for_range 0 w (fun x => when (test x y) (store y x))))
    (fun x y => test x y = true).
Proof.
  eapply draws_weaken.
  - apply draws_for_range. intros y Hy. apply draws_for_range. intros x Hx.
    apply draws_when. intros _. apply draws_store. unfold in_grid. lia.
  - intros x y [Hx Hy]. simpl. split.
    + intros (y' & Hy' & x' & Hx' & Ht & -> & ->). assumption.
    + intros Ht. exists y. split; [lia|]. exists x. split; [lia|]. tauto.
Qed.

Lemma draws_fill_circle (w h cx cy r : Z) :
  draws w h (fill_circle cx cy r)
    (fun x y => (x - cx) * (x - cx) + (y - cy) * (y - cy) <= r * r).
Proof.
  with_dims. eapply draws_weaken.
  - apply (draws_per_pixel w h
      (fun x y => (x - cx) * (x - cx) + (y - cy) * (y - cy) <=? r * r)).
  - intros x y _. simpl. apply Z.leb_le.
Qed.

(** ** Floats *)

Lemma round53_small (n : Z) : Z.abs n < 9007199254740992 -> round53 n = n.
Proof.
  intros Hn. unfold round53. cbv zeta.
  destruct (Z.leb_spec (Z.log2 (Z.abs n) - 52) 0) as [_|Hs]; [reflexivity|].
  exfalso. destruct (Z.eq_dec (Z.abs n) 0) as [E|Hnz].
  - rewrite E in Hs. simpl in Hs. lia.
  - assert (Hlog : Z.log2 (Z.abs n) < 53).
    { apply Z.log2_lt_pow2; [lia|]. exact Hn. }
    lia.
Qed.

(** Rounding keeps the sign. *)
Lemma round53_negative (n : Z) : n < 0 -> round53 n < 0.
Proof.
  intros Hn. unfold round53. cbv zeta.
  destruct (Z.leb_spec (Z.log2 (Z.abs n) - 52) 0) as [_|Hs]; [exact Hn|].
  set (a := Z.abs n) in *. set (s := Z.log2 a - 52) in *.
  assert (Ha : 0 < a) by (subst a; lia).
  assert (Hq : 1 <= Z.shiftr a s).
  { rewrite Z.shiftr_div_pow2 by lia.
    assert (Hp : 0 < 2 ^ s) by (apply Z.pow_pos_nonneg; lia).
    apply Z.div_le_lower_bound; [exact Hp|].
    pose proof (Z.log2_spec a Ha) as [Hlo _].
    assert (2 ^ s <= 2 ^ Z.log2 a) by (apply Z.pow_le_mono_r; lia). lia. }
  assert (Hq' : 1 <= (if (Z.shiftl 1 (s - 1) <? a - Z.shiftl (Z.shiftr a s) s)
                         || ((a - Z.shiftl (Z.shiftr a s) s =? Z.shiftl 1 (s - 1))
                             && Z.odd (Z.shiftr a s))
                      then Z.shiftr a s + 1 else Z.shiftr a s)).
  { destruct (_ || _); lia. }
  rewrite Z.sgn_neg by exact Hn. rewrite Z.shiftl_mul_pow2 by lia.
  assert (0 < 2 ^ s) by (apply Z.pow_pos_nonneg; lia). nia.
Qed.

Lemma float_limit_large : 9007199254740992 < float_limit.
Proof. reflexivity. Qed.

Lemma float_bound_large : 9007199254740992 < float_bound.
Proof. reflexivity. Qed.

Lemma float_ok_small (n : Z) : Z.abs n < 9007199254740992 -> float_ok n.
Proof.
  intros Hn. unfold float_ok. rewrite round53_small by exact Hn.
  pose proof float_limit_large. lia.
Qed.

Lemma int_to_float_ok (n : Z) : float_ok n -> int_to_float n = Ok (round53 n).
Proof.
  intros Hn. unfold int_to_float. cbv zeta.
  destruct (Z.ltb_spec (Z.abs (round53 n)) float_limit);
    [reflexivity | unfold float_ok in Hn; lia].
Qed.

Lemma int_to_float_raises (n : Z) : ~ float_ok n -> int_to_float n = Raise OverflowError.
Proof.
  intros Hn. unfold int_to_float. cbv zeta.
  destruct (Z.ltb_spec (Z.abs (round53 n)) float_limit);
    [unfold float_ok in Hn; lia | reflexivity].
Qed.

(** The test of [outline_circle] either has a value for every pixel or
    raises for every pixel. *)
Lemma le_times_1_5_ok (lhs r : Z) :
  float_ok r -> exists b, le_times_1_5 lhs r = Ok b.
Proof.
  intros Hr. unfold le_times_1_5. rewrite int_to_float_ok by exact Hr.
  eexists. reflexivity.
Qed.

Lemma le_times_1_5_raises (lhs r : Z) :
  ~ float_ok r -> le_times_1_5 lhs r = Raise OverflowError.
Proof.
  intros Hr. unfold le_times_1_5. rewrite int_to_float_raises by exact Hr.
  reflexivity.
Qed.

(** Up to [2 ** 51] the radius and its product with 1.5 are exact. *)
Lemma le_times_1_5_exact (lhs r : Z) :
  Z.abs r <= 2251799813685248 ->
  le_times_1_5 lhs r = Ok (2 * lhs <=? 3 * r).
Proof.
  intros Hr. unfold le_times_1_5.
  rewrite int_to_float_ok by (apply float_ok_small; lia).
  rewrite (round53_small r) by lia. simpl.
  rewrite (round53_small (3 * r)) by lia.
  pose proof float_limit_large.
  destruct (Z.leb_spec (2 * float_limit) (3 * r)); [lia|].
  destruct (Z.leb_spec (3 * r) (- (2 * float_limit))); [lia|]. reflexivity.
Qed.

(** A negative radius selects no pixel. *)
Lemma le_times_1_5_negative (lhs r : Z) :
  r < 0 -> 0 <= lhs -> le_times_1_5 lhs r <> Ok true.
Proof.
  intros Hr Hl. destruct (Z_lt_dec (Z.abs (round53 r)) float_limit) as [Hok|Hno].
  - unfold le_times_1_5. rewrite int_to_float_ok by exact Hok. simpl.
    pose proof (round53_negative r Hr) as Hf.
    pose proof (round53_negative (3 * round53 r) ltac:(lia)) as Ht.
    assert (0 < float_limit) by reflexivity.
    destruct (Z.leb_spec (2 * float_limit) (round53 (3 * round53 r))); [lia|].
    destruct (Z.leb_spec (round53 (3 * round53 r)) (- (2 * float_limit)));
      [discriminate|].
    destruct (Z.leb_spec (2 * lhs) (round53 (3 * round53 r))); [lia | discriminate].
  - rewrite le_times_1_5_raises by exact Hno. discriminate.
Qed.

(** On an empty grid a command that returns its bitmap draws whatever is
    asked. *)
Lemma draws_empty_grid (w h : Z) (c : cmd) (P : Z -> Z -> Prop) :
  w <= 0 \/ h <= 0 ->
  (forall bm, bm_w bm = w -> bm_h bm = h -> c bm = Ok bm) ->
  draws w h c P.
Proof.
  intros Hempty Hc bm Hwf Hw Hh. exists bm. rewrite (Hc bm Hw Hh).
  do 4 (split; [done|]). intros x y. right. split; [|reflexivity].
  intros [[? ?] _]. lia.
Qed.

Lemma draws_outline_circle (w h cx cy r : Z) :
  float_ok r ->
  draws w h (outline_circle cx cy r)
    (fun x y =>
       le_times_1_5 (Z.abs ((x - cx) * (x - cx) + (y - cy) * (y - cy) - r * r)) r
       = Ok true).
Proof.
  intros Hr.
  pose (test := fun x y : Z =>
    match le_times_1_5 (Z.abs ((x - cx) * (x - cx) + (y - cy) * (y - cy) - r * r)) r
    with Ok b => b | Raise _ => false end).
  eapply draws_dims with
    (c' := for_range 0 h (fun y => for_range 0 w (fun x => when (test x y) (store y x)))).
  { intros bm Hw Hh. unfold outline_circle. rewrite Hw, Hh. cbv zeta.
    unfold for_range. apply for_each_ext_cmd. intros y _ bm1.
    apply for_each_ext_cmd. intros x _ bm2. unfold test.
    destruct (le_times_1_5_ok
      (Z.abs ((x - cx) * (x - cx) + (y - cy) * (y - cy) - r * r)) r Hr) as (b & ->).
    reflexivity. }
  eapply draws_weaken; [apply draws_per_pixel|].
  intros x y _. cbv beta. unfold test.
  destruct (le_times_1_5_ok
    (Z.abs ((x - cx) * (x - cx) + (y - cy) * (y - cy) - r * r)) r Hr) as (b & ->).
  split; [intros ->; reflexivity | intros [= ->]; reflexivity].
Qed.

(** With a radius of at most [2 ** 51] the test is the exact one. *)
Lemma draws_outline_circle_exact (w h cx cy r : Z) :
  Z.abs r <= 2251799813685248 ->
  draws w h (outline_circle cx cy r)
    (fun x y =>
       2 * Z.abs ((x - cx) * (x - cx) + (y - cy) * (y - cy) - r * r) <= 3 * r).
Proof.
  intros Hr. eapply draws_weaken.
  - apply draws_outline_circle, float_ok_small. lia.
  - intros x y _. cbv beta. rewrite le_times_1_5_exact by exact Hr.
    split; [intros [= H]; apply Z.leb_le; exact H | intros H; f_equal; apply Z.leb_le; exact H].
Qed.

(** A radius too large for a float: the first pixel tested raises. *)
Lemma raises_outline_circle (w h cx cy r : Z) :
  ~ float_ok r -> 0 < w -> 0 < h -> raises w h (outline_circle cx cy r).
Proof.
  intros Hr Hw Hh bm _ Ew Eh. unfold outline_circle, for_range. rewrite Ew, Eh.
  rewrite (range_cons 0 h) by lia. cbn [for_each].
  rewrite (range_cons 0 w) by lia. cbn [for_each]. cbv zeta.
  rewrite le_times_1_5_raises by exact Hr. reflexivity.
Qed.

(** Whatever the radius, [outline_circle] raises on every bitmap of a size
    or draws on every one. *)
Lemma paints_outline_circle (w h cx cy r : Z) :
  paints w h (outline_circle cx cy r)
    (fun x y =>
       le_times_1_5 (Z.abs ((x - cx) * (x - cx) + (y - cy) * (y - cy) - r * r)) r
       = Ok true).
Proof.
  destruct (Z_lt_dec (Z.abs (round53 r)) float_limit) as [Hok|Hno].
  { right. apply draws_outline_circle. exact Hok. }
  destruct (Z_lt_dec 0 w) as [Hw|Hw]; [destruct (Z_lt_dec 0 h) as [Hh|Hh]|].
  - left. apply raises_outline_circle; assumption.
  - right. apply draws_empty_grid; [lia|]. intros bm Ew Eh.
    unfold outline_circle, for_range. rewrite Eh, range_nil by lia. reflexivity.
  - right. apply draws_empty_grid; [lia|]. intros bm Ew Eh.
    unfold outline_circle, for_range. rewrite Ew.
    apply for_each_skip. intros y _ bm1. rewrite range_nil by lia. reflexivity.
Qed.

Lemma draws_dither (w h : Z) (density : Q) :
  draws w h (dither density) (dither_pattern density).
Proof.
  with_dims. unfold dither_pattern.
  destruct (Qle_bool (75 # 100) density);
    [|destruct (Qle_bool (5 # 10) density);
      [|destruct (Qle_bool (25 # 100) density)]].
  - eapply draws_weaken;
      [apply (draws_per_pixel w h (fun x y => negb ((x mod 2 =? 0) && (y mod 2 =? 0))))|].
    intros x y _. simpl. rewrite negb_true_iff, andb_false_iff, !Z.eqb_neq. lia.
  - eapply draws_weaken;
      [apply (draws_per_pixel w h (fun x y => (x + y) mod 2 =? 0))|].
    intros x y _. simpl. apply Z.eqb_eq.
  - eapply draws_weaken;
      [apply (draws_per_pixel w h (fun x y => (x mod 2 =? 0) && (y mod 2 =? 0)))|].
    intros x y _. simpl. rewrite andb_true_iff, !Z.eqb_eq. tauto.
  - eapply draws_weaken.
    + apply draws_for_range with (P := fun _ _ _ => False). intros y Hy.
      eapply draws_weaken.
      * apply draws_for_range with (P := fun _ _ _ => False). intros x Hx.
        apply draws_skip.
      * intros x' y' _. split; [intros (? & _ & []) | intros []].
    + intros x y _. simpl. split; [intros (? & _ & []) | intros []].
Qed.

Section Painters.
Context {FM : FloatModel}.
Variables w h : Z.

(** *** Commands that may raise *)

Lemma raises_not_draws (c : cmd) (P : Z -> Z -> Prop) :
  raises w h c -> draws w h c P -> False.
Proof.
  intros Hr Hd.
  destruct (Hd (Bitmap_init w h) (wf_init w h) eq_refl eq_refl) as (bm' & E & _).
  rewrite (Hr (Bitmap_init w h) (wf_init w h) eq_refl eq_refl) in E. discriminate.
Qed.

Lemma paints_dims (c c' : cmd) (P : Z -> Z -> Prop) :
  (forall bm, bm_w bm = w -> bm_h bm = h -> c bm = c' bm) ->
  paints w h c' P -> paints w h c P.
Proof.
  intros Heq [Hr|Hd].
  - left. intros bm Hwf Hw Hh. rewrite (Heq bm Hw Hh). apply Hr; assumption.
  - right. eapply draws_dims; eassumption.
Qed.

Lemma paints_weaken (c : cmd) (P Q : Z -> Z -> Prop) :
  paints w h c P ->
  (forall x y, in_grid w h x y -> (P x y <-> Q x y)) ->
  paints w h c Q.
Proof.
  intros [Hr|Hd] HPQ; [left; exact Hr | right; eapply draws_weaken; eassumption].
Qed.

(** A loop of such commands raises as soon as one of them does, and draws
    what they draw when none does. *)
Lemma paints_for_each {A : Type} (l : list A) (body : A -> cmd)
    (P : A -> Z -> Z -> Prop) :
  (forall a, a ∈ l -> paints w h (body a) (P a)) ->
  (raises w h (for_each l body) /\ exists a, a ∈ l /\ raises w h (body a)) \/
  (draws w h (for_each l body) (fun x y => exists a, a ∈ l /\ P a x y) /\
   forall a, a ∈ l -> draws w h (body a) (P a)).
Proof.
  induction l as [|a l IH]; intros Hbody.
  - right. split; [|intros a Ha; inversion Ha].
    apply draws_for_each. intros a Ha. inversion Ha.
  - destruct (Hbody a ltac:(left)) as [Hr|Hd].
    + left. split; [|exists a; split; [left | exact Hr]].
      intros bm Hwf Hw Hh. simpl. rewrite (Hr bm Hwf Hw Hh). reflexivity.
    + destruct IH as [[Hrl (a' & Ha' & Hra')] | [Hdl Hall]].
      { intros a' Ha'. apply Hbody. by right. }
      * left. split; [|exists a'; split; [by right | exact Hra']].
        intros bm Hwf Hw Hh. simpl.
        destruct (Hd bm Hwf Hw Hh) as (bm1 & -> & Hwf1 & Hw1 & Hh1 & _). simpl.
        apply Hrl; assumption.
      * right. split.
        -- apply draws_for_each. intros a' Ha'.
           apply elem_of_cons in Ha' as [-> | Ha']; [exact Hd | apply Hall, Ha'].
        -- intros a' Ha'.
           apply elem_of_cons in Ha' as [-> | Ha']; [exact Hd | apply Hall, Ha'].
Qed.

(** *** fill_triangle *)

(** The crossings of a row are computed, or one of them is out of the
    range of a float. *)
Lemma intersections_cases (p0 p1 p2 : point) (y : Z) :
  (exists xs, intersections p0 p1 p2 y = Ok xs) \/
  intersections p0 p1 p2 y = Raise OverflowError.
Proof.
  unfold intersections. cbn [for_each].
  repeat match goal with
  | |- context [if ?b then _ else _] => destruct b; cbn [mbind result_bind]
  | |- context [match edge_x ?a ?b ?y with _ => _ end] =>
      destruct (edge_x a b y); cbn [mbind result_bind]
  end; eauto.
Qed.

Lemma intersections_ok (p0 p1 p2 : point) (y : Z) :
  call_fits (Call_fill_triangle (p0, p1, p2)) ->
  exists xs, intersections p0 p1 p2 y = Ok xs.
Proof.
  intros (H0 & H1 & H2). unfold intersections. cbn [for_each].
  repeat match goal with
  | |- context [if ?a =? ?b then _ else _] =>
      destruct (Z.eqb_spec a b); cbn [mbind result_bind]
  | |- context [if (?a <=? ?y) && (?y <=? ?b) then _ else _] =>
      destruct (Z.leb_spec a y), (Z.leb_spec y b); cbn [andb mbind result_bind]
  | |- context [match edge_x ?a ?b ?y with _ => _ end] =>
      let E := fresh "E" in
      destruct (edge_x_returns a b y) as [? E];
        [assumption | lia | assumption | assumption |];
      rewrite E; cbn [mbind result_bind]
  end; eauto.
Qed.

Lemma paints_scanline (p0 p1 p2 : point) (y : Z) :
  0 <= y < h ->
  paints w h
    (fun bm =>
       xs ← intersections p0 p1 p2 y;
       when (2 <=? Z.of_nat (length xs))
         (for_range (Z.max 0 (min_list xs)) (Z.min (bm_w bm) (max_list xs + 1))
                    (fun x => store y x)) bm)
    (scanline_region p0 p1 p2 y).
Proof.
  intros Hy. destruct (intersections_cases p0 p1 p2 y) as [[xs E] | E].
  - right. eapply draws_dims with
      (c' := when (2 <=? Z.of_nat (length xs))
               (for_range (Z.max 0 (min_list xs)) (Z.min w (max_list xs + 1))
                          (fun x => store y x))).
    { intros bm Hw Hh. rewrite E, Hw. reflexivity. }
    eapply draws_weaken.
    + apply draws_when. intros _. apply draws_for_range. intros x Hx.
      apply draws_store. unfold in_grid. lia.
    + intros x' y' [Hx' Hy']. unfold scanline_region. rewrite E. cbv beta. split.
      * intros (Hlen & x & Hx & -> & ->). apply Z.leb_le in Hlen.
        split; [reflexivity|]. exists xs. split; [reflexivity|]. lia.
      * intros (-> & xs' & [= <-] & Hlen & Hx).
        split; [apply Z.leb_le; lia|]. exists x'. split; [lia | tauto].
  - left. intros bm _ _ _. rewrite E. reflexivity.
Qed.

Lemma fill_triangle_loop (p0 p1 p2 : point) (bm : Bitmap) :
  bm_w bm = w -> bm_h bm = h ->
  fill_triangle (p0, p1, p2) bm =
  for_range (Z.max 0 (Z.min (snd p0) (Z.min (snd p1) (snd p2))))
            (Z.min (h - 1) (Z.max (snd p0) (Z.max (snd p1) (snd p2))) + 1)
    (fun y bm =>
       xs ← intersections p0 p1 p2 y;
       when (2 <=? Z.of_nat (length xs))
         (for_range (Z.max 0 (min_list xs)) (Z.min (bm_w bm) (max_list xs + 1))
                    (fun x => store y x)) bm) bm.
Proof. intros Hw Hh. unfold fill_triangle. rewrite Hh. reflexivity. Qed.

Lemma scanlines_region (p0 p1 p2 : point) (x y : Z) :
  in_grid w h x y ->
  (exists y0,
     y0 ∈ range (Z.max 0 (Z.min (snd p0) (Z.min (snd p1) (snd p2))))
            (Z.min (h - 1) (Z.max (snd p0) (Z.max (snd p1) (snd p2))) + 1) /\
     scanline_region p0 p1 p2 y0 x y) <->
  region (Call_fill_triangle (p0, p1, p2)) x y.
Proof.
  intros [Hx Hy]. unfold scanline_region. cbn [region]. split.
  - intros (y0 & Hy0 & -> & Hxs). apply elem_of_range in Hy0. split; [lia | exact Hxs].
  - intros (Hy' & Hxs). exists y. split; [apply elem_of_range; lia|].
    split; [reflexivity | exact Hxs].
Qed.

Lemma paints_fill_triangle (p0 p1 p2 : point) :
  paints w h (fill_triangle (p0, p1, p2)) (region (Call_fill_triangle (p0, p1, p2))).
Proof.
  eapply paints_dims; [intros bm Hw Hh; apply fill_triangle_loop; assumption|].
  unfold for_range.
  destruct (paints_for_each
    (range (Z.max 0 (Z.min (snd p0) (Z.min (snd p1) (snd p2))))
           (Z.min (h - 1) (Z.max (snd p0) (Z.max (snd p1) (snd p2))) + 1))
    (fun y bm =>
       xs ← intersections p0 p1 p2 y;
       when (2 <=? Z.of_nat (length xs))
         (for_range (Z.max 0 (min_list xs)) (Z.min (bm_w bm) (max_list xs + 1))
                    (fun x => store y x)) bm)
    (scanline_region p0 p1 p2)) as [[Hr _] | [Hd _]].
  - intros y Hy. apply elem_of_range in Hy. apply paints_scanline. lia.
  - left. exact Hr.
  - right. eapply draws_weaken; [exact Hd|].
    intros x y Hg. apply scanlines_region. exact Hg.
Qed.

Lemma draws_fill_triangle (p0 p1 p2 : point) :
  call_fits (Call_fill_triangle (p0, p1, p2)) ->
  draws w h (fill_triangle (p0, p1, p2)) (region (Call_fill_triangle (p0, p1, p2))).
Proof.
  intros Hfits.
  eapply draws_dims; [intros bm Hw Hh; apply fill_triangle_loop; assumption|].
  eapply draws_weaken.
  - apply draws_for_range with (P := scanline_region p0 p1 p2). intros y Hy.
    destruct (paints_scanline p0 p1 p2 y ltac:(lia)) as [Hr|Hd]; [|exact Hd].
    exfalso. destruct (intersections_ok p0 p1 p2 y Hfits) as (xs & E).
    specialize (Hr (Bitmap_init w h) (wf_init w h) eq_refl eq_refl).
    cbv beta in Hr. rewrite E in Hr. cbn [mbind result_bind] in Hr.
    destruct (draws_when w h (2 <=? Z.of_nat (length xs))
                (for_range (Z.max 0 (min_list xs))
                   (Z.min (bm_w (Bitmap_init w h)) (max_list xs + 1))
                   (fun x => store y x))
                (fun x' y' => y' = y /\ Z.max 0 (min_list xs) <= x' < Z.min w (max_list xs + 1))
                ) with (bm := Bitmap_init w h) as (bm' & E' & _);
      [| apply wf_init | reflexivity | reflexivity | rewrite E' in Hr; discriminate].
    intros _. eapply draws_weaken.
    + apply draws_for_range. intros x Hx. apply draws_store.
      unfold in_grid. cbn [bm_w Bitmap_init] in Hx. lia.
    + intros x' y' _. cbn [bm_w Bitmap_init]. cbv beta. split.
      * intros (x & Hx & -> & ->). lia.
      * intros (-> & Hx). exists x'. split; [lia | tauto].
  - intros x y Hg. cbv beta. rewrite <- (scanlines_region p0 p1 p2 x y Hg).
    split; intros (y0 & Hy0 & H); exists y0; (split; [|exact H]).
    + apply elem_of_range. exact Hy0.
    + apply elem_of_range in Hy0. exact Hy0.
Qed.

(** Each method sets the pixels of its region that lie in the grid and no
    other, or raises because a float is out of range. *)
Lemma call_paints (d : draw_call) : paints w h (call d) (region d).
Proof.
  destruct d as [x y|x0 y0 x1 y1|y x0 x1|x y0 y1|density|cx cy r|cx cy r|[[p0 p1] p2]];
    cbn [call region].
  - right. apply draws_set.
  - right. apply draws_fill_rect.
  - right. apply draws_hline.
  - right. apply draws_vline.
  - right. apply draws_dither.
  - right. apply draws_fill_circle.
  - apply paints_outline_circle.
  - apply paints_fill_triangle.
Qed.

(** With arguments in the range of a float it returns. *)
Lemma call_draws (d : draw_call) : call_fits d -> draws w h (call d) (region d).
Proof.
  destruct d as [x y|x0 y0 x1 y1|y x0 x1|x y0 y1|density|cx cy r|cx cy r|[[p0 p1] p2]];
    intros Hfits; cbn [call region].
  - apply draws_set.
  - apply draws_fill_rect.
  - apply draws_hline.
  - apply draws_vline.
  - apply draws_dither.
  - apply draws_fill_circle.
  - apply draws_outline_circle. exact Hfits.
  - apply draws_fill_triangle. exact Hfits.
Qed.

Lemma painter_ext (c c' : cmd) :
  (forall bm, c bm = c' bm) -> painter w h c' -> painter w h c.
Proof.
  intros Heq Hc. eapply draws_painter, draws_dims; [|exact Hc].
  intros; apply Heq.
Qed.

Lemma painter_call (d : draw_call) : call_fits d -> painter w h (call d).
Proof. intros Hfits. eapply draws_painter, call_draws, Hfits. Qed.

Lemma painter_set (x y : Z) : painter w h (set x y).
Proof. apply (painter_call (Call_set x y)). exact I. Qed.

Lemma painter_fill_rect (x0 y0 x1 y1 : Z) : painter w h (fill_rect x0 y0 x1 y1).
Proof. apply (painter_call (Call_fill_rect x0 y0 x1 y1)). exact I. Qed.

Lemma painter_hline (y x0 x1 : Z) : painter w h (hline y x0 x1).
Proof. apply (painter_call (Call_hline y x0 x1)). exact I. Qed.

Lemma painter_vline (x y0 y1 : Z) : painter w h (vline x y0 y1).
Proof. apply (painter_call (Call_vline x y0 y1)). exact I. Qed.

Lemma painter_dither (density : Q) : painter w h (dither density).
Proof. apply (painter_call (Call_dither density)). exact I. Qed.

Lemma painter_fill_circle (cx cy r : Z) : painter w h (fill_circle cx cy r).
Proof. apply (painter_call (Call_fill_circle cx cy r)). exact I. Qed.

Lemma painter_outline_circle (cx cy r : Z) :
  float_ok r -> painter w h (outline_circle cx cy r).
Proof. apply (painter_call (Call_outline_circle cx cy r)). Qed.

Lemma painter_fill_triangle (pts : point * point * point) :
  call_fits (Call_fill_triangle pts) -> painter w h (fill_triangle pts).
Proof. apply (painter_call (Call_fill_triangle pts)). Qed.

Lemma painter_float_then {A : Type} (o : option A) (k : A -> cmd) :
  is_Some o -> (forall v, painter w h (k v)) -> painter w h (float_then o k).
Proof.
  intros [v ->] Hk. eapply painter_ext; [|apply (Hk v)]. intros bm. reflexivity.
Qed.

Lemma painter_skip : painter w h skip.
Proof. eapply draws_painter, draws_skip. Qed.

Lemma painter_seq (c1 c2 : cmd) :
  painter w h c1 -> painter w h c2 -> painter w h (c1 >> c2).
Proof. intros H1 H2. eapply draws_painter, draws_seq; eassumption. Qed.

Lemma painter_when (b : bool) (c : cmd) :
  (b = true -> painter w h c) -> painter w h (when b c).
Proof. intros Hc. eapply draws_painter, draws_when, Hc. Qed.

Lemma painter_for_each {A : Type} (l : list A) (body : A -> cmd) :
  (forall a, a ∈ l -> painter w h (body a)) -> painter w h (for_each l body).
Proof.
  intros Hbody. eapply draws_painter.
  apply draws_for_each with (P := fun a => painted w h (body a)). exact Hbody.
Qed.

Lemma painter_for_range (a b : Z) (body : Z -> cmd) :
  (forall i, a <= i < b -> painter w h (body i)) ->
  painter w h (for_range a b body).
Proof.
  intros Hbody. apply painter_for_each. intros i Hi.
  apply Hbody, elem_of_range, Hi.
Qed.

Lemma painter_for_range_step (a b step : Z) (body : Z -> cmd) :
  step <> 0 ->
  (forall i, painter w h (body i)) ->
  painter w h (for_range_step a b step body).
Proof.
  intros Hstep Hbody. unfold for_range_step, range_step.
  destruct (Z.eqb_spec step 0) as [|_]; [contradiction|].
  destruct (0 <? step); simpl;
    (eapply painter_ext; [intros bm; reflexivity|]);
    apply painter_for_each; intros; apply Hbody.
Qed.

Lemma painter_div_then (a b : Z) (k : Z -> cmd) :
  b <> 0 -> painter w h (k (a / b)) -> painter w h (div_then a b k).
Proof.
  intros Hb Hk. eapply painter_ext; [|exact Hk].
  intros bm. unfold div_then, floordiv.
  destruct (Z.eqb_spec b 0); [contradiction | reflexivity].
Qed.

Lemma painter_subscript (l : list Z) (i : Z) (k : Z -> cmd) :
  0 <= i < Z.of_nat (length l) ->
  (forall v, painter w h (k v)) ->
  painter w h (subscript l i k).
Proof.
  intros Hi Hk. destruct (l !! Z.to_nat i) as [v|] eqn:E.
  2:{ apply lookup_ge_None in E. lia. }
  eapply painter_ext; [|apply (Hk v)].
  intros bm. unfold subscript. rewrite py_index_ok by assumption. simpl.
  rewrite E. reflexivity.
Qed.

End Painters.

(** *** Commands that keep the shape of the bitmap *)

Section Keepers.
Context {FM : FloatModel}.

Lemma keeps_store (y x : Z) : keeps (store y x).
Proof.
  intros bm bm' [Hlen Hrows] E. unfold store in E.
  destruct (py_index (pixels bm) y) as [iy|e]; [|discriminate]. simpl in E.
  destruct (pixels bm !! iy) as [row|] eqn:Erow; [|discriminate].
  destruct (py_index row x) as [ix|e]; [|discriminate]. simpl in E.
  injection E as <-. split; [|split; reflexivity]. split; simpl.
  - rewrite length_insert. exact Hlen.
  - apply Forall_insert; [exact Hrows|]. rewrite length_insert.
    rewrite Forall_forall in Hrows. apply Hrows. eapply list_elem_of_lookup_2; eauto.
Qed.

Lemma keeps_skip : keeps skip.
Proof. intros bm bm' Hwf [= <-]. tauto. Qed.

Lemma keeps_seq (c1 c2 : cmd) : keeps c1 -> keeps c2 -> keeps (c1 >> c2).
Proof.
  intros H1 H2 bm bm' Hwf E. unfold seq_cmd in E.
  destruct (c1 bm) as [bm1|e] eqn:E1; [|discriminate]. simpl in E.
  destruct (H1 bm bm1 Hwf E1) as (Hwf1 & Hw1 & Hh1).
  destruct (H2 bm1 bm' Hwf1 E) as (Hwf2 & Hw2 & Hh2).
  split; [exact Hwf2|]. split; congruence.
Qed.

Lemma keeps_when (b : bool) (c : cmd) : keeps c -> keeps (when b c).
Proof. intros Hc. destruct b; [exact Hc | apply keeps_skip]. Qed.

Lemma keeps_for_each {A : Type} (l : list A) (body : A -> cmd) :
  (forall a, keeps (body a)) -> keeps (for_each l body).
Proof.
  intros Hbody. induction l as [|a l IH]; [apply keeps_skip|].
  apply (keeps_seq (body a) (for_each l body)); [apply Hbody | exact IH].
Qed.

Lemma keeps_for_range (a b : Z) (body : Z -> cmd) :
  (forall i, keeps (body i)) -> keeps (for_range a b body).
Proof. intros Hbody. apply keeps_for_each, Hbody. Qed.

Lemma keeps_bind {A : Type} (r : result A) (k : A -> cmd) :
  (forall v, keeps (k v)) -> keeps (fun bm => v ← r; k v bm).
Proof.
  intros Hk bm bm' Hwf E. destruct r as [v|e]; [|discriminate].
  exact (Hk v bm bm' Hwf E).
Qed.

Lemma keeps_for_range_step (a b step : Z) (body : Z -> cmd) :
  (forall i, keeps (body i)) -> keeps (for_range_step a b step body).
Proof.
  intros Hbody. unfold for_range_step.
  apply (keeps_bind (range_step a b step) (fun l => for_each l body)).
  intros l. apply keeps_for_each, Hbody.
Qed.

Lemma keeps_div_then (a b : Z) (k : Z -> cmd) :
  (forall q, keeps (k q)) -> keeps (div_then a b k).
Proof. intros Hk. unfold div_then. apply (keeps_bind (floordiv a b) k), Hk. Qed.

Lemma keeps_subscript (l : list Z) (i : Z) (k : Z -> cmd) :
  (forall v, keeps (k v)) -> keeps (subscript l i k).
Proof.
  intros Hk bm bm' Hwf E. unfold subscript in E.
  destruct (py_index l i) as [n|e]; [|discriminate]. simpl in E.
  destruct (l !! n) as [v|]; [|discriminate]. exact (Hk v bm bm' Hwf E).
Qed.

Lemma keeps_float_then {A : Type} (o : option A) (k : A -> cmd) :
  (forall v, keeps (k v)) -> keeps (float_then o k).
Proof.
  intros Hk bm bm' Hwf E. unfold float_then in E.
  destruct o as [v|]; [|discriminate]. exact (Hk v bm bm' Hwf E).
Qed.

(** A method reads the size of the bitmap it is called on. *)
Lemma keeps_self (c : Bitmap -> cmd) :
  (forall bm0, keeps (c bm0)) -> keeps (fun bm => c bm bm).
Proof. intros Hc bm bm' Hwf E. exact (Hc bm bm bm' Hwf E). Qed.

Lemma keeps_set (x y : Z) : keeps (set x y).
Proof.
  apply (keeps_self (fun bm0 =>
    when ((0 <=? x) && (x <? bm_w bm0) && ((0 <=? y) && (y <? bm_h bm0))) (store y x))).
  intros bm0. apply keeps_when, keeps_store.
Qed.

Lemma keeps_fill_rect (x0 y0 x1 y1 : Z) : keeps (fill_rect x0 y0 x1 y1).
Proof.
  apply (keeps_self (fun bm0 =>
    for_range (Z.max 0 y0) (Z.min (bm_h bm0) y1) (fun y =>
      for_range (Z.max 0 x0) (Z.min (bm_w bm0) x1) (fun x => store y x)))).
  intros bm0. apply keeps_for_range. intros y. apply keeps_for_range. intros x.
  apply keeps_store.
Qed.

Lemma keeps_hline (y x0 x1 : Z) : keeps (hline y x0 x1).
Proof.
  apply (keeps_self (fun bm0 =>
    for_range (Z.max 0 x0) (Z.min (bm_w bm0) x1) (fun x =>
      when ((0 <=? y) && (y <? bm_h bm0)) (store y x)))).
  intros bm0. apply keeps_for_range. intros x. apply keeps_when, keeps_store.
Qed.

Lemma keeps_vline (x y0 y1 : Z) : keeps (vline x y0 y1).
Proof.
  apply (keeps_self (fun bm0 =>
    for_range (Z.max 0 y0) (Z.min (bm_h bm0) y1) (fun y =>
      when ((0 <=? x) && (x <? bm_w bm0)) (store y x)))).
  intros bm0. apply keeps_for_range. intros y. apply keeps_when, keeps_store.
Qed.

Lemma keeps_dither (density : Q) : keeps (dither density).
Proof.
  intros bm bm' Hwf. unfold dither.
  apply keeps_for_range; [|exact Hwf]. intros y. apply keeps_for_range. intros x.
  repeat match goal with
  | |- keeps (if ?b then _ else _) => destruct b
  end; first [apply keeps_when, keeps_store | apply keeps_skip].
Qed.

Lemma keeps_fill_circle (cx cy r : Z) : keeps (fill_circle cx cy r).
Proof.
  intros bm bm' Hwf. unfold fill_circle.
  apply keeps_for_range; [|exact Hwf]. intros y. apply keeps_for_range. intros x.
  cbv zeta. apply keeps_when, keeps_store.
Qed.

Lemma keeps_outline_circle (cx cy r : Z) : keeps (outline_circle cx cy r).
Proof.
  intros bm bm' Hwf. unfold outline_circle.
  apply keeps_for_range; [|exact Hwf]. intros y. apply keeps_for_range. intros x.
  cbv zeta.
  apply (keeps_bind
    (le_times_1_5 (Z.abs ((x - cx) * (x - cx) + (y - cy) * (y - cy) - r * r)) r)
    (fun b => when b (store y x))).
  intros b. apply keeps_when, keeps_store.
Qed.

Lemma keeps_fill_triangle (pts : point * point * point) : keeps (fill_triangle pts).
Proof.
  destruct pts as [[p0 p1] p2]. intros bm bm' Hwf. unfold fill_triangle.
  apply keeps_for_range; [|exact Hwf]. intros y.
  apply (keeps_self (fun bm0 bm1 =>
    xs ← intersections p0 p1 p2 y;
    when (2 <=? Z.of_nat (length xs))
      (for_range (Z.max 0 (min_list xs)) (Z.min (bm_w bm0) (max_list xs + 1))
                 (fun x => store y x)) bm1)).
  intros bm0.
  apply (keeps_bind (intersections p0 p1 p2 y) (fun xs =>
    when (2 <=? Z.of_nat (length xs))
      (for_range (Z.max 0 (min_list xs)) (Z.min (bm_w bm0) (max_list xs + 1))
                 (fun x => store y x)))).
  intros xs. apply keeps_when, keeps_for_range. intros x. apply keeps_store.
Qed.

End Keepers.

(** The steps that decide [keeps] goals by the structure of the command. *)
Ltac keep :=
  cbv beta zeta;
  lazymatch goal with
  | |- keeps (_ >> _) => apply keeps_seq; keep
  | |- keeps (set _ _) => apply keeps_set
  | |- keeps (fill_rect _ _ _ _) => apply keeps_fill_rect
  | |- keeps (hline _ _ _) => apply keeps_hline
  | |- keeps (vline _ _ _) => apply keeps_vline
  | |- keeps (dither _) => apply keeps_dither
  | |- keeps (fill_circle _ _ _) => apply keeps_fill_circle
  | |- keeps (outline_circle _ _ _) => apply keeps_outline_circle
  | |- keeps (fill_triangle _) => apply keeps_fill_triangle
  | |- keeps skip => apply keeps_skip
  | |- keeps (when _ _) => apply keeps_when; keep
  | |- keeps (for_range _ _ _) => apply keeps_for_range; intros ?; keep
  | |- keeps (for_range_step _ _ _ _) => apply keeps_for_range_step; intros ?; keep
  | |- keeps (div_then _ _ _) => apply keeps_div_then; intros ?; keep
  | |- keeps (subscript _ _ _) => apply keeps_subscript; intros ?; keep
  | |- keeps (float_then _ _) => apply keeps_float_then; intros ?; keep
  | |- keeps (for_each _ _) => apply keeps_for_each; intros ?; keep
  | |- keeps (if ?b then _ else _) => destruct b; keep
  | |- keeps (match ?p with pair _ _ => _ end) => destruct p; keep
  end.

(** The steps that decide [painter] goals by the structure of the command.
    A cell within [cell_limit] keeps every float in range. *)
Ltac paint_side :=
  first
    [ lia
    | match goal with
      | |- context [negb (?r =? 0)] => destruct (Z.eqb_spec r 0); simpl; lia
      end ].

Ltac float_side :=
  pose proof float_bound_large;
  unfold cell_fits, cell_limit in *;
  lazymatch goal with
  | |- float_ok _ => apply float_ok_small
  | |- call_fits _ => cbn [call_fits fst]
  | |- is_Some (polar _ _ _ _) => apply polar_returns
  end;
  repeat apply conj; Z.div_mod_to_equations; lia.

Ltac paint :=
  cbv beta zeta;
  lazymatch goal with
  | |- painter _ _ (_ >> _) => apply painter_seq; paint
  | |- painter _ _ (set _ _) => apply painter_set
  | |- painter _ _ (fill_rect _ _ _ _) => apply painter_fill_rect
  | |- painter _ _ (hline _ _ _) => apply painter_hline
  | |- painter _ _ (vline _ _ _) => apply painter_vline
  | |- painter _ _ (dither _) => apply painter_dither
  | |- painter _ _ (fill_circle _ _ _) => apply painter_fill_circle
  | |- painter _ _ (outline_circle _ _ _) => apply painter_outline_circle; float_side
  | |- painter _ _ (fill_triangle _) => apply painter_fill_triangle; float_side
  | |- painter _ _ (float_then _ _) =>
      apply painter_float_then; [float_side | intros ?; paint]
  | |- painter _ _ skip => apply painter_skip
  | |- painter _ _ (when _ _) => apply painter_when; intros ?; paint
  | |- painter _ _ (for_range _ _ _) => apply painter_for_range; intros ? ?; paint
  | |- painter _ _ (for_range_step _ _ _ _) =>
      apply painter_for_range_step; [paint_side | intros ?; paint]
  | |- painter _ _ (div_then _ _ _) => apply painter_div_then; [paint_side | paint]
  | |- painter _ _ (subscript _ _ _) =>
      apply painter_subscript;
        [rewrite ?length_fmap, ?length_range; simpl; lia | intros ?; paint]
  | |- painter _ _ (for_each _ _) =>
      apply painter_for_each; intros ? ?; paint
  | |- painter _ _ (if ?b then _ else _) => destruct b; paint
  | |- painter _ _ (match ?p with pair _ _ => _ end) => destruct p; paint
  end.

Section Render.
Context {FM : FloatModel}.

(** In a cell within [cell_limit] every branch of [render_glyph] is a
    painter: whatever the code point, no subscript leaves its list, no
    division is by zero, no [range] has step 0 and no float is out of
    range. *)
Lemma glyph_cmd_painter (unicode_cp w h : Z) :
  cell_fits w h -> painter w h (glyph_cmd unicode_cp w h).
Proof.
  intros Hfits. unfold glyph_cmd. cbv zeta.
  repeat lazymatch goal with
  | |- painter _ _ (if ?b then _ else _) =>
      destruct b; [first [solve [paint] | shelve] | ]
  end.
  { paint. }
  Unshelve.
  (* the Braille branch: the eight entries of dot_map, one by one *)
  apply painter_for_each. intros [[row col] bit] Hin.
  repeat (apply elem_of_cons in Hin as [[= -> -> ->] | Hin]);
    [paint .. | by apply elem_of_nil in Hin].
Qed.

(** Whatever the cell size, a glyph that is returned has the shape of the
    cell. *)
Lemma glyph_cmd_keeps (unicode_cp w h : Z) : keeps (glyph_cmd unicode_cp w h).
Proof.
  unfold glyph_cmd. cbv zeta.
  repeat lazymatch goal with
  | |- keeps (if ?b then _ else _) => destruct b; [solve [keep] | ]
  end.
  keep.
Qed.

End Render.

(** ** Braille *)

Lemma land_bit_test (p bit : Z) :
  0 <= bit -> negb (Z.land p (Z.shiftl 1 bit) =? 0) = Z.testbit p bit.
Proof.
  intros Hbit. rewrite Z.shiftl_1_l.
  assert (E : Z.land p (2 ^ bit) = if Z.testbit p bit then 2 ^ bit else 0).
  { apply Z.bits_inj'. intros n Hn. rewrite Z.land_spec, Z.pow2_bits_eqb by assumption.
    destruct (Z.eqb_spec bit n) as [->|Hne].
    - rewrite andb_true_r. destruct (Z.testbit p n) eqn:E.
      + rewrite Z.pow2_bits_true by assumption. reflexivity.
      + rewrite Z.bits_0. reflexivity.
    - rewrite andb_false_r. destruct (Z.testbit p bit).
      + rewrite Z.pow2_bits_false by assumption. reflexivity.
      + rewrite Z.bits_0. reflexivity. }
  rewrite E. destruct (Z.testbit p bit).
  - assert (0 < 2 ^ bit) by (apply Z.pow_pos_nonneg; lia).
    destruct (Z.eqb_spec (2 ^ bit) 0); [lia | reflexivity].
  - reflexivity.
Qed.

Lemma outside_disk (a b r : Z) :
  0 <= r -> r < Z.abs a \/ r < Z.abs b -> ~ (a * a + b * b <= r * r).
Proof. intros Hr [H|H]; nia. Qed.

Section Braille.
Context {FM : FloatModel}.

(** Inside the Braille range the chain of [render_glyph] reaches the loop
    over [dot_map]. *)
Lemma glyph_cmd_braille (unicode_cp w h : Z) :
  0x2800 <= unicode_cp <= 0x28FF ->
  glyph_cmd unicode_cp w h =
  for_each [(0, 0, 0); (1, 0, 1); (2, 0, 2); (0, 1, 3); (1, 1, 4); (2, 1, 5);
            (3, 0, 6); (3, 1, 7)]
    (fun '(row, col, bit) =>
       when (negb (Z.land (unicode_cp - 0x2800) (Z.shiftl 1 bit) =? 0))
         (subscript [w / 3; w * 2 / 3] col (fun x =>
          subscript ((fun i => h * (i + 1) / 5) <$> range 0 4) row (fun y =>
            fill_circle x y (Z.max 1 (Z.min w h / 8)))))).
Proof.
  intros Hcp. unfold glyph_cmd. cbv zeta.
  repeat lazymatch goal with
  | |- (if ?a =? ?k then _ else _) = _ =>
      destruct (Z.eqb_spec a k) as [E|_]; [exfalso; clear -E Hcp; lia|]
  end.
  destruct (Z.leb_spec 0x2800 unicode_cp); [|lia].
  destruct (Z.leb_spec unicode_cp 0x28FF); [|lia].
  reflexivity.
Qed.

(** One entry of [dot_map]: the dot is drawn when its bit is set. *)
Lemma draws_braille_entry (w h pattern row col bit : Z) :
  0 <= bit -> 0 <= col < 2 -> 0 <= row < 4 ->
  draws w h
    (when (negb (Z.land pattern (Z.shiftl 1 bit) =? 0))
       (subscript [w / 3; w * 2 / 3] col (fun x =>
        subscript ((fun i => h * (i + 1) / 5) <$> range 0 4) row (fun y =>
          fill_circle x y (Z.max 1 (Z.min w h / 8))))))
    (fun x y => Z.testbit pattern bit = true /\
       in_disk (if col =? 0 then w / 3 else w * 2 / 3, h * (row + 1) / 5)
               (braille_radius w h) x y).
Proof.
  intros Hbit Hcol Hrow. rewrite land_bit_test by assumption.
  eapply draws_weaken.
  - apply draws_when. intros _.
    eapply draws_dims with
      (c' := fill_circle (if col =? 0 then w / 3 else w * 2 / 3)
               (h * (row + 1) / 5) (Z.max 1 (Z.min w h / 8))).
    2: apply draws_fill_circle.
    intros bm _ _. unfold subscript.
    assert (Ec : col = 0 \/ col = 1) by lia.
    assert (Er : row = 0 \/ row = 1 \/ row = 2 \/ row = 3) by lia.
    destruct Ec as [-> | ->], Er as [-> | [-> | [-> | ->]]]; reflexivity.
  - intros x y _. unfold in_disk, braille_radius. simpl. tauto.
Qed.

(** The pixels of a rendered Braille pattern: the disks of the dots whose
    bit is set, clipped to the cell. *)
Lemma render_braille (unicode_cp w h : Z) :
  0x2800 <= unicode_cp <= 0x28FF ->
  exists bm, render_glyph unicode_cp w h = Ok bm /\
    forall x y,
      (px bm x y = 0 \/ px bm x y = 1) /\
      (px bm x y = 1 <->
       in_grid w h x y /\
       exists bit, 0 <= bit < 8 /\ Z.testbit (unicode_cp - 0x2800) bit = true /\
         in_disk (braille_centre w h bit) (braille_radius w h) x y).
Proof.
  intros Hcp. unfold render_glyph. rewrite glyph_cmd_braille by assumption.
  set (dot_map := [(0, 0, 0); (1, 0, 1); (2, 0, 2); (0, 1, 3); (1, 1, 4);
                   (2, 1, 5); (3, 0, 6); (3, 1, 7)]).
  set (P := fun (e : Z * Z * Z) (x y : Z) =>
       let '(row, col, bit) := e in
       Z.testbit (unicode_cp - 0x2800) bit = true /\
       in_disk (if col =? 0 then w / 3 else w * 2 / 3, h * (row + 1) / 5)
               (braille_radius w h) x y).
  match goal with |- context [for_each dot_map ?body] =>
    destruct (draws_for_each w h dot_map body P) with (bm := Bitmap_init w h)
      as (bm & E & _ & _ & _ & Hpx); try reflexivity; [|apply wf_init|]
  end.
  { intros [[row col] bit] Hin. subst dot_map P.
    repeat (apply elem_of_cons in Hin as [[= -> -> ->] | Hin]);
      [apply draws_braille_entry; lia .. | by apply elem_of_nil in Hin]. }
  exists bm. split; [exact E|]. intros x y.
  assert (Hshape :
    (exists e, e ∈ dot_map /\ P e x y) <->
    (exists bit, 0 <= bit < 8 /\ Z.testbit (unicode_cp - 0x2800) bit = true /\
       in_disk (braille_centre w h bit) (braille_radius w h) x y)).
  { subst dot_map P. split.
    - intros ([[row col] bit] & Hin & Ht & Hd).
      exists bit.
      repeat (apply elem_of_cons in Hin as [[= -> -> ->] | Hin]);
        [split; [lia|]; split; [exact Ht | exact Hd] .. | by apply elem_of_nil in Hin].
    - intros (bit & Hbit & Ht & Hd).
      assert (Eb : bit = 0 \/ bit = 1 \/ bit = 2 \/ bit = 3 \/ bit = 4 \/
                   bit = 5 \/ bit = 6 \/ bit = 7) by lia.
      destruct Eb as [-> | [-> | [-> | [-> | [-> | [-> | [-> | ->]]]]]]].
      + exists (0, 0, 0). split; [repeat constructor | split; assumption].
      + exists (1, 0, 1). split; [repeat constructor | split; assumption].
      + exists (2, 0, 2). split; [repeat constructor | split; assumption].
      + exists (0, 1, 3). split; [repeat constructor | split; assumption].
      + exists (1, 1, 4). split; [repeat constructor | split; assumption].
      + exists (2, 1, 5). split; [repeat constructor | split; assumption].
      + exists (3, 0, 6). split; [repeat constructor | split; assumption].
      + exists (3, 1, 7). split; [repeat constructor | split; assumption]. }
  rewrite <- Hshape. destruct (Hpx x y) as [(Hg & HP & H1) | [Hn H0]].
  - tauto.
  - rewrite H0, px_init. split; [tauto|]. split; [discriminate | tauto].
Qed.

End Braille.

(** ** The glyph tables *)

Lemma dict_get_elem_of (d : dict) (k v : Z) :
  dict_get d k = Some v -> (k, v) ∈ d.
Proof.
  induction d as [|[k' v'] d IH]; simpl; [discriminate|].
  destruct (Z.eqb_spec k' k) as [->|_].
  - intros [= ->]. left.
  - intros H. right. apply IH, H.
Qed.

Lemma glyph_codes_distinct : NoDup (snd <$> GLYPH_MAP).
Proof. apply (bool_decide_unpack _). by vm_compute. Qed.

Lemma glyph_codes_in_range :
  Forall (fun kv : Z * Z => 0x20 <= snd kv <= 0xAD) GLYPH_MAP.
Proof. apply (bool_decide_unpack _). by vm_compute. Qed.

Lemma code_to_unicode_sound :
  Forall (fun cu : Z * Z => dict_get GLYPH_MAP (snd cu) = Some (fst cu)) CODE_TO_UNICODE.
Proof. apply (bool_decide_unpack _). by vm_compute. Qed.

Lemma code_to_unicode_complete :
  Forall (fun uc : Z * Z => dict_get CODE_TO_UNICODE (snd uc) = Some (fst uc)) GLYPH_MAP.
Proof. apply (bool_decide_unpack _). by vm_compute. Qed.

Lemma NoDup_snd_inj (d : dict) (k1 k2 v : Z) :
  NoDup (snd <$> d) -> (k1, v) ∈ d -> (k2, v) ∈ d -> k1 = k2.
Proof.
  induction d as [|[k v'] d IH]; intros Hnd H1 H2; [inversion H1|].
  simpl in Hnd. apply NoDup_cons in Hnd as [Hnotin Hnd].
  apply elem_of_cons in H1 as [E1 | H1]; apply elem_of_cons in H2 as [E2 | H2].
  - congruence.
  - exfalso. apply Hnotin. injection E1 as _ <-.
    apply (list_elem_of_fmap_2 snd _ _ H2).
  - exfalso. apply Hnotin. injection E2 as _ <-.
    apply (list_elem_of_fmap_2 snd _ _ H1).
  - apply IH; assumption.
Qed.

Lemma code_to_unicode_spec (c u : Z) :
  dict_get CODE_TO_UNICODE c = Some u <-> dict_get GLYPH_MAP u = Some c.
Proof.
  split; intros H; apply dict_get_elem_of in H.
  - pose proof code_to_unicode_sound as Hs. rewrite Forall_forall in Hs.
    apply (Hs (c, u) H).
  - pose proof code_to_unicode_complete as Hs. rewrite Forall_forall in Hs.
    apply (Hs (u, c) H).
Qed.

Lemma glyph_map_inj (u1 u2 c : Z) :
  dict_get GLYPH_MAP u1 = Some c -> dict_get GLYPH_MAP u2 = Some c -> u1 = u2.
Proof.
  intros H1 H2. apply dict_get_elem_of in H1, H2.
  exact (NoDup_snd_inj _ _ _ _ glyph_codes_distinct H1 H2).
Qed.

(** ** Loops that collect a list *)

Lemma for_each_ext {A S : Type} (l : list A) (body body' : A -> S -> result S) (s : S) :
  (forall a s0, a ∈ l -> body a s0 = body' a s0) ->
  for_each l body s = for_each l body' s.
Proof.
  revert s. induction l as [|a l IH]; intros s Hext; simpl; [reflexivity|].
  rewrite (Hext a s) by left. destruct (body' a s) as [s'|e]; simpl; [|reflexivity].
  apply IH. intros; apply Hext. by right.
Qed.

Lemma for_each_collect {A B : Type} (f : A -> result B) (Q : A -> B -> Prop)
    (l : list A) (acc : list B) :
  (forall a, a ∈ l -> exists b, f a = Ok b /\ Q a b) ->
  exists bs,
    for_each l (fun a acc => b ← f a; Ok (acc ++ [b])) acc = Ok (acc ++ bs) /\
    Forall2 Q l bs.
Proof.
  revert acc. induction l as [|a l IH]; intros acc Hf; simpl.
  - exists []. rewrite app_nil_r. split; [reflexivity | constructor].
  - destruct (Hf a) as (b & Eb & Hb); [left|]. rewrite Eb. simpl.
    destruct (IH (acc ++ [b])) as (bs & E & HQ).
    { intros; apply Hf. by right. }
    exists (b :: bs). rewrite E, <- app_assoc. split; [reflexivity|].
    constructor; assumption.
Qed.

(** What such a loop has collected when it returns. *)
Lemma for_each_collected {A B : Type} (f : A -> result B) (l : list A)
    (acc res : list B) :
  for_each l (fun a acc => b ← f a; Ok (acc ++ [b])) acc = Ok res ->
  exists bs, res = acc ++ bs /\ Forall2 (fun a b => f a = Ok b) l bs.
Proof.
  revert acc. induction l as [|a l IH]; intros acc E; simpl in E.
  - injection E as <-. exists []. rewrite app_nil_r. split; [reflexivity | constructor].
  - destruct (f a) as [b|e] eqn:Eb; [|discriminate]. simpl in E.
    destruct (IH _ E) as (bs & -> & HQ). exists (b :: bs).
    rewrite <- app_assoc. split; [reflexivity|]. constructor; assumption.
Qed.

Lemma Ok_inj {A : Type} (a b : A) : Ok a = Ok b -> a = b.
Proof. intros [= ->]. reflexivity. Qed.

Lemma elem_of_enumerate {A : Type} (l : list A) (i : Z) (x : A) :
  (i, x) ∈ enumerate l -> 0 <= i < Z.of_nat (length l) /\ l !! Z.to_nat i = Some x.
Proof.
  unfold enumerate. intros H. apply elem_of_lookup_imap_1 in H as (n & y & [= -> ->] & Hn).
  rewrite Nat2Z.id. split; [|exact Hn]. apply lookup_lt_Some in Hn. lia.
Qed.

Lemma length_concat_uniform {A : Type} (ls : list (list A)) (n : nat) :
  Forall (fun l => length l = n) ls -> length (concat ls) = (length ls * n)%nat.
Proof.
  induction 1 as [|l ls Hl _ IH]; simpl; [reflexivity|].
  rewrite length_app, IH, Hl. reflexivity.
Qed.

(** ** Hexadecimal text *)

Lemma hex_digits_length_le (fuel : nat) (n : Z) (acc : list ascii) (k : nat) :
  0 <= n < 16 ^ Z.of_nat k -> (1 <= k)%nat ->
  (length (hex_digits fuel n acc) <= k + length acc)%nat.
Proof.
  revert n acc k. induction fuel as [|fuel IH]; intros n acc k Hn Hk; simpl; [lia|].
  destruct (Z.ltb_spec n 16) as [Hlt|Hge]; simpl; [lia|].
  destruct k as [|[|k]]; [lia | simpl in Hn; lia |].
  specialize (IH (n / 16) (hex_digit (n mod 16) :: acc) (S k)).
  simpl length in IH.
  assert (0 <= n / 16 < 16 ^ Z.of_nat (S k)).
  { replace (Z.of_nat (S (S k))) with (Z.succ (Z.of_nat (S k))) in Hn by lia.
    rewrite Z.pow_succ_r in Hn by lia.
    split; [apply Z.div_pos; lia | apply Z.div_lt_upper_bound; lia]. }
  specialize (IH ltac:(assumption) ltac:(lia)). lia.
Qed.

Lemma format_X_length (width : nat) (v : Z) :
  0 <= v < 16 ^ Z.of_nat width -> (1 <= width)%nat ->
  length (format_X width v) = width.
Proof.
  intros Hv Hw. unfold format_X.
  destruct (Z.ltb_spec v 0) as [|_]; [lia|].
  rewrite Z.abs_eq by lia.
  pose proof (hex_digits_length_le (S (Z.to_nat (Z.log2 v))) v [] width Hv Hw) as Hle.
  change (length (@nil ascii)) with 0%nat in Hle.
  cbv zeta. rewrite length_app, length_replicate. lia.
Qed.

Lemma format_X_2_length (b : Z) : 0 <= b < 256 -> length (format_X 2 b) = 2%nat.
Proof. intros Hb. apply format_X_length; [exact Hb | lia]. Qed.

Lemma format_X_4_length (v : Z) : 0 <= v < 65536 -> length (format_X 4 v) = 4%nat.
Proof. intros Hv. apply format_X_length; [exact Hv | lia]. Qed.

Lemma land_FFFF_bounds (v : Z) : 0 <= Z.land v 0xFFFF < 65536.
Proof.
  change 0xFFFF with (Z.ones 16). rewrite Z.land_ones by lia.
  apply Z.mod_pos_bound. reflexivity.
Qed.

Lemma land_FFFF_id (v : Z) : 0 <= v < 65536 -> Z.land v 0xFFFF = v.
Proof.
  intros Hv. change 0xFFFF with (Z.ones 16). rewrite Z.land_ones by lia.
  apply Z.mod_small. exact Hv.
Qed.

Lemma lor_byte (a b : Z) : 0 <= a < 256 -> 0 <= b < 256 -> 0 <= Z.lor a b < 256.
Proof.
  intros Ha Hb. change 256 with (2 ^ 8) in *.
  assert (0 <= Z.lor a b) by (apply Z.lor_nonneg; lia).
  apply Z.bounded_iff_bits_nonneg'; [lia | assumption |].
  intros l Hl. rewrite Z.lor_spec.
  rewrite (proj1 (Z.bounded_iff_bits_nonneg' 8 a ltac:(lia) ltac:(lia)) Ha l Hl).
  rewrite (proj1 (Z.bounded_iff_bits_nonneg' 8 b ltac:(lia) ltac:(lia)) Hb l Hl).
  reflexivity.
Qed.

(** ** pack_nfnt *)

Lemma bind_Ok {A B : Type} (a : A) (f : A -> result B) : (Ok a ≫= f) = f a.
Proof. reflexivity. Qed.

Lemma bind_Raise {A B : Type} (e : error) (f : A -> result B) :
  (Raise e ≫= f) = Raise e.
Proof. reflexivity. Qed.

Lemma read_px_ok (bm : Bitmap) (x y : Z) :
  wf bm -> in_grid (bm_w bm) (bm_h bm) x y -> exists v, read_px bm y x = Ok v.
Proof.
  intros [Hlen Hrows] [Hx Hy]. unfold read_px.
  rewrite py_index_ok by lia. simpl.
  destruct (pixels bm !! Z.to_nat y) as [row|] eqn:Erow.
  2:{ apply lookup_ge_None in Erow. lia. }
  assert (Hrow : length row = Z.to_nat (bm_w bm)).
  { rewrite Forall_forall in Hrows. apply Hrows. eapply list_elem_of_lookup_2; eauto. }
  unfold list_read. rewrite py_index_ok by lia. simpl.
  destruct (row !! Z.to_nat x) as [v|] eqn:Ev; [eauto|].
  apply lookup_ge_None in Ev. lia.
Qed.

Section EncoderFacts.
Context {FM : FloatModel}.

Lemma render_glyph_ok (unicode_cp w h : Z) :
  cell_fits w h ->
  exists g, render_glyph unicode_cp w h = Ok g /\ cell_bitmap w h g.
Proof.
  intros Hfits.
  destruct (glyph_cmd_painter unicode_cp w h Hfits (Bitmap_init w h) (wf_init w h)
              eq_refl eq_refl) as (g & E & Hwf & Hw & Hh & _).
  exists g. split; [exact E|]. split; [assumption | split; assumption].
Qed.

(** A glyph that is returned is a bitmap of the cell, whatever the cell. *)
Lemma render_glyph_returned (unicode_cp w h : Z) (g : Bitmap) :
  render_glyph unicode_cp w h = Ok g -> cell_bitmap w h g.
Proof.
  intros E.
  destruct (glyph_cmd_keeps unicode_cp w h (Bitmap_init w h) g (wf_init w h) E)
    as (Hwf & Hw & Hh).
  split; [exact Hwf | split; assumption].
Qed.

(** The glyph of one character code: drawn, or blank when the code has no
    symbol. *)
Lemma glyph_bitmaps_of_loop (cw ch : Z) :
  glyph_bitmaps_of cw ch =
  for_each (range FIRST_CHAR (LAST_CHAR + 1)) (fun code acc =>
    b ← match dict_get CODE_TO_UNICODE code with
        | Some ucp => render_glyph ucp cw ch
        | None => Ok (Bitmap_init cw ch)
        end;
    Ok (acc ++ [b])) [].
Proof.
  unfold glyph_bitmaps_of. apply for_each_ext. intros code acc _.
  destruct (dict_get CODE_TO_UNICODE code); reflexivity.
Qed.

Lemma glyph_bitmaps_of_ok (cw ch : Z) :
  cell_fits cw ch -> exists gl, glyph_bitmaps_of cw ch = Ok gl.
Proof.
  intros Hfits. rewrite glyph_bitmaps_of_loop.
  destruct (for_each_collect
              (fun code => match dict_get CODE_TO_UNICODE code with
                           | Some ucp => render_glyph ucp cw ch
                           | None => Ok (Bitmap_init cw ch)
                           end)
              (fun _ _ => True)
              (range FIRST_CHAR (LAST_CHAR + 1)) []) as (gl & E & _).
  { intros code _. destruct (dict_get CODE_TO_UNICODE code) as [ucp|].
    - destruct (render_glyph_ok ucp cw ch Hfits) as (g & Eg & _). eauto.
    - eauto. }
  exists gl. exact E.
Qed.

(** The glyph list that is returned, slot by slot. *)
Lemma glyph_bitmaps_of_returned (cw ch : Z) (gl : list Bitmap) :
  glyph_bitmaps_of cw ch = Ok gl ->
  Z.of_nat (length gl) = num_chars /\ Forall (cell_bitmap cw ch) gl /\
  forall code, FIRST_CHAR <= code <= LAST_CHAR ->
    exists bm, gl !! Z.to_nat (code - FIRST_CHAR) = Some bm /\
      match dict_get CODE_TO_UNICODE code with
      | Some ucp => render_glyph ucp cw ch = Ok bm
      | None => bm = Bitmap_init cw ch
      end.
Proof.
  rewrite glyph_bitmaps_of_loop. intros E.
  apply for_each_collected in E as (bs & -> & HQ). cbn [app].
  split; [|split].
  - rewrite <- (Forall2_length _ _ _ HQ), length_range. reflexivity.
  - clear -HQ. induction HQ as [|code b codes bs Hb _ IH]; constructor; [|exact IH].
    destruct (dict_get CODE_TO_UNICODE code) as [ucp|].
    + eapply render_glyph_returned, Hb.
    + injection Hb as <-. split; [apply wf_init | split; reflexivity].
  - intros code Hcode.
    assert (Hl : range FIRST_CHAR (LAST_CHAR + 1) !! Z.to_nat (code - FIRST_CHAR) = Some code).
    { unfold range. rewrite lookup_seqZ. split; [lia|]. unfold FIRST_CHAR, LAST_CHAR in *. lia. }
    destruct (Forall2_lookup_l _ _ _ _ _ HQ Hl) as (bm & Hbm & Hf).
    exists bm. split; [exact Hbm|].
    destruct (dict_get CODE_TO_UNICODE code); [exact Hf | congruence].
Qed.

Lemma missing_glyph_ok (cw ch : Z) :
  exists m, missing_glyph cw ch = Ok m /\ cell_bitmap cw ch m.
Proof.
  unfold missing_glyph.
  assert (Hp : painter cw ch
            (fill_rect 0 0 cw 1 >> fill_rect 0 (ch - 1) cw ch >>
             fill_rect 0 0 1 ch >> fill_rect (cw - 1) 0 cw ch)) by paint.
  destruct (Hp (Bitmap_init cw ch) (wf_init cw ch) eq_refl eq_refl)
    as (m & E & Hwf & Hw & Hh & _).
  exists m. split; [exact E|]. split; [assumption | split; assumption].
Qed.

Lemma strike_row_ok (gl : list Bitmap) (cw ch row_bits y : Z) :
  Forall (cell_bitmap cw ch) gl ->
  Z.of_nat (length gl) * cw <= row_bits ->
  0 <= y ->
  exists row, strike_row gl cw row_bits y = Ok row /\
    length row = Z.to_nat row_bits.
Proof.
  intros Hgl Hbits Hy. unfold strike_row.
  apply (for_each_inv (fun row => length row = Z.to_nat row_bits)).
  { apply length_replicate. }
  intros [gi bm] row Hin Hrow.
  apply elem_of_enumerate in Hin as [Hgi Hbm].
  assert (Hcell : cell_bitmap cw ch bm).
  { rewrite Forall_forall in Hgl. apply Hgl. eapply list_elem_of_lookup_2; eauto. }
  destruct Hcell as (Hwf & Hw & Hh).
  apply (for_each_inv (fun row => length row = Z.to_nat row_bits)); [exact Hrow|].
  intros x row' Hx Hrow'. apply elem_of_range in Hx.
  destruct ((y <? bm_h bm) && (x <? bm_w bm)) eqn:Ein; [|eauto].
  apply andb_true_iff in Ein as [Hyh Hxw]. apply Z.ltb_lt in Hyh, Hxw.
  destruct (read_px_ok bm x y Hwf) as (v & ->); [unfold in_grid; lia|]. simpl.
  destruct (v =? 0); [eauto|].
  unfold list_store. rewrite py_index_ok by nia. simpl.
  eexists. split; [reflexivity|]. rewrite length_insert. exact Hrow'.
Qed.

Lemma pack_row_ok (row : list Z) (rw : Z) :
  exists row_bytes, pack_row row (rw * 16) = Ok row_bytes /\
    length row_bytes = Z.to_nat (rw * 2) /\
    Forall (fun b => 0 <= b < 256) row_bytes.
Proof.
  unfold pack_row, range_step. simpl.
  set (starts := (fun k => 0 + Z.of_nat k * 8) <$> seq 0 (Z.to_nat ((rw * 16 - 0 + 8 - 1) / 8))).
  destruct (for_each_collect
    (fun i => for_each (range 0 8) (fun bit byte =>
       if i + bit <? Z.of_nat (length row) then
         v ← list_read row (i + bit);
         if v =? 0 then Ok byte else Ok (Z.lor byte (Z.shiftr 0x80 bit))
       else Ok byte) 0)
    (fun _ b => 0 <= b < 256) starts []) as (bytes & E & HQ).
  { intros i Hi. apply list_elem_of_fmap in Hi as (k & -> & _).
    apply (for_each_inv (fun byte => 0 <= byte < 256)); [lia|].
    intros bit byte Hbit Hbyte. apply elem_of_range in Hbit.
    destruct (Z.ltb_spec (0 + Z.of_nat k * 8 + bit) (Z.of_nat (length row))) as [Hlt|_];
      [|eauto].
    unfold list_read. rewrite py_index_ok by lia. simpl.
    destruct (row !! _) as [v|] eqn:Ev.
    2:{ apply lookup_ge_None in Ev. lia. }
    simpl. destruct (v =? 0); [eauto|]. eexists. split; [reflexivity|].
    apply lor_byte; [exact Hbyte|].
    assert (Eb : bit = 0 \/ bit = 1 \/ bit = 2 \/ bit = 3 \/ bit = 4 \/
                 bit = 5 \/ bit = 6 \/ bit = 7) by lia.
    destruct Eb as [-> | [-> | [-> | [-> | [-> | [-> | [-> | ->]]]]]]];
      vm_compute; split; congruence. }
  exists bytes. split; [exact E|]. split.
  - rewrite <- (Forall2_length _ _ _ HQ). unfold starts.
    rewrite length_fmap, length_seq. f_equal.
    pose proof (Z.div_mod (rw * 16 - 0 + 8 - 1) 8).
    pose proof (Z.mod_pos_bound (rw * 16 - 0 + 8 - 1) 8). lia.
  - clear E. induction HQ; constructor; assumption.
Qed.

(** [pack_nfnt] returns once the glyphs are drawn; its result, field by
    field. *)
Lemma pack_nfnt_from (pt cw ch asc dsc lead : Z) (gl : list Bitmap) :
  glyph_bitmaps_of cw ch = Ok gl ->
  exists data, pack_nfnt pt cw ch asc dsc lead = Ok data /\ packed cw ch asc dsc lead data.
Proof.
  intros Egl. unfold pack_nfnt, packed. fold num_chars. cbv zeta.
  set (rw := ((num_chars + 1) * cw + 15) / 16).
  destruct (glyph_bitmaps_of_returned cw ch gl Egl) as (Hlen & Hgl & _).
  rewrite Egl, bind_Ok.
  destruct (missing_glyph_ok cw ch) as (m & -> & Hm). rewrite bind_Ok.
  assert (Hall : Forall (cell_bitmap cw ch) (gl ++ [m])).
  { apply Forall_app. split; [exact Hgl | constructor; [exact Hm | constructor]]. }
  assert (Hbits : Z.of_nat (length (gl ++ [m])) * cw <= rw * 16).
  { rewrite length_app. simpl length. rewrite Nat2Z.inj_add, Hlen. subst rw.
    pose proof (Z.div_mod ((num_chars + 1) * cw + 15) 16).
    pose proof (Z.mod_pos_bound ((num_chars + 1) * cw + 15) 16). lia. }
  destruct (for_each_collect (fun y => strike_row (gl ++ [m]) cw (rw * 16) y)
              (fun _ row => length row = Z.to_nat (rw * 16)) (range 0 ch) [])
    as (rows & -> & Hrows).
  { intros y Hy. apply elem_of_range in Hy.
    apply (strike_row_ok _ cw ch); [exact Hall | exact Hbits | lia]. }
  rewrite bind_Ok. change ([] ++ rows) with rows.
  pose (f := fun row : list Z =>
    row_bytes ← pack_row row (rw * 16); Ok (concat (format_X 2 <$> row_bytes))).
  rewrite (for_each_ext _ _ (fun row acc => b ← f row; Ok (acc ++ [b]))).
  2:{ intros row acc _. unfold f. destruct (pack_row row (rw * 16)); reflexivity. }
  destruct (for_each_collect f
              (fun _ hex => length hex = Z.to_nat (rw * 4)) rows [])
    as (strike & -> & Hstrike).
  { intros row _. unfold f. destruct (pack_row_ok row rw) as (bytes & -> & Hn & Hb).
    rewrite bind_Ok. eexists. split; [reflexivity|].
    rewrite (length_concat_uniform _ 2).
    - rewrite length_fmap, Hn. lia.
    - apply Forall_fmap. eapply Forall_impl; [exact Hb|].
      intros b Hb'. apply format_X_2_length, Hb'. }
  rewrite bind_Ok. eexists. split; [reflexivity|].
  exists strike. split; [reflexivity|]. split.
  - rewrite <- (Forall2_length _ _ _ Hstrike), <- (Forall2_length _ _ _ Hrows).
    rewrite length_range. f_equal. lia.
  - clear -Hstrike. induction Hstrike; constructor; assumption.
Qed.

(** It returns for every cell within [cell_limit]. *)
Lemma pack_nfnt_ok (pt cw ch asc dsc lead : Z) :
  cell_fits cw ch ->
  exists data, pack_nfnt pt cw ch asc dsc lead = Ok data /\ packed cw ch asc dsc lead data.
Proof.
  intros Hfits. destruct (glyph_bitmaps_of_ok cw ch Hfits) as (gl & Egl).
  exact (pack_nfnt_from pt cw ch asc dsc lead gl Egl).
Qed.

(** Whatever it returns has these fields. *)
Lemma pack_nfnt_returned (pt cw ch asc dsc lead : Z) (data : nfnt_data) :
  pack_nfnt pt cw ch asc dsc lead = Ok data -> packed cw ch asc dsc lead data.
Proof.
  intros E. destruct (glyph_bitmaps_of cw ch) as [gl|e] eqn:Egl.
  - destruct (pack_nfnt_from pt cw ch asc dsc lead gl Egl) as (data' & E' & Hp).
    rewrite E in E'. apply Ok_inj in E'. rewrite E'. exact Hp.
  - unfold pack_nfnt in E. cbv zeta in E. rewrite Egl, bind_Raise in E. discriminate E.
Qed.

End EncoderFacts.

(** ** emit_rez: the layout of a font resource *)

Section Layout.
Context {FM : FloatModel}.

Lemma num_chars_value : num_chars = 142.
Proof. reflexivity. Qed.

Lemma range_lookup (a b i : Z) :
  0 <= i < b - a -> range a b !! Z.to_nat i = Some (a + i).
Proof.
  intros Hi. unfold range. rewrite lookup_seqZ. split; [f_equal; lia | lia].
Qed.

(** The location table of [pack_nfnt], entry by entry. *)
Lemma loc_table_lookup (cw i : Z) :
  0 <= i < num_chars + 2 ->
  (((fun i => i * cw) <$> range 0 num_chars)
     ++ [num_chars * cw] ++ [(num_chars + 1) * cw]) !! Z.to_nat i = Some (i * cw).
Proof.
  intros Hi. rewrite num_chars_value in *.
  destruct (Z_lt_le_dec i 142) as [Hlt|Hge].
  - rewrite lookup_app_l by (rewrite length_fmap, length_range; lia).
    rewrite list_lookup_fmap, range_lookup by lia. reflexivity.
  - rewrite lookup_app_r by (rewrite length_fmap, length_range; lia).
    rewrite length_fmap, length_range.
    assert (E : i = 142 \/ i = 143) by lia.
    destruct E as [-> | ->]; reflexivity.
Qed.

(** The offset/width table of [pack_nfnt], for the character codes. *)
Lemma ow_table_lookup (cw code : Z) :
  FIRST_CHAR <= code <= LAST_CHAR ->
  (((fun i =>
       match dict_get CODE_TO_UNICODE (FIRST_CHAR + i) with
       | Some _ => Z.lor (Z.shiftl 0 8) cw
       | None => 0xFFFF
       end) <$> range 0 num_chars)
     ++ [Z.lor (Z.shiftl 0 8) cw] ++ [0xFFFF]) !! Z.to_nat (code - FIRST_CHAR)
  = Some (match dict_get CODE_TO_UNICODE code with
          | Some _ => Z.lor (Z.shiftl 0 8) cw
          | None => 0xFFFF
          end).
Proof.
  unfold FIRST_CHAR, LAST_CHAR. intros Hc. rewrite num_chars_value.
  rewrite lookup_app_l by (rewrite length_fmap, length_range; lia).
  rewrite list_lookup_fmap, range_lookup by lia. simpl.
  replace (32 + (0 + (code - 32))) with code by lia. reflexivity.
Qed.

(** [emit_rez] prints, for one size, a header of 26 bytes, [cell_height]
    strike rows of [2 * rowWords] bytes and a location table of
    [numChars + 2] words before the offset/width table. *)
Lemma emit_nfnt_ok (i pt cw ch asc dsc lead : Z) :
  0 <= cw -> 0 <= ch <= cell_limit -> (num_chars + 1) * cw < 65536 ->
  exists rz data,
    pack_nfnt pt cw ch asc dsc lead = Ok data /\
    emit_nfnt i (pt, cw, ch, asc, dsc, lead) = Ok rz /\
    nfnt_id rz = NFNT_BASE_ID + i /\
    nfnt_pt rz = pt /\
    row_words data = ((num_chars + 1) * cw + 15) / 16 /\
    owTLoc data = (26 + row_words data * 2 * ch + (num_chars + 2) * 2 - 16) / 2 /\
    header_words rz =
      [0x9000; FIRST_CHAR; LAST_CHAR; cw; 0; Z.land (- dsc) 0xFFFF; cw; ch;
       Z.land (owTLoc data) 0xFFFF; asc; dsc; lead; row_words data] /\
    ow_table_address rz = 26 + row_words data * 2 * ch + (num_chars + 2) * 2 /\
    drop (Z.to_nat (2 * ow_table_address rz)) (nfnt_resource_hex rz) = ow_hex rz.
Proof.
  intros Hcw Hch Hloc.
  destruct (pack_nfnt_ok pt cw ch asc dsc lead)
    as (data & E & strike & -> & Hlen & Hrows).
  { unfold cell_fits, cell_limit in *. rewrite num_chars_value in Hloc. lia. }
  unfold emit_nfnt. rewrite E, bind_Ok. cbv zeta.
  eexists. eexists. split; [reflexivity|]. split; [reflexivity|].
  cbn [nfnt_id nfnt_pt header_words row_words owTLoc].
  do 5 (split; [reflexivity|]).
  unfold ow_table_address, nfnt_resource_hex.
  cbn [header_hex strike_rows_hex loc_hex ow_hex strike_hex loc_table ow_table row_words].
  set (rw := ((num_chars + 1) * cw + 15) / 16) in *.
  assert (Hrw : 0 <= rw) by (apply Z.div_pos; rewrite num_chars_value in *; lia).
  match goal with
  | |- Z.of_nat (length ?pre) / 2 = ?addr /\ _ =>
      assert (Hpre : Z.of_nat (length pre) = addr * 2)
  end.
  { rewrite !length_app.
    rewrite (length_concat_uniform _ 4).
    2:{ apply Forall_fmap, Forall_forall. intros w _.
        apply format_X_4_length, land_FFFF_bounds. }
    rewrite (length_concat_uniform _ _ Hrows), Hlen.
    rewrite (length_concat_uniform _ 4).
    2:{ apply Forall_fmap, Forall_forall. intros v Hv. apply format_X_4_length.
        apply list_elem_of_lookup_1 in Hv as [n Hn].
        pose proof (lookup_lt_Some _ _ _ Hn) as Hlt.
        rewrite !length_app, length_fmap, length_range in Hlt. simpl in Hlt.
        rewrite <- (Nat2Z.id n), loc_table_lookup in Hn
          by (rewrite num_chars_value in *; lia).
        injection Hn as <-. rewrite num_chars_value in *. nia. }
    rewrite !length_fmap, !length_app, length_fmap, length_range. simpl length.
    rewrite num_chars_value. nia. }
  rewrite Hpre. rewrite Z.div_mul by lia. split; [reflexivity|].
  rewrite (Z.mul_comm 2), <- Hpre, Nat2Z.id.
  match goal with
  | |- drop (length ?pre) ?all = ?ow =>
      replace all with (pre ++ ow) by (rewrite <- !app_assoc; reflexivity)
  end.
  apply drop_app_length.
Qed.

(** The configured cells are small enough for 16-bit table entries. *)
Lemma monaco_cells (m : metrics) :
  m ∈ MONACO_METRICS ->
  let '(pt, cw, ch, asc, dsc, lead) := m in
  0 <= cw /\ 0 <= ch <= cell_limit /\ (num_chars + 1) * cw < 65536 /\
  0 <= (26 + ((num_chars + 1) * cw + 15) / 16 * 2 * ch + (num_chars + 2) * 2 - 16) / 2
     < 65536 /\
  (26 + ((num_chars + 1) * cw + 15) / 16 * 2 * ch + (num_chars + 2) * 2 - 16) mod 2 = 0.
Proof.
  intros Hm. unfold MONACO_METRICS in Hm.
  repeat (apply elem_of_cons in Hm as [-> | Hm]);
    [vm_compute; repeat split; congruence .. | by apply elem_of_nil in Hm].
Qed.

(** The pointer field of a configured size: the word offset from the
    field to the table, with nothing lost to the 16-bit mask or to the
    division by two. *)
Lemma nfnt_pointer_field (i : Z) (m : metrics) :
  m ∈ MONACO_METRICS ->
  exists rz rw,
    emit_nfnt i m = Ok rz /\
    nth 12 (header_words rz) 0 = rw /\
    ow_table_address rz = 26 + rw * 2 * cell_height_of m + (num_chars + 2) * 2 /\
    drop (Z.to_nat (2 * ow_table_address rz)) (nfnt_resource_hex rz) = ow_hex rz /\
    (ow_table_address rz - header_field_address 8) mod 2 = 0 /\
    nth 8 (header_words rz) 0 = (ow_table_address rz - header_field_address 8) / 2.
Proof.
  intros Hm. pose proof (monaco_cells m Hm) as Hc.
  destruct m as [[[[[pt cw] ch] asc] dsc] lead].
  destruct Hc as (Hcw & Hch & Hloc & Hfield & Heven).
  destruct (emit_nfnt_ok i pt cw ch asc dsc lead Hcw Hch Hloc)
    as (rz & data & _ & E & _ & _ & Hrw & How & Hhdr & Haddr & Hdrop).
  exists rz, (row_words data). split; [exact E|].
  rewrite Hhdr. cbn [nth]. unfold cell_height_of, fst, snd.
  split; [reflexivity|]. split; [exact Haddr|]. split; [exact Hdrop|].
  rewrite Haddr, How, Hrw. unfold header_field_address.
  change (2 * 8) with 16. split; [exact Heven|].
  apply land_FFFF_id. exact Hfield.
Qed.

End Layout.

(** ** emit_rez: the family resource *)

Lemma pack_h_ok (v : Z) : -32768 <= v <= 32767 -> pack_h v = Ok (be16 v).
Proof.
  intros Hv. unfold pack_h.
  destruct (Z.leb_spec (-32768) v), (Z.leb_spec v 32767); try lia. reflexivity.
Qed.

Lemma emit_pack_h (v : Z) (acc : list Z) :
  -32768 <= v <= 32767 -> emit (pack_h v) acc = Ok (acc ++ be16 v).
Proof. intros Hv. unfold emit. rewrite pack_h_ok by assumption. reflexivity. Qed.

Lemma for_each_append {A B : Type} (g : A -> list B) (l : list A)
    (body : A -> list B -> result (list B)) (acc : list B) :
  (forall a acc0, a ∈ l -> body a acc0 = Ok (acc0 ++ g a)) ->
  for_each l body acc = Ok (acc ++ concat (g <$> l)).
Proof.
  revert acc. induction l as [|a l IH]; intros acc Hbody; simpl.
  - rewrite app_nil_r. reflexivity.
  - rewrite (Hbody a acc) by left. rewrite bind_Ok, IH.
    + rewrite <- app_assoc. reflexivity.
    + intros; apply Hbody. by right.
Qed.

Lemma fond_fixed_fields_ok :
  exists fixed, fond_fixed_fields = Ok fixed /\
    Z.of_nat (length fixed) = fond_header_bytes.
Proof. eexists. split; [vm_compute; reflexivity | reflexivity]. Qed.

Lemma words_of_be16 (v : Z) (rest : list Z) :
  0 <= v <= 32767 -> words_of_bytes (be16 v ++ rest) = v :: words_of_bytes rest.
Proof.
  intros Hv. unfold be16. simpl. f_equal.
  rewrite (Z.mod_small v 65536) by lia.
  pose proof (Z.div_mod v 256). lia.
Qed.

(** The words of the association entries are the triples
    [(pointSize, 0, NFNT_BASE_ID + i)]. *)
Lemma assoc_entries_words (ims : list (Z * metrics)) :
  Forall (fun im => 0 <= pt_size_of (snd im) <= 32767 /\
                    0 <= NFNT_BASE_ID + fst im <= 32767) ims ->
  triples_of_words (words_of_bytes (concat (assoc_entry_bytes <$> ims)))
  = (fun im => (pt_size_of (snd im), 0, NFNT_BASE_ID + fst im)) <$> ims.
Proof.
  induction 1 as [|im ims [Hpt Hid] _ IH]; [reflexivity|].
  rewrite !fmap_cons. cbn [concat]. unfold assoc_entry_bytes at 1.
  rewrite <- !app_assoc.
  rewrite words_of_be16 by lia. rewrite words_of_be16 by lia.
  rewrite words_of_be16 by lia. cbn [triples_of_words]. rewrite IH. reflexivity.
Qed.

Lemma fond_data_of_ok (ms : list metrics) :
  -32767 <= Z.of_nat (length ms) <= 32568 ->
  Forall (fun m => -32768 <= pt_size_of m <= 32767) ms ->
  exists fixed,
    Z.of_nat (length fixed) = fond_header_bytes /\
    fond_data_of ms =
      Ok (fixed ++ be16 (Z.of_nat (length ms) - 1)
            ++ concat (assoc_entry_bytes <$> enumerate ms)).
Proof.
  intros Hlen Hpt. destruct fond_fixed_fields_ok as (fixed & E & Hfixed).
  exists fixed. split; [exact Hfixed|].
  unfold fond_data_of. rewrite E, bind_Ok. cbv zeta.
  rewrite (emit_pack_h (Z.of_nat (length ms) - 1)) by lia. rewrite bind_Ok.
  rewrite (for_each_append assoc_entry_bytes).
  - rewrite <- app_assoc. reflexivity.
  - intros [i [[[[[pt cw] ch] asc] dsc] lead]] acc Him.
    apply elem_of_enumerate in Him as [Hi Hm].
    rewrite Forall_forall in Hpt.
    pose proof (Hpt _ (list_elem_of_lookup_2 _ _ _ Hm)) as Hp.
    unfold pt_size_of in Hp; simpl in Hp.
    rewrite (emit_pack_h pt) by lia. rewrite bind_Ok.
    rewrite (emit_pack_h 0) by lia. rewrite bind_Ok.
    rewrite (emit_pack_h (NFNT_BASE_ID + i)) by (unfold NFNT_BASE_ID; lia).
    unfold assoc_entry_bytes, pt_size_of. cbn [fst snd].
    rewrite <- !app_assoc. reflexivity.
Qed.

Section Family.
Context {FM : FloatModel}.

Lemma emit_nfnt_total (i : Z) (m : metrics) :
  cell_fits (cell_width_of m) (cell_height_of m) ->
  exists rz, emit_nfnt i m = Ok rz.
Proof.
  destruct m as [[[[[pt cw] ch] asc] dsc] lead]. intros Hfits.
  destruct (pack_nfnt_ok pt cw ch asc dsc lead Hfits) as (data & E & _).
  unfold emit_nfnt. rewrite E, bind_Ok. eexists. reflexivity.
Qed.

(** A font resource that is emitted has the id [NFNT_BASE_ID + i] and the
    point size of its entry. *)
Lemma emit_nfnt_returned (i : Z) (m : metrics) (rz : nfnt_rez) :
  emit_nfnt i m = Ok rz ->
  nfnt_id rz = NFNT_BASE_ID + i /\ nfnt_pt rz = pt_size_of m.
Proof.
  destruct m as [[[[[pt cw] ch] asc] dsc] lead]. unfold emit_nfnt.
  destruct (pack_nfnt pt cw ch asc dsc lead) as [data|e].
  - rewrite bind_Ok. cbv zeta. intros E. apply Ok_inj in E. rewrite <- E.
    split; reflexivity.
  - rewrite bind_Raise. intros E. discriminate E.
Qed.

(** The loop over the configuration returns when every cell is within
    [cell_limit]. *)
Lemma emit_nfnts_ok (ms : list metrics) :
  Forall (fun m => cell_fits (cell_width_of m) (cell_height_of m)) ms ->
  exists rzs, emit_nfnts ms = Ok rzs.
Proof.
  intros Hms. unfold emit_nfnts.
  destruct (for_each_collect (fun im => emit_nfnt (fst im) (snd im))
              (fun _ _ => True) (enumerate ms) []) as (rzs & E & _).
  { intros [i m] Him. apply elem_of_enumerate in Him as [_ Hm].
    rewrite Forall_forall in Hms.
    destruct (emit_nfnt_total i m (Hms _ (list_elem_of_lookup_2 _ _ _ Hm))) as (rz & E).
    exists rz. split; [exact E | exact I]. }
  exists rzs. exact E.
Qed.

(** It gives size [i] the id [NFNT_BASE_ID + i]. *)
Lemma emit_nfnts_returned (ms : list metrics) (rzs : list nfnt_rez) :
  emit_nfnts ms = Ok rzs ->
  Forall2 (fun im rz => nfnt_id rz = NFNT_BASE_ID + fst im /\
                        nfnt_pt rz = pt_size_of (snd im))
          (enumerate ms) rzs.
Proof.
  unfold emit_nfnts. intros E.
  apply for_each_collected in E as (bs & -> & HQ). cbn [app].
  eapply Forall2_impl; [exact HQ|]. intros im rz Hrz. cbv beta in Hrz.
  apply emit_nfnt_returned, Hrz.
Qed.

End Family.

Lemma imap_id {A : Type} (g : nat -> A -> A) (l : list A) :
  (forall n x, g n x = x) -> imap g l = l.
Proof.
  revert g. induction l as [|x l IH]; intros g Hg; [reflexivity|].
  rewrite imap_cons, Hg, IH; [reflexivity|]. intros n y. apply Hg.
Qed.

Lemma snd_enumerate {A : Type} (l : list A) : snd <$> enumerate l = l.
Proof. unfold enumerate. rewrite fmap_imap. apply imap_id. reflexivity. Qed.

Lemma Forall2_fmap_eq {A B C : Type} (f : A -> C) (g : B -> C) (l : list A) (k : list B) :
  Forall2 (fun a b => f a = g b) l k -> f <$> l = g <$> k.
Proof.
  induction 1 as [|a b l k E _ IH]; [reflexivity|].
  rewrite !fmap_cons. f_equal; assumption.
Qed.

(** * The claims *)

Section CanvasClaims.
Context {FM : FloatModel}.

(** C10. Drawing is monotone: a drawing method ([set], [fill_rect],
    [hline], [vline], [dither], [fill_circle], [outline_circle],
    [fill_triangle]) that returns leaves each pixel as it was or sets it to 1
    and clears none; after a sequence of calls on a fresh bitmap the pixels
    that are on are those that one of the calls sets on a fresh bitmap by
    itself.  A call returns whenever its arguments are in the range of a
    float. *)
Theorem drawing_is_monotone (d : draw_call) (ds : list draw_call)
    (bm : Bitmap) (w h : Z) :
  wf bm ->
  (call_fits d -> exists bm', call d bm = Ok bm') /\
  (forall bm', call d bm = Ok bm' ->
     forall x y, (px bm' x y = px bm x y \/ px bm' x y = 1) /\
                 (px bm x y = 1 -> px bm' x y = 1)) /\
  (Forall call_fits ds -> exists bm', calls ds (Bitmap_init w h) = Ok bm') /\
  (forall bm', calls ds (Bitmap_init w h) = Ok bm' ->
     forall x y, px bm' x y = 1 <->
       exists d', d' ∈ ds /\ painted w h (call d') x y).
Proof.
  intros Hwf. split; [|split; [|split]].
  - intros Hfits.
    destruct (call_draws (bm_w bm) (bm_h bm) d Hfits bm Hwf eq_refl eq_refl)
      as (bm' & E & _). eauto.
  - intros bm' E.
    destruct (call_paints (bm_w bm) (bm_h bm) d) as [Hr|Hd].
    { rewrite (Hr bm Hwf eq_refl eq_refl) in E. discriminate. }
    destruct (Hd bm Hwf eq_refl eq_refl) as (bm'' & E' & _ & _ & _ & Hpx).
    rewrite E in E'. injection E' as <-. intros x y.
    destruct (Hpx x y) as [(_ & _ & H1) | [_ H0]].
    + split; [right; exact H1 | intros _; exact H1].
    + rewrite H0. split; [left; reflexivity | tauto].
  - intros Hds.
    destruct (draws_for_each w h ds call region) with (bm := Bitmap_init w h)
      as (bm' & E & _); [| apply wf_init | reflexivity | reflexivity | eauto].
    intros d' Hd'. apply call_draws. rewrite Forall_forall in Hds. apply Hds, Hd'.
  - intros bm' E.
    destruct (paints_for_each w h ds call region) as [[Hr _] | [Hd Hall]].
    { intros d' _. apply call_paints. }
    { unfold calls in E.
      rewrite (Hr (Bitmap_init w h) (wf_init w h) eq_refl eq_refl) in E. discriminate. }
    destruct (Hd (Bitmap_init w h) (wf_init w h) eq_refl eq_refl)
      as (bm'' & E' & _ & _ & _ & Hpx).
    unfold calls in E. rewrite E in E'. injection E' as <-. intros x y.
    destruct (Hpx x y) as [(Hg & (d' & Hin & HP) & H1) | [Hn H0]].
    + split; [intros _|intros _; exact H1]. exists d'. split; [exact Hin|].
      apply (draws_painted _ _ _ _ (Hall d' Hin)). tauto.
    + rewrite H0, px_init. split; [discriminate|].
      intros (d' & Hin & Hp). exfalso. apply Hn.
      apply (draws_painted _ _ _ _ (Hall d' Hin)) in Hp. split; [tauto | exists d'; tauto].
Qed.

(** C8 (amended). Drawing never leaves the grid, and it returns while its
    numbers are in the range of a float.  A drawing method called with any
    integers on any bitmap either raises OverflowError or returns the
    bitmap with its shape kept and no pixel outside the grid changed (a
    subscript outside a list is an error of the model, so that none
    occurs); it returns when its arguments are in the range of a float.
    [render_glyph] returns a [w] by [h] bitmap for every code point in every
    cell within [cell_limit], and never a bitmap of another shape; a code
    point that is neither mapped nor in the Braille range is rendered as
    the four-point lozenge placeholder. *)
Theorem drawing_is_total (d : draw_call) (bm : Bitmap) (unicode_cp w h : Z) :
  wf bm ->
  let clipped := fun bm' =>
    wf bm' /\ bm_w bm' = bm_w bm /\ bm_h bm' = bm_h bm /\
    forall x y, px bm' x y <> px bm x y -> in_grid (bm_w bm) (bm_h bm) x y in
  (call_fits d -> exists bm', call d bm = Ok bm' /\ clipped bm') /\
  (call d bm = Raise OverflowError \/ exists bm', call d bm = Ok bm' /\ clipped bm') /\
  (cell_fits w h ->
   exists g, render_glyph unicode_cp w h = Ok g /\ wf g /\ bm_w g = w /\ bm_h g = h) /\
  (forall g, render_glyph unicode_cp w h = Ok g -> wf g /\ bm_w g = w /\ bm_h g = h) /\
  (is_Some (dict_get GLYPH_MAP unicode_cp) \/
   0x2800 <= unicode_cp <= 0x28FF \/
   render_glyph unicode_cp w h = lozenge_placeholder w h (Bitmap_init w h)).
Proof.
  intros Hwf. cbv zeta.
  assert (Hclip : draws (bm_w bm) (bm_h bm) (call d) (region d) ->
            exists bm', call d bm = Ok bm' /\ wf bm' /\
              bm_w bm' = bm_w bm /\ bm_h bm' = bm_h bm /\
              forall x y, px bm' x y <> px bm x y -> in_grid (bm_w bm) (bm_h bm) x y).
  { intros Hd. destruct (Hd bm Hwf eq_refl eq_refl) as (bm' & E & Hwf' & Hw & Hh & Hpx).
    exists bm'. do 4 (split; [assumption|]). intros x y Hne.
    destruct (Hpx x y) as [(Hg & _ & _) | [_ H0]]; [exact Hg | contradiction]. }
  split; [|split; [|split; [|split]]].
  - intros Hfits. apply Hclip, call_draws, Hfits.
  - destruct (call_paints (bm_w bm) (bm_h bm) d) as [Hr|Hd].
    + left. apply Hr; [exact Hwf | reflexivity | reflexivity].
    + right. apply Hclip, Hd.
  - intros Hfits.
    destruct (glyph_cmd_painter unicode_cp w h Hfits (Bitmap_init w h) (wf_init w h)
                eq_refl eq_refl) as (g & E & Hwf' & Hw & Hh & _).
    exists g. tauto.
  - intros g E.
    destruct (glyph_cmd_keeps unicode_cp w h (Bitmap_init w h) g (wf_init w h) E)
      as (Hwf' & Hw & Hh).
    split; [exact Hwf' | split; assumption].
  - destruct (dict_get GLYPH_MAP unicode_cp) as [c|] eqn:Emap; [left; eauto|].
    destruct (decide (0x2800 <= unicode_cp <= 0x28FF)) as [|Hnb]; [right; left; assumption|].
    right; right. unfold render_glyph, glyph_cmd, lozenge_placeholder. cbv zeta.
    repeat lazymatch goal with
    | |- (if ?a =? ?k then _ else _) _ = _ =>
        destruct (Z.eqb_spec a k) as [E|_];
          [exfalso; clear -E Emap; rewrite E in Emap; vm_compute in Emap; discriminate|]
    | |- (if (?a <=? ?x) && (?y <=? ?b) then _ else _) _ = _ =>
        destruct (Z.leb_spec a x), (Z.leb_spec y b); simpl; try (exfalso; lia)
    end.
    all: reflexivity.
Qed.

(** C7 (amended). For every Braille symbol and every cell size the pixels
    that are on are those of the disks of radius [max(1, min(w,h)//8)] around
    the dots whose bit is set in the symbol's ordinal, bit [b] standing for
    the dot [braille_centre w h b], clipped to the cell.  For ordinal 0x01 that
    is the one disk around [(w//3, h//5)]; in a cell at least 5 wide and 8
    high, as every configured cell is, its centre is on and the centres of
    the seven other dots are off. *)
Theorem braille_bits_control_dots (unicode_cp w h : Z) :
  0x2800 <= unicode_cp <= 0x28FF ->
  exists bm, render_glyph unicode_cp w h = Ok bm /\
    (forall x y, px bm x y = 1 <->
       in_grid w h x y /\
       exists bit, 0 <= bit < 8 /\ Z.testbit (unicode_cp - 0x2800) bit = true /\
         in_disk (braille_centre w h bit) (braille_radius w h) x y) /\
    (unicode_cp = 0x2801 ->
       (forall x y, px bm x y = 1 <->
          in_grid w h x y /\ in_disk (w / 3, h / 5) (Z.max 1 (Z.min w h / 8)) x y) /\
       (5 <= w -> 8 <= h ->
          px bm (w / 3) (h / 5) = 1 /\
          forall bit, 1 <= bit < 8 ->
            px bm (fst (braille_centre w h bit)) (snd (braille_centre w h bit)) = 0)).
Proof.
  intros Hcp. destruct (render_braille unicode_cp w h Hcp) as (bm & E & Hpx).
  exists bm. split; [exact E|]. split; [intros x y; apply Hpx|].
  intros ->. change (0x2801 - 0x2800) with 1 in Hpx.
  assert (Hone : forall x y, px bm x y = 1 <->
            in_grid w h x y /\ in_disk (w / 3, h / 5) (Z.max 1 (Z.min w h / 8)) x y).
  { intros x y. rewrite (proj2 (Hpx x y)).
    assert (Ec : braille_centre w h 0 = (w / 3, h / 5)).
    { unfold braille_centre; simpl. rewrite Z.mul_1_r. reflexivity. }
    split.
    - intros (Hg & bit & Hbit & Ht & Hd). split; [exact Hg|].
      assert (bit = 0) as ->.
      { assert (Eb : bit = 0 \/ bit = 1 \/ bit = 2 \/ bit = 3 \/ bit = 4 \/
                     bit = 5 \/ bit = 6 \/ bit = 7) by lia.
        destruct Eb as [-> | [-> | [-> | [-> | [-> | [-> | [-> | ->]]]]]]];
          first [reflexivity | discriminate Ht]. }
      rewrite Ec in Hd. exact Hd.
    - intros [Hg Hd]. split; [exact Hg|]. exists 0. split; [lia|].
      split; [reflexivity|]. rewrite Ec. exact Hd. }
  split; [exact Hone|]. intros Hw Hh. split.
  - apply Hone. unfold in_grid, in_disk; simpl. split; [|nia].
    split; split; try (apply Z.div_pos; lia); apply Z.div_lt_upper_bound; lia.
  - intros bit Hbit.
    destruct (proj1 (Hpx (fst (braille_centre w h bit)) (snd (braille_centre w h bit))))
      as [H0 | H1]; [exact H0 | exfalso].
    apply Hone in H1 as [_ Hd]. unfold in_disk in Hd. simpl in Hd.
    assert (Hr : 1 <= Z.max 1 (Z.min w h / 8)) by lia.
    assert (Hcol : Z.max 1 (Z.min w h / 8) < w * 2 / 3 - w / 3).
    { pose proof (Z.div_mod w 3). pose proof (Z.mod_pos_bound w 3).
      pose proof (Z.div_mod (w * 2) 3). pose proof (Z.mod_pos_bound (w * 2) 3).
      pose proof (Z.div_mod (Z.min w h) 8). pose proof (Z.mod_pos_bound (Z.min w h) 8).
      lia. }
    assert (Hrow : forall k, 1 <= k ->
              Z.max 1 (Z.min w h / 8) < h * (k + 1) / 5 - h / 5).
    { intros k Hk.
      assert (h * 2 / 5 <= h * (k + 1) / 5) by (apply Z.div_le_mono; nia).
      pose proof (Z.div_mod h 5). pose proof (Z.mod_pos_bound h 5).
      pose proof (Z.div_mod (h * 2) 5). pose proof (Z.mod_pos_bound (h * 2) 5).
      pose proof (Z.div_mod (Z.min w h) 8). pose proof (Z.mod_pos_bound (Z.min w h) 8).
      lia. }
    assert (Eb : bit = 1 \/ bit = 2 \/ bit = 3 \/ bit = 4 \/
                 bit = 5 \/ bit = 6 \/ bit = 7) by lia.
    pose proof (Hrow 1 ltac:(lia)). pose proof (Hrow 2 ltac:(lia)).
    pose proof (Hrow 3 ltac:(lia)).
    destruct Eb as [-> | [-> | [-> | [-> | [-> | [-> | ->]]]]]];
      unfold braille_centre in Hd; simpl in Hd;
      (apply outside_disk in Hd; [exact Hd | lia |]);
      first [left; lia | right; lia].
Qed.

End CanvasClaims.

Lemma drawing_is_monotone_witness :
  (wf (Bitmap_init 3 2) /\ call_fits (Call_hline 1 0 2)) /\
  exists bm', call (Call_hline 1 0 2) (Bitmap_init 3 2) = Ok bm' /\
    forall x y, (px bm' x y = px (Bitmap_init 3 2) x y \/ px bm' x y = 1) /\
                (px (Bitmap_init 3 2) x y = 1 -> px bm' x y = 1).
Proof.
  split; [split; [apply wf_init | exact I]|].
  destruct (drawing_is_monotone (Call_hline 1 0 2) [Call_set 0 0; Call_hline 1 0 2]
              (Bitmap_init 3 2) 3 2 (wf_init 3 2)) as (Hret & Hmono & _).
  destruct (Hret I) as (bm' & E).
  exists bm'. split; [exact E | exact (Hmono bm' E)].
Defined.

Lemma drawing_is_total_witness :
  (wf (Bitmap_init 3 2) /\ call_fits (Call_outline_circle 1 1 5) /\ cell_fits 7 17) /\
  (exists bm', call (Call_outline_circle 1 1 5) (Bitmap_init 3 2) = Ok bm' /\ wf bm') /\
  exists g, render_glyph 0x25CB 7 17 = Ok g /\ wf g /\ bm_w g = 7 /\ bm_h g = 17.
Proof.
  assert (Hc : call_fits (Call_outline_circle 1 1 5)).
  { unfold call_fits, float_ok. vm_compute. reflexivity. }
  assert (Hf : cell_fits 7 17).
  { unfold cell_fits, cell_limit. lia. }
  split; [split; [apply wf_init | split; [exact Hc | exact Hf]]|].
  destruct (drawing_is_total (Call_outline_circle 1 1 5) (Bitmap_init 3 2) 0x25CB 7 17
              (wf_init 3 2)) as (Hcall & _ & Hrender & _).
  split.
  - destruct (Hcall Hc) as (bm' & E & Hwf & _). exists bm'. split; [exact E | exact Hwf].
  - exact (Hrender Hf).
Defined.

Lemma braille_bits_control_dots_witness :
  0x2800 <= 0x2801 <= 0x28FF /\
  exists bm, render_glyph 0x2801 6 12 = Ok bm /\ px bm 2 2 = 1 /\ px bm 4 2 = 0.
Proof.
  split; [lia|].
  destruct (braille_bits_control_dots 0x2801 6 12 ltac:(lia))
    as (bm & E & _ & Hone).
  destruct (Hone eq_refl) as [_ Hsep].
  destruct (Hsep ltac:(lia) ltac:(lia)) as [Hc Hothers].
  exists bm. split; [exact E|]. split; [exact Hc|].
  exact (Hothers 3 ltac:(lia)).
Defined.

(** C7 as stated fails in a small cell: in a 3 by 5 cell the disk of the
    first dot covers the centre of the fourth, whose bit is clear. *)
Lemma braille_dots_overlap_in_small_cell :
  ~ (forall w h bm, render_glyph 0x2801 w h = Ok bm ->
       forall bit, 1 <= bit < 8 ->
         px bm (fst (braille_centre w h bit)) (snd (braille_centre w h bit)) = 0).
Proof.
  intros Hclaim.
  destruct (render_glyph 0x2801 3 5) as [bm|e] eqn:E; [|vm_compute in E; discriminate].
  specialize (Hclaim 3 5 bm E 3 ltac:(lia)).
  vm_compute in E. injection E as <-. vm_compute in Hclaim. discriminate.
Qed.

(** C8 as stated fails: a radius too large for a float makes
    [outline_circle] raise OverflowError at [r * 1.5], on a bitmap of one
    pixel already. *)
Lemma outline_circle_overflows :
  ~ (forall (d : draw_call) (bm : Bitmap), wf bm -> exists bm', call d bm = Ok bm').
Proof.
  intros Hclaim.
  destruct (Hclaim (Call_outline_circle 0 0 (2 ^ 1100)) (Bitmap_init 1 1) (wf_init 1 1))
    as (bm' & E).
  vm_compute in E. discriminate.
Qed.

(** C9. The table from code points to character codes is injective, every
    code it assigns lies in [0x20, 0xAD], and the reverse table is its
    inverse: a character code has the one code point that maps to it, or it
    has none and no code point maps to it. *)
Theorem glyph_table_injective :
  (forall u1 u2 c,
     dict_get GLYPH_MAP u1 = Some c -> dict_get GLYPH_MAP u2 = Some c -> u1 = u2) /\
  (forall u c, dict_get GLYPH_MAP u = Some c -> 0x20 <= c <= 0xAD) /\
  (forall c u, dict_get CODE_TO_UNICODE c = Some u <-> dict_get GLYPH_MAP u = Some c) /\
  (forall c, 0x20 <= c <= 0xAD ->
     (exists u, dict_get CODE_TO_UNICODE c = Some u /\
                forall u', dict_get GLYPH_MAP u' = Some c <-> u' = u) \/
     (dict_get CODE_TO_UNICODE c = None /\
      forall u', dict_get GLYPH_MAP u' <> Some c)).
Proof.
  split; [exact glyph_map_inj|]. split; [|split; [exact code_to_unicode_spec|]].
  - intros u c H. apply dict_get_elem_of in H.
    pose proof glyph_codes_in_range as Hr. rewrite Forall_forall in Hr.
    apply (Hr (u, c) H).
  - intros c _. destruct (dict_get CODE_TO_UNICODE c) as [u|] eqn:E.
    + left. exists u. split; [reflexivity|]. apply code_to_unicode_spec in E.
      intros u'. split.
      * intros H. exact (glyph_map_inj _ _ _ H E).
      * intros ->. exact E.
    + right. split; [reflexivity|]. intros u' H.
      apply code_to_unicode_spec in H. congruence.
Qed.

Section FontClaims.
Context {FM : FloatModel}.

(** C1 (amended). For every configured size the pointer field of the
    header, read as [pointerFieldByteAddress + 2 * offsetValue] with the field
    at byte 16, is the byte address at which the offset/width table starts in
    the resource, after the 26-byte header, the strike and the location
    table; the offset is counted from the field itself, not from the word
    after it. *)
Theorem owTLoc_reaches_table (i : Z) (m : metrics) :
  m ∈ MONACO_METRICS ->
  exists rz, emit_nfnt i m = Ok rz /\
    header_field_address 8 = 16 /\
    header_field_address 8 + 2 * nth 8 (header_words rz) 0 = ow_table_address rz /\
    drop (Z.to_nat (2 * ow_table_address rz)) (nfnt_resource_hex rz) = ow_hex rz.
Proof.
  intros Hm.
  destruct (nfnt_pointer_field i m Hm)
    as (rz & rw & E & _ & _ & Hdrop & Heven & Hfield).
  exists rz. split; [exact E|]. split; [reflexivity|]. split; [|exact Hdrop].
  rewrite Hfield.
  pose proof (Z.div_mod (ow_table_address rz - header_field_address 8) 2). lia.
Qed.

(** C2. For every configured size the owTLoc field of the header is the
    word offset from the field's own byte address, 16, to the byte address of
    the offset/width table, [(byteOffsetOfTable - 16) / 2] with
    [byteOffsetOfTable = 26 + rowWords * 2 * cellHeight + (numChars + 2) * 2],
    which is where the table starts in the resource; the difference is even. *)
Theorem owTLoc_is_word_offset (i : Z) (m : metrics) :
  m ∈ MONACO_METRICS ->
  exists rz, emit_nfnt i m = Ok rz /\
    let cellHeight := cell_height_of m in
    let rowWords := nth 12 (header_words rz) 0 in
    let byteOffsetOfTable := 26 + rowWords * 2 * cellHeight + (num_chars + 2) * 2 in
    ow_table_address rz = byteOffsetOfTable /\
    (byteOffsetOfTable - 16) mod 2 = 0 /\
    nth 8 (header_words rz) 0 = (byteOffsetOfTable - 16) / 2.
Proof.
  intros Hm.
  destruct (nfnt_pointer_field i m Hm)
    as (rz & rw & E & Hrw & Haddr & _ & Heven & Hfield).
  exists rz. split; [exact E|]. cbv zeta. rewrite Hrw, <- Haddr.
  split; [reflexivity|]. split; [exact Heven | exact Hfield].
Qed.

(** C3. The location table has [numChars + 2] entries, with
    [numChars = lastChar - firstChar + 1]: entry [i] is [i * cellWidth] for the
    character codes, then [numChars * cellWidth] for the missing glyph and
    [(numChars + 1) * cellWidth] as the end; two consecutive entries differ by
    [cellWidth].  This holds of whatever [pack_nfnt] returns, for every
    argument; and it returns for every cell within [cell_limit], the
    configured sizes among them. *)
Theorem loc_table_fixed_width (pt cw ch asc dsc lead : Z) :
  (cell_fits cw ch -> exists data, pack_nfnt pt cw ch asc dsc lead = Ok data) /\
  forall data, pack_nfnt pt cw ch asc dsc lead = Ok data ->
    num_chars = LAST_CHAR - FIRST_CHAR + 1 /\
    Z.of_nat (length (loc_table data)) = num_chars + 2 /\
    (forall i, 0 <= i < num_chars ->
       loc_table data !! Z.to_nat i = Some (i * cw)) /\
    loc_table data !! Z.to_nat num_chars = Some (num_chars * cw) /\
    loc_table data !! Z.to_nat (num_chars + 1) = Some ((num_chars + 1) * cw) /\
    (forall (i : nat) a b,
       loc_table data !! i = Some a -> loc_table data !! S i = Some b ->
       b - a = cw).
Proof.
  split.
  { intros Hfits. destruct (pack_nfnt_ok pt cw ch asc dsc lead Hfits) as (data & E & _).
    exists data. exact E. }
  intros data E.
  destruct (pack_nfnt_returned pt cw ch asc dsc lead data E) as (strike & -> & _).
  cbn [loc_table].
  assert (Hlen : Z.of_nat (length (((fun i => i * cw) <$> range 0 num_chars)
                   ++ [num_chars * cw] ++ [(num_chars + 1) * cw])) = num_chars + 2).
  { rewrite !length_app, length_fmap, length_range. rewrite num_chars_value. reflexivity. }
  split; [reflexivity|]. split; [exact Hlen|].
  split; [intros j Hj; apply loc_table_lookup; lia|].
  split; [apply loc_table_lookup; rewrite num_chars_value; lia|].
  split; [apply loc_table_lookup; rewrite num_chars_value; lia|].
  intros j a b Ha Hb.
  pose proof (lookup_lt_Some _ _ _ Hb) as Hlt.
  rewrite <- (Nat2Z.id j), loc_table_lookup in Ha by lia.
  rewrite <- (Nat2Z.id (S j)), loc_table_lookup in Hb by lia.
  injection Ha as <-. injection Hb as <-. lia.
Qed.

(** C4. In the offset/width table the entry of a character code in
    [firstChar, lastChar] is [(0 << 8) | cellWidth], that is [cellWidth], when
    a symbol is mapped to the code and 0xFFFF when none is; the entry of the
    missing glyph is [(0 << 8) | cellWidth] and the last entry is 0xFFFF.
    This holds of whatever [pack_nfnt] returns, for every argument; and it
    returns for every cell within [cell_limit]. *)
Theorem ow_table_entries (pt cw ch asc dsc lead : Z) :
  (cell_fits cw ch -> exists data, pack_nfnt pt cw ch asc dsc lead = Ok data) /\
  forall data, pack_nfnt pt cw ch asc dsc lead = Ok data ->
    Z.lor (Z.shiftl 0 8) cw = cw /\
    Z.of_nat (length (ow_table data)) = num_chars + 2 /\
    (forall code u, FIRST_CHAR <= code <= LAST_CHAR ->
       dict_get GLYPH_MAP u = Some code ->
       ow_table data !! Z.to_nat (code - FIRST_CHAR) = Some (Z.lor (Z.shiftl 0 8) cw)) /\
    (forall code, FIRST_CHAR <= code <= LAST_CHAR ->
       (forall u, dict_get GLYPH_MAP u <> Some code) ->
       ow_table data !! Z.to_nat (code - FIRST_CHAR) = Some 0xFFFF) /\
    ow_table data !! Z.to_nat num_chars = Some (Z.lor (Z.shiftl 0 8) cw) /\
    ow_table data !! Z.to_nat (num_chars + 1) = Some 0xFFFF.
Proof.
  split.
  { intros Hfits. destruct (pack_nfnt_ok pt cw ch asc dsc lead Hfits) as (data & E & _).
    exists data. exact E. }
  intros data E.
  destruct (pack_nfnt_returned pt cw ch asc dsc lead data E) as (strike & -> & _).
  cbn [ow_table].
  split; [rewrite Z.shiftl_0_l; apply Z.lor_0_l|].
  split; [rewrite !length_app, length_fmap, length_range, num_chars_value; reflexivity|].
  split; [|split].
  - intros code u Hc Hu. rewrite ow_table_lookup by assumption.
    apply code_to_unicode_spec in Hu. rewrite Hu. reflexivity.
  - intros code Hc Hnone. rewrite ow_table_lookup by assumption.
    destruct (dict_get CODE_TO_UNICODE code) as [u|] eqn:Eu; [|reflexivity].
    apply code_to_unicode_spec in Eu. exfalso. exact (Hnone u Eu).
  - rewrite num_chars_value. split.
    + rewrite lookup_app_r by (rewrite length_fmap, length_range; lia).
      rewrite length_fmap, length_range. reflexivity.
    + rewrite lookup_app_r by (rewrite length_fmap, length_range; lia).
      rewrite length_fmap, length_range. reflexivity.
Qed.

(** C5. For a cell of non-negative width, as every configured cell is,
    the width of a strike row in bits is [rowWords * 16], a multiple of 16,
    with [rowWords] the least number of words that hold
    [(numChars + 1) * cellWidth] bits; it is at least
    [(numberOfDefinedCharacterCodes + 1) * cellWidth]; and every row of the
    packed strike has that many bits, four to the hexadecimal digit.  This
    holds of whatever [pack_nfnt] returns; and it returns for every cell
    within [cell_limit]. *)
Theorem strike_row_width (pt cw ch asc dsc lead : Z) :
  0 <= cw ->
  (cell_fits cw ch -> exists data, pack_nfnt pt cw ch asc dsc lead = Ok data) /\
  forall data, pack_nfnt pt cw ch asc dsc lead = Ok data ->
    let row_bits := row_words data * 16 in
    row_bits mod 16 = 0 /\
    16 * (row_words data - 1) < (num_chars + 1) * cw <= 16 * row_words data /\
    (Z.of_nat (length defined_codes) + 1) * cw <= row_bits /\
    Forall (fun r => Z.of_nat (length r) * 4 = row_bits) (strike_hex data).
Proof.
  intros Hcw. split.
  { intros Hfits. destruct (pack_nfnt_ok pt cw ch asc dsc lead Hfits) as (data & E & _).
    exists data. exact E. }
  intros data E.
  destruct (pack_nfnt_returned pt cw ch asc dsc lead data E)
    as (strike & -> & _ & Hrows).
  cbn [row_words strike_hex]. cbv zeta.
  set (rw := ((num_chars + 1) * cw + 15) / 16) in *.
  assert (Hdiv : 16 * (rw - 1) < (num_chars + 1) * cw <= 16 * rw).
  { subst rw. pose proof (Z.div_mod ((num_chars + 1) * cw + 15) 16).
    pose proof (Z.mod_pos_bound ((num_chars + 1) * cw + 15) 16). lia. }
  split; [apply Z.mod_mul; lia|]. split; [exact Hdiv|]. split.
  - assert (Hdef : Z.of_nat (length defined_codes) = 141) by (vm_compute; reflexivity).
    rewrite Hdef. rewrite num_chars_value in Hdiv. lia.
  - eapply Forall_impl; [exact Hrows|]. intros r Hr. simpl in Hr. rewrite Hr.
    rewrite num_chars_value in Hdiv. lia.
Qed.

End FontClaims.

Lemma owTLoc_reaches_table_witness :
  (9, 6, 12, 9, 2, 0) ∈ MONACO_METRICS /\
  exists rz, emit_nfnt 0 (9, 6, 12, 9, 2, 0) = Ok rz /\
    16 + 2 * nth 8 (header_words rz) 0 = ow_table_address rz.
Proof.
  split; [left|].
  destruct (owTLoc_reaches_table 0 (9, 6, 12, 9, 2, 0) ltac:(left))
    as (rz & E & _ & H & _).
  exists rz. split; [exact E | exact H].
Defined.

Lemma owTLoc_is_word_offset_witness :
  (12, 7, 17, 12, 3, 1) ∈ MONACO_METRICS /\
  exists rz, emit_nfnt 2 (12, 7, 17, 12, 3, 1) = Ok rz /\
    nth 8 (header_words rz) 0 = (ow_table_address rz - 16) / 2.
Proof.
  split; [right; right; left|].
  destruct (owTLoc_is_word_offset 2 (12, 7, 17, 12, 3, 1) ltac:(right; right; left))
    as (rz & E & Haddr & _ & H).
  exists rz. split; [exact E|]. rewrite Haddr. exact H.
Defined.

Lemma strike_row_width_witness :
  (0 <= 6 /\ cell_fits 6 12) /\
  exists data, pack_nfnt 9 6 12 9 2 0 = Ok data /\ (row_words data * 16) mod 16 = 0.
Proof.
  assert (Hf : cell_fits 6 12) by (unfold cell_fits, cell_limit; lia).
  split; [split; [lia | exact Hf]|].
  destruct (strike_row_width 9 6 12 9 2 0 ltac:(lia)) as [Hret Hprop].
  destruct (Hret Hf) as (data & E).
  exists data. split; [exact E|]. exact (proj1 (Hprop data E)).
Defined.

Lemma loc_table_fixed_width_witness :
  cell_fits 7 17 /\
  exists data, pack_nfnt 12 7 17 12 3 1 = Ok data /\
    loc_table data !! Z.to_nat 5 = Some (5 * 7).
Proof.
  assert (Hf : cell_fits 7 17) by (unfold cell_fits, cell_limit; lia).
  split; [exact Hf|].
  destruct (loc_table_fixed_width 12 7 17 12 3 1) as [Hret Hprop].
  destruct (Hret Hf) as (data & E).
  exists data. split; [exact E|].
  destruct (Hprop data E) as (_ & _ & Hentry & _).
  apply Hentry. unfold num_chars, LAST_CHAR, FIRST_CHAR. lia.
Defined.

Lemma ow_table_entries_witness :
  cell_fits 7 17 /\
  exists data, pack_nfnt 12 7 17 12 3 1 = Ok data /\
    ow_table data !! Z.to_nat (num_chars + 1) = Some 0xFFFF.
Proof.
  assert (Hf : cell_fits 7 17) by (unfold cell_fits, cell_limit; lia).
  split; [exact Hf|].
  destruct (ow_table_entries 12 7 17 12 3 1) as [Hret Hprop].
  destruct (Hret Hf) as (data & E).
  exists data. split; [exact E|].
  destruct (Hprop data E) as (_ & _ & _ & _ & _ & Hlast). exact Hlast.
Defined.

(** C1 as stated fails: with the 2 bytes of the field added, the address
    computed from the pointer field is 2 bytes past the table. *)
Lemma owTLoc_plus_two_misses_table :
  ~ (forall i m, m ∈ MONACO_METRICS ->
       forall rz, emit_nfnt i m = Ok rz ->
         header_field_address 8 + 2 + 2 * nth 8 (header_words rz) 0
         = ow_table_address rz).
Proof.
  intros Hclaim.
  destruct (nfnt_pointer_field 0 (9, 6, 12, 9, 2, 0) ltac:(left))
    as (rz & rw & E & _ & _ & _ & Heven & Hfield).
  specialize (Hclaim 0 (9, 6, 12, 9, 2, 0) ltac:(left) rz E).
  rewrite Hfield in Hclaim.
  pose proof (Z.div_mod (ow_table_address rz - header_field_address 8) 2). lia.
Qed.

Section FamilyClaim.
Context {FM : FloatModel}.

(** C6. The association table of the family resource starts with the
    number of sizes minus one and holds one (pointSize, 0, fontResourceId)
    entry per size, in the order of the configuration, which is ascending by
    point size; the id of entry [i] is [NFNT_BASE_ID + i], the id under which
    the font resource of that size is emitted.  Stated for any list of sizes
    that fits 16-bit fields: the configured seven, or three.  The font
    resources are emitted when every cell is within [cell_limit], and the
    identifiers are those of whatever [emit_nfnts] returns. *)
Theorem fond_association_table (ms : list metrics) :
  ms <> [] ->
  Z.of_nat (length ms) <= 32568 ->
  Forall (fun m => 0 <= pt_size_of m <= 32767) ms ->
  StronglySorted Z.lt (pt_size_of <$> ms) ->
  exists fond_data,
    fond_data_of ms = Ok fond_data /\
    let ws := words_of_bytes (drop (Z.to_nat fond_header_bytes) fond_data) in
    head ws = Some (Z.of_nat (length ms) - 1) /\
    length (triples_of_words (tail ws)) = length ms /\
    StronglySorted Z.lt ((fun t => fst (fst t)) <$> triples_of_words (tail ws)) /\
    (Forall (fun m => cell_fits (cell_width_of m) (cell_height_of m)) ms ->
     exists rzs, emit_nfnts ms = Ok rzs) /\
    forall rzs, emit_nfnts ms = Ok rzs ->
      length rzs = length ms /\
      (forall (i : nat) rz, rzs !! i = Some rz ->
         nfnt_id rz = NFNT_BASE_ID + Z.of_nat i /\
         exists m, ms !! i = Some m /\ nfnt_pt rz = pt_size_of m) /\
      triples_of_words (tail ws) = (fun rz => (nfnt_pt rz, 0, nfnt_id rz)) <$> rzs.
Proof.
  intros Hne Hlen Hpt Hsorted.
  destruct (fond_data_of_ok ms) as (fixed & Hfixed & Efond).
  { lia. }
  { eapply Forall_impl; [exact Hpt|]. intros m Hm. simpl in Hm. lia. }
  exists (fixed ++ be16 (Z.of_nat (length ms) - 1)
            ++ concat (assoc_entry_bytes <$> enumerate ms)).
  split; [exact Efond|]. cbv zeta.
  assert (Hdrop : drop (Z.to_nat fond_header_bytes)
            (fixed ++ be16 (Z.of_nat (length ms) - 1)
               ++ concat (assoc_entry_bytes <$> enumerate ms))
          = be16 (Z.of_nat (length ms) - 1)
              ++ concat (assoc_entry_bytes <$> enumerate ms)).
  { rewrite <- Hfixed, Nat2Z.id. apply drop_app_length. }
  rewrite Hdrop.
  assert (Hpos : (0 < length ms)%nat) by (destruct ms; [congruence | simpl; lia]).
  rewrite words_of_be16 by lia. cbn [head tail].
  assert (Htriples :
    triples_of_words (words_of_bytes (concat (assoc_entry_bytes <$> enumerate ms)))
    = (fun im => (pt_size_of (snd im), 0, NFNT_BASE_ID + fst im)) <$> enumerate ms).
  { apply assoc_entries_words, Forall_forall. intros [i m] Him.
    apply elem_of_enumerate in Him as [Hi Hm]. simpl.
    rewrite Forall_forall in Hpt.
    pose proof (Hpt _ (list_elem_of_lookup_2 _ _ _ Hm)). unfold NFNT_BASE_ID. lia. }
  rewrite Htriples.
  split; [reflexivity|]. split; [|split; [|split]].
  - rewrite length_fmap. apply length_imap.
  - rewrite <- list_fmap_compose.
    replace ((fun t : Z * Z * Z => fst (fst t)) ∘
             (fun im : Z * metrics => (pt_size_of (snd im), 0, NFNT_BASE_ID + fst im)))
      with (pt_size_of ∘ (snd : Z * metrics -> metrics)) by reflexivity.
    rewrite list_fmap_compose, snd_enumerate. exact Hsorted.
  - apply emit_nfnts_ok.
  - intros rzs Erz. pose proof (emit_nfnts_returned ms rzs Erz) as Hrz.
    assert (Hlrz : length rzs = length ms).
    { rewrite <- (Forall2_length _ _ _ Hrz). apply length_imap. }
    split; [exact Hlrz|]. split.
    + intros i rz Hi.
      destruct (Forall2_lookup_r _ _ _ _ _ Hrz Hi) as (im & Him & Hid & Hsz).
      apply list_lookup_imap_Some in Him as (m & Hm & ->). simpl in Hid, Hsz.
      split; [exact Hid|]. exists m. split; [exact Hm | exact Hsz].
    + apply Forall2_fmap_eq. eapply Forall2_impl; [exact Hrz|].
      intros im rz [Hid Hsz]. simpl. rewrite Hid, Hsz. reflexivity.
Qed.

End FamilyClaim.

Lemma fond_association_table_witness :
  (MONACO_METRICS <> [] /\
   Z.of_nat (length MONACO_METRICS) <= 32568 /\
   Forall (fun m => 0 <= pt_size_of m <= 32767) MONACO_METRICS /\
   StronglySorted Z.lt (pt_size_of <$> MONACO_METRICS) /\
   Forall (fun m => cell_fits (cell_width_of m) (cell_height_of m)) MONACO_METRICS) /\
  (exists fond_data rzs,
     fond_data_of MONACO_METRICS = Ok fond_data /\
     emit_nfnts MONACO_METRICS = Ok rzs /\
     head (words_of_bytes (drop 52 fond_data)) = Some 6 /\
     length (triples_of_words (tail (words_of_bytes (drop 52 fond_data)))) = 7%nat /\
     triples_of_words (tail (words_of_bytes (drop 52 fond_data)))
     = (fun rz => (nfnt_pt rz, 0, nfnt_id rz)) <$> rzs) /\
  (exists fond_data rzs,
     fond_data_of (take 3 MONACO_METRICS) = Ok fond_data /\
     emit_nfnts (take 3 MONACO_METRICS) = Ok rzs /\
     head (words_of_bytes (drop 52 fond_data)) = Some 2 /\
     length (triples_of_words (tail (words_of_bytes (drop 52 fond_data)))) = 3%nat).
Proof.
  assert (H1 : MONACO_METRICS <> []) by (vm_compute; discriminate).
  assert (H2 : Z.of_nat (length MONACO_METRICS) <= 32568)
    by (vm_compute; discriminate).
  assert (H3 : Forall (fun m => 0 <= pt_size_of m <= 32767) MONACO_METRICS)
    by (vm_compute; repeat constructor; discriminate).
  assert (H4 : StronglySorted Z.lt (pt_size_of <$> MONACO_METRICS))
    by (vm_compute; repeat constructor).
  assert (H5 : Forall (fun m => cell_fits (cell_width_of m) (cell_height_of m))
                 MONACO_METRICS)
    by (repeat constructor; vm_compute; discriminate).
  split; [exact (conj H1 (conj H2 (conj H3 (conj H4 H5))))|]. split.
  - destruct (fond_association_table MONACO_METRICS H1 H2 H3 H4)
      as (fond_data & E1 & Hhead & Hcount & _ & Hret & Hids).
    destruct (Hret H5) as (rzs & E2).
    destruct (Hids rzs E2) as (_ & _ & Htriples).
    exists fond_data, rzs.
    split; [exact E1|]. split; [exact E2|]. split; [exact Hhead|].
    split; [exact Hcount | exact Htriples].
  - assert (H1' : take 3 MONACO_METRICS <> []) by (vm_compute; discriminate).
    assert (H2' : Z.of_nat (length (take 3 MONACO_METRICS)) <= 32568)
      by (vm_compute; discriminate).
    assert (H3' : Forall (fun m => 0 <= pt_size_of m <= 32767) (take 3 MONACO_METRICS))
      by (vm_compute; repeat constructor; discriminate).
    assert (H4' : StronglySorted Z.lt (pt_size_of <$> take 3 MONACO_METRICS))
      by (vm_compute; repeat constructor).
    assert (H5' : Forall (fun m => cell_fits (cell_width_of m) (cell_height_of m))
                    (take 3 MONACO_METRICS))
      by (repeat constructor; vm_compute; discriminate).
    destruct (fond_association_table (take 3 MONACO_METRICS) H1' H2' H3' H4')
      as (fond_data & E1 & Hhead & Hcount & _ & Hret & _).
    destruct (Hret H5') as (rzs & E2).
    exists fond_data, rzs.
    split; [exact E1|]. split; [exact E2|]. split; [exact Hhead | exact Hcount].
Defined.

(** * Further properties *)

(** ** Bitmaps are determined by their pixels *)

Lemma bitmap_ext (bm1 bm2 : Bitmap) :
  wf bm1 -> wf bm2 -> bm_w bm1 = bm_w bm2 -> bm_h bm1 = bm_h bm2 ->
  (forall x y, in_grid (bm_w bm1) (bm_h bm1) x y -> px bm1 x y = px bm2 x y) ->
  bm1 = bm2.
Proof.
  destruct bm1 as [w1 h1 p1], bm2 as [w2 h2 p2]. unfold wf; simpl.
  intros [Hl1 Hr1] [Hl2 Hr2] <- <- Hpx. f_equal.
  apply list_eq. intros i.
  destruct (p1 !! i) as [r1|] eqn:E1.
  2:{ symmetry. apply lookup_ge_None. apply lookup_ge_None in E1. lia. }
  pose proof (lookup_lt_Some _ _ _ E1) as Hi.
  destruct (p2 !! i) as [r2|] eqn:E2.
  2:{ apply lookup_ge_None in E2. lia. }
  f_equal.
  rewrite Forall_forall in Hr1, Hr2.
  pose proof (Hr1 _ (list_elem_of_lookup_2 _ _ _ E1)) as Hlen1.
  pose proof (Hr2 _ (list_elem_of_lookup_2 _ _ _ E2)) as Hlen2.
  apply list_eq. intros j.
  destruct (r1 !! j) as [v1|] eqn:F1.
  2:{ symmetry. apply lookup_ge_None. apply lookup_ge_None in F1. lia. }
  pose proof (lookup_lt_Some _ _ _ F1) as Hj.
  destruct (r2 !! j) as [v2|] eqn:F2.
  2:{ apply lookup_ge_None in F2. lia. }
  f_equal.
  specialize (Hpx (Z.of_nat j) (Z.of_nat i)).
  unfold px, in_grid in Hpx; simpl in Hpx.
  destruct (Z.leb_spec 0 (Z.of_nat j)); [|lia].
  destruct (Z.leb_spec 0 (Z.of_nat i)); [|lia].
  simpl in Hpx. rewrite !Nat2Z.id, E1, E2, F1, F2 in Hpx. simpl in Hpx.
  apply Hpx. lia.
Qed.

(** Two commands that paint the same region of the grid give the same
    bitmap. *)
Lemma draws_same (w h : Z) (c c' : cmd) (P P' : Z -> Z -> Prop) :
  draws w h c P -> draws w h c' P' ->
  (forall x y, in_grid w h x y -> (P x y <-> P' x y)) ->
  forall bm, wf bm -> bm_w bm = w -> bm_h bm = h -> c bm = c' bm.
Proof.
  intros Hc Hc' HPP bm Hwf Hw Hh.
  destruct (Hc bm Hwf Hw Hh) as (b1 & -> & Hwf1 & Hw1 & Hh1 & Hpx1).
  destruct (Hc' bm Hwf Hw Hh) as (b2 & -> & Hwf2 & Hw2 & Hh2 & Hpx2).
  f_equal. apply bitmap_ext; try assumption; try congruence.
  intros x y Hg. rewrite Hw1, Hh1 in Hg.
  destruct (Hpx1 x y) as [(_ & HP & ->) | [Hn ->]];
    destruct (Hpx2 x y) as [(_ & HP' & ->) | [Hn' ->]]; try reflexivity.
  - exfalso. apply Hn'. split; [assumption|]. apply HPP; assumption.
  - exfalso. apply Hn. split; [assumption|]. apply HPP; assumption.
Qed.

(** A command that paints nothing returns the bitmap it was given. *)
Lemma draws_nothing (w h : Z) (c : cmd) (P : Z -> Z -> Prop) :
  draws w h c P ->
  (forall x y, in_grid w h x y -> ~ P x y) ->
  forall bm, wf bm -> bm_w bm = w -> bm_h bm = h -> c bm = Ok bm.
Proof.
  intros Hc Hempty bm Hwf Hw Hh.
  rewrite (draws_same w h c skip P (fun _ _ => False) Hc (draws_skip w h)) by
    (first [assumption | intros x y Hg; split; [apply Hempty, Hg | tauto]]).
  reflexivity.
Qed.

(** The shape of a command built from the drawing methods. *)
Ltac draw :=
  lazymatch goal with
  | |- draws _ _ (_ >> _) _ => eapply draws_seq; draw
  | |- draws _ _ (set _ _) _ => apply draws_set
  | |- draws _ _ (fill_rect _ _ _ _) _ => apply draws_fill_rect
  | |- draws _ _ (hline _ _ _) _ => apply draws_hline
  | |- draws _ _ (vline _ _ _) _ => apply draws_vline
  | |- draws _ _ (fill_circle _ _ _) _ => apply draws_fill_circle
  | |- draws _ _ (outline_circle _ _ _) _ =>
      apply draws_outline_circle_exact; first [assumption | lia]
  | |- draws _ _ (dither _) _ => apply draws_dither
  end.

(** A loop over [range(a, b)] with an invariant that knows the index. *)
Lemma for_range_inv {S : Type} (I : Z -> S -> Prop) (a b : Z)
    (body : Z -> S -> result S) (s : S) :
  a <= b -> I a s ->
  (forall i s0, a <= i < b -> I i s0 -> exists s1, body i s0 = Ok s1 /\ I (i + 1) s1) ->
  exists s', for_each (range a b) body s = Ok s' /\ I b s'.
Proof.
  intros Hab. remember (Z.to_nat (b - a)) as n eqn:En.
  revert a s Hab En. induction n as [|n IH]; intros a s Hab En Hs Hbody.
  - assert (a = b) as -> by lia. rewrite range_nil by lia. simpl. eauto.
  - rewrite range_cons by lia. simpl.
    destruct (Hbody a s) as (s1 & -> & Hs1); [lia | assumption |]. simpl.
    apply IH; [lia | lia | assumption |]. intros; apply Hbody; [lia | assumption].
Qed.

(** ** The drawing methods, further *)

Lemma Qle_bool_trans_false (a b d : Q) :
  Qle_bool a b = true -> Qle_bool a d = false -> Qle_bool b d = false.
Proof.
  intros Hab Had. destruct (Qle_bool b d) eqn:Hbd; [|reflexivity].
  apply Qle_bool_iff in Hab, Hbd.
  assert (H : Qle_bool a d = true) by (apply Qle_bool_iff; eapply Qle_trans; eassumption).
  congruence.
Qed.

Section CanvasLaws.
Context {FM : FloatModel}.

(** X1. A drawing method returns the very bitmap it was given exactly
    when it returns and every pixel of its region that lies in the grid is
    already on; with arguments in the range of a float it does return.  The
    region of [outline_circle] is the one the comparison of doubles
    [abs(d - r * r) <= r * 1.5] selects. *)
Theorem call_returns_same_bitmap_iff (d : draw_call) (bm : Bitmap) :
  wf bm ->
  (call_fits d -> exists bm', call d bm = Ok bm') /\
  (call d bm = Ok bm <->
   (exists bm', call d bm = Ok bm') /\
   forall x y, in_grid (bm_w bm) (bm_h bm) x y -> region d x y -> px bm x y = 1).
Proof.
  intros Hwf. split.
  { intros Hfits.
    destruct (call_draws (bm_w bm) (bm_h bm) d Hfits bm Hwf eq_refl eq_refl)
      as (bm' & E & _).
    exists bm'. exact E. }
  destruct (call_paints (bm_w bm) (bm_h bm) d) as [Hr|Hd].
  { rewrite (Hr bm Hwf eq_refl eq_refl). split; [discriminate|].
    intros [[bm' E] _]. discriminate E. }
  destruct (Hd bm Hwf eq_refl eq_refl) as (bm' & E & Hwf' & Hw & Hh & Hpx).
  rewrite E. split.
  - intros [= ->]. split; [exists bm; reflexivity|]. intros x y Hg Hr.
    destruct (Hpx x y) as [(_ & _ & H1) | [Hn _]]; [exact H1 | tauto].
  - intros [_ Hon]. f_equal. apply bitmap_ext; try assumption.
    intros x y Hg. rewrite Hw, Hh in Hg.
    destruct (Hpx x y) as [(_ & Hr & H1) | [_ H0]]; [|exact H0].
    rewrite H1. symmetry. apply Hon; assumption.
Qed.

(** X2. Degenerate arguments draw nothing: [set] off the grid, [fill_rect],
    [hline] and [vline] with an empty or off-grid extent, [dither] with a
    density below 0.25, [outline_circle] with a negative radius in the range
    of a float and [fill_triangle] with its three points on one row return
    the bitmap unchanged. *)
Theorem degenerate_call_is_noop (d : draw_call) (bm : Bitmap) :
  wf bm -> degenerate (bm_w bm) (bm_h bm) d -> call d bm = Ok bm.
Proof.
  intros Hwf Hdeg.
  destruct d as [x0 y0|x0 y0 x1 y1|y0 x0 x1|x0 y0 y1|density|cx cy r|cx cy r|[[p0 p1] p2]].
  8:{ destruct Hdeg as [E1 E2]. cbn [call]. unfold fill_triangle, for_range.
      apply for_each_skip. intros y _ bm0.
      unfold intersections. cbn [for_each].
      rewrite <- E2, <- E1, !Z.eqb_refl. reflexivity. }
  all: lazymatch goal with
       | |- call ?d _ = _ =>
           apply (draws_nothing (bm_w bm) (bm_h bm) (call d) (region d))
       end;
    [apply call_draws | | assumption | reflexivity | reflexivity];
    try exact I; try (apply Hdeg); intros x y [Hx Hy] Hr; simpl in Hdeg, Hr.
  - apply Hdeg. destruct Hr as [-> ->]. split; assumption.
  - lia.
  - lia.
  - lia.
  - unfold dither_pattern in Hr.
    rewrite (Qle_bool_trans_false (25 # 100) (75 # 100) density eq_refl Hdeg) in Hr.
    rewrite (Qle_bool_trans_false (25 # 100) (5 # 10) density eq_refl Hdeg) in Hr.
    rewrite Hdeg in Hr. exact Hr.
  - exact Hdeg.
  - destruct Hdeg as [Hneg _]. revert Hr. apply le_times_1_5_negative; lia.
Qed.

(** X3. Drawing calls commute and are idempotent: two calls in either order
    give the same bitmap, and a call repeated gives the bitmap of the call
    made once. *)
Theorem calls_commute_and_are_idempotent (d1 d2 : draw_call) (bm : Bitmap) :
  wf bm ->
  calls [d1; d2] bm = calls [d2; d1] bm /\
  calls [d1; d1] bm = calls [d1] bm.
Proof.
  intros Hwf.
  assert (Hraise : forall a b, raises (bm_w bm) (bm_h bm) (call a) ->
            calls [a; b] bm = Raise OverflowError /\
            calls [b; a] bm = Raise OverflowError /\
            calls [a] bm = Raise OverflowError).
  { intros a b Ha. unfold calls. cbn [for_each].
    rewrite (Ha bm Hwf eq_refl eq_refl).
    split; [reflexivity|]. split; [|reflexivity].
    destruct (call_paints (bm_w bm) (bm_h bm) b) as [Hb|Hb].
    - rewrite (Hb bm Hwf eq_refl eq_refl). reflexivity.
    - destruct (Hb bm Hwf eq_refl eq_refl) as (bm' & -> & Hwf' & Hw & Hh & _). simpl.
      rewrite (Ha bm' Hwf' Hw Hh). reflexivity. }
  destruct (call_paints (bm_w bm) (bm_h bm) d1) as [R1|D1].
  { destruct (Hraise d1 d2 R1) as (E12 & E21 & E1).
    destruct (Hraise d1 d1 R1) as (E11 & _ & _).
    rewrite E12, E21, E11, E1. split; reflexivity. }
  destruct (call_paints (bm_w bm) (bm_h bm) d2) as [R2|D2].
  { destruct (Hraise d2 d1 R2) as (E21 & E12 & _).
    rewrite E12, E21. split; [reflexivity|].
    clear Hraise R2.
    assert (Hpair : draws (bm_w bm) (bm_h bm) (calls [d1; d1])
                      (fun x y => region d1 x y \/ region d1 x y)).
    { eapply draws_weaken.
      - apply (draws_seq _ _ (call d1) (call d1 >> skip)); [exact D1|].
        apply draws_seq; [exact D1 | apply draws_skip].
      - intros x y _. simpl. tauto. }
    assert (Hone : draws (bm_w bm) (bm_h bm) (calls [d1]) (region d1)).
    { eapply draws_weaken.
      - apply (draws_seq _ _ (call d1) skip); [exact D1 | apply draws_skip].
      - intros x y _. simpl. tauto. }
    apply (draws_same _ _ _ _ _ _ Hpair Hone);
      [intros; tauto | assumption | reflexivity | reflexivity]. }
  assert (Hd : forall d, d = d1 \/ d = d2 -> draws (bm_w bm) (bm_h bm) (call d) (region d)).
  { intros d [-> | ->]; assumption. }
  assert (Hpair : forall a b, a = d1 \/ a = d2 -> b = d1 \/ b = d2 ->
                    draws (bm_w bm) (bm_h bm) (calls [a; b])
                    (fun x y => region a x y \/ region b x y)).
  { intros a b Ha Hb. eapply draws_weaken.
    - apply (draws_seq _ _ (call a) (call b >> skip)); [apply Hd, Ha|].
      apply draws_seq; [apply Hd, Hb | apply draws_skip].
    - intros x y _. simpl. tauto. }
  assert (Hone : draws (bm_w bm) (bm_h bm) (calls [d1]) (region d1)).
  { eapply draws_weaken.
    - apply (draws_seq _ _ (call d1) skip); [exact D1 | apply draws_skip].
    - intros x y _. simpl. tauto. }
  split.
  - apply (draws_same _ _ _ _ _ _ (Hpair d1 d2 ltac:(tauto) ltac:(tauto))
             (Hpair d2 d1 ltac:(tauto) ltac:(tauto)));
      [intros; tauto | assumption | reflexivity | reflexivity].
  - apply (draws_same _ _ _ _ _ _ (Hpair d1 d1 ltac:(tauto) ltac:(tauto)) Hone);
      [intros; tauto | assumption | reflexivity | reflexivity].
Qed.

(** X4. The dark shade is the complement of the light shade: on a fresh
    bitmap [dither] with a density of at least 0.75 sets exactly the grid
    pixels that [dither] with a density in [0.25, 0.5) leaves off (those not
    on an even row and an even column). *)
Theorem dark_shade_complements_light (light dark : Q) (w h x y : Z) :
  Qle_bool (25 # 100) light = true -> Qle_bool (5 # 10) light = false ->
  Qle_bool (75 # 100) dark = true ->
  in_grid w h x y ->
  (painted w h (dither dark) x y <-> ~ painted w h (dither light) x y) /\
  (painted w h (dither light) x y <-> x mod 2 = 0 /\ y mod 2 = 0).
Proof.
  intros Hl1 Hl2 Hd Hg.
  rewrite (draws_painted _ _ _ _ (draws_dither w h dark)).
  rewrite (draws_painted _ _ _ _ (draws_dither w h light)).
  unfold dither_pattern. rewrite Hd.
  rewrite (Qle_bool_trans_false (5 # 10) (75 # 100) light eq_refl Hl2), Hl2, Hl1.
  split; tauto.
Qed.

(** X5. [fill_circle] looks at the square of the radius only: a negative
    radius fills the disk of its absolute value, and radius 0 sets the
    centre alone. *)
Theorem fill_circle_ignores_sign_of_radius (cx cy r : Z) (bm : Bitmap) :
  wf bm ->
  fill_circle cx cy (- r) bm = fill_circle cx cy r bm /\
  fill_circle cx cy 0 bm = set cx cy bm.
Proof.
  intros Hwf. split.
  - apply (draws_same _ _ _ _ _ _ (draws_fill_circle (bm_w bm) (bm_h bm) cx cy (- r))
             (draws_fill_circle (bm_w bm) (bm_h bm) cx cy r));
      [|assumption | reflexivity | reflexivity].
    intros x y _. rewrite Z.mul_opp_opp. tauto.
  - apply (draws_same _ _ _ _ _ _ (draws_fill_circle (bm_w bm) (bm_h bm) cx cy 0)
             (draws_set (bm_w bm) (bm_h bm) cx cy));
      [|assumption | reflexivity | reflexivity].
    intros x y _. split; [|intros [-> ->]; lia].
    intros H. cbv beta in H. change (0 * 0) with 0 in H.
    pose proof (Z.square_nonneg (x - cx)). pose proof (Z.square_nonneg (y - cy)).
    assert (Hx : (x - cx) * (x - cx) = 0) by lia.
    assert (Hy : (y - cy) * (y - cy) = 0) by lia.
    apply Z.mul_eq_0 in Hx, Hy. lia.
Qed.

End CanvasLaws.

Lemma call_returns_same_bitmap_iff_witness :
  wf (Bitmap_init 3 2) /\
  call_fits (Call_outline_circle 9 9 2) /\
  (exists bm', call (Call_outline_circle 9 9 2) (Bitmap_init 3 2) = Ok bm') /\
  call (Call_hline 5 0 3) (Bitmap_init 3 2) = Ok (Bitmap_init 3 2).
Proof.
  assert (Hf : call_fits (Call_outline_circle 9 9 2)) by (vm_compute; reflexivity).
  split; [apply wf_init|]. split; [exact Hf|]. split.
  - destruct (call_returns_same_bitmap_iff (Call_outline_circle 9 9 2) (Bitmap_init 3 2)
                (wf_init 3 2)) as [Hret _].
    exact (Hret Hf).
  - destruct (call_returns_same_bitmap_iff (Call_hline 5 0 3) (Bitmap_init 3 2)
                (wf_init 3 2)) as [_ Hiff].
    apply Hiff. split; [exists (Bitmap_init 3 2); reflexivity|].
    intros x y [_ Hy] [-> _]. simpl in Hy. lia.
Defined.

Lemma degenerate_call_is_noop_witness :
  wf (Bitmap_init 3 2) /\ degenerate 3 2 (Call_fill_rect 2 0 1 2) /\
  call (Call_fill_rect 2 0 1 2) (Bitmap_init 3 2) = Ok (Bitmap_init 3 2).
Proof.
  assert (Hd : degenerate 3 2 (Call_fill_rect 2 0 1 2)) by (simpl; lia).
  split; [apply wf_init|]. split; [exact Hd|].
  apply (degenerate_call_is_noop (Call_fill_rect 2 0 1 2) (Bitmap_init 3 2)
           (wf_init 3 2) Hd).
Defined.

Lemma calls_commute_and_are_idempotent_witness :
  wf (Bitmap_init 4 4) /\
  calls [Call_fill_circle 1 1 1; Call_vline 2 0 4] (Bitmap_init 4 4)
  = calls [Call_vline 2 0 4; Call_fill_circle 1 1 1] (Bitmap_init 4 4).
Proof.
  split; [apply wf_init|].
  destruct (calls_commute_and_are_idempotent (Call_fill_circle 1 1 1) (Call_vline 2 0 4)
              (Bitmap_init 4 4) (wf_init 4 4)) as [Hcomm _].
  exact Hcomm.
Defined.

Lemma dark_shade_complements_light_witness :
  (Qle_bool (25 # 100) (25 # 100) = true /\ Qle_bool (5 # 10) (25 # 100) = false /\
   Qle_bool (75 # 100) (75 # 100) = true /\ in_grid 6 12 1 0) /\
  (painted 6 12 (dither (75 # 100)) 1 0 <-> ~ painted 6 12 (dither (25 # 100)) 1 0).
Proof.
  assert (Hg : in_grid 6 12 1 0) by (unfold in_grid; lia).
  split; [split; [reflexivity | split; [reflexivity | split; [reflexivity | exact Hg]]]|].
  destruct (dark_shade_complements_light (25 # 100) (75 # 100) 6 12 1 0
              eq_refl eq_refl eq_refl Hg) as [Hcompl _].
  exact Hcompl.
Defined.

Lemma fill_circle_ignores_sign_of_radius_witness :
  wf (Bitmap_init 5 5) /\
  fill_circle 2 2 (- 1) (Bitmap_init 5 5) = fill_circle 2 2 1 (Bitmap_init 5 5).
Proof.
  split; [apply wf_init|].
  destruct (fill_circle_ignores_sign_of_radius 2 2 1 (Bitmap_init 5 5) (wf_init 5 5))
    as [Hsign _].
  exact Hsign.
Defined.

(** ** Glyphs *)

(** The branch of [render_glyph] for a given code point. *)
Ltac glyph_branch :=
  lazy beta iota zeta delta
    [glyph_cmd Z.eqb Pos.eqb Z.leb Z.compare Pos.compare Pos.compare_cont andb].

(** Two glyph programs that paint the same pixels give the same bitmap. *)
Ltac same_glyph :=
  lazymatch goal with
  | |- _ (Bitmap_init ?w ?h) = _ => eapply (draws_same w h)
  end;
  [ glyph_branch; draw
  | glyph_branch; draw
  | let x := fresh "x" in let y := fresh "y" in
    intros x y [? ?]; cbv beta; lia
  | apply wf_init | reflexivity | reflexivity ].

(** The pixels of a glyph made of rectangles, lines and circles. *)
Ltac glyph_pixels :=
  lazymatch goal with
  | |- painted ?w ?h ?c ?x ?y <-> _ =>
      let H := fresh "Hdraw" in
      eassert (H : draws w h c _) by (glyph_branch; draw);
      rewrite (draws_painted _ _ _ _ H); clear H;
      unfold in_grid; cbv beta; lia
  end.

Ltac glyph_pixels_in H :=
  lazymatch type of H with
  | painted ?w ?h ?c ?x ?y =>
      let Hd := fresh "Hdraw" in
      eassert (Hd : draws w h c _) by (glyph_branch; draw);
      apply (draws_painted _ _ _ _ Hd) in H; clear Hd;
      unfold in_grid in H; cbv beta in H
  end.

Ltac glyph_painted :=
  lazymatch goal with
  | |- painted ?w ?h ?c ?x ?y =>
      let Hd := fresh "Hdraw" in
      eassert (Hd : draws w h c _) by (glyph_branch; draw);
      apply (draws_painted _ _ _ _ Hd); clear Hd;
      unfold in_grid; cbv beta
  end.

Section GlyphFamilies.
Context {FM : FloatModel}.

(** X6. The light box-drawing glyphs are made of the four half lines: each
    of the lines, corners, tees and the cross is the bitmap obtained by
    drawing its half lines ([0x2574] left, [0x2575] up, [0x2576] right,
    [0x2577] down) one over the other, at every cell size. *)
Theorem box_glyphs_are_unions_of_half_lines (w h : Z) :
  let left := glyph_cmd 0x2574 w h in
  let up := glyph_cmd 0x2575 w h in
  let right := glyph_cmd 0x2576 w h in
  let down := glyph_cmd 0x2577 w h in
  let fresh := Bitmap_init w h in
  render_glyph 0x2500 w h = (left >> right) fresh /\
  render_glyph 0x2502 w h = (up >> down) fresh /\
  render_glyph 0x250C w h = (right >> down) fresh /\
  render_glyph 0x2510 w h = (left >> down) fresh /\
  render_glyph 0x2514 w h = (up >> right) fresh /\
  render_glyph 0x2518 w h = (left >> up) fresh /\
  render_glyph 0x251C w h = (up >> down >> right) fresh /\
  render_glyph 0x2524 w h = (up >> down >> left) fresh /\
  render_glyph 0x252C w h = (left >> right >> down) fresh /\
  render_glyph 0x2534 w h = (left >> right >> up) fresh /\
  render_glyph 0x253C w h = (left >> right >> up >> down) fresh.
Proof.
  cbv zeta. unfold render_glyph.
  repeat apply conj; same_glyph.
Qed.

(** X7. The straight box-drawing glyphs, at every cell size: the light
    horizontal line is the whole row [h // 2] and the light vertical line
    the whole column [w // 2]; the double lines are the rows (columns) one
    above and one below the centre, the heavy lines those three rows
    (columns) together; the full block is every pixel of the cell. *)
Theorem straight_lines_run_through_the_centre (w h x y : Z) :
  (painted w h (glyph_cmd 0x2500 w h) x y <-> in_grid w h x y /\ y = h / 2) /\
  (painted w h (glyph_cmd 0x2502 w h) x y <-> in_grid w h x y /\ x = w / 2) /\
  (painted w h (glyph_cmd 0x2550 w h) x y <->
     in_grid w h x y /\ (y = h / 2 - 1 \/ y = h / 2 + 1)) /\
  (painted w h (glyph_cmd 0x2551 w h) x y <->
     in_grid w h x y /\ (x = w / 2 - 1 \/ x = w / 2 + 1)) /\
  (painted w h (glyph_cmd 0x2501 w h) x y <->
     in_grid w h x y /\ h / 2 - 1 <= y <= h / 2 + 1) /\
  (painted w h (glyph_cmd 0x2503 w h) x y <->
     in_grid w h x y /\ w / 2 - 1 <= x <= w / 2 + 1) /\
  (painted w h (glyph_cmd 0x2588 w h) x y <-> in_grid w h x y).
Proof. do 6 (split; [glyph_pixels|]). glyph_pixels. Qed.

(** X8. The half blocks and the quadrant glyphs are made of the four
    single quadrants ([0x2598] upper left, [0x259D] upper right, [0x2596]
    lower left, [0x2597] lower right): each is the bitmap obtained by drawing
    its quadrants one over the other, the four together are the full block,
    and no pixel belongs to two quadrants. *)
Theorem blocks_are_unions_of_quadrants (w h : Z) :
  let ul := glyph_cmd 0x2598 w h in
  let ur := glyph_cmd 0x259D w h in
  let ll := glyph_cmd 0x2596 w h in
  let lr := glyph_cmd 0x2597 w h in
  let fresh := Bitmap_init w h in
  (render_glyph 0x2580 w h = (ul >> ur) fresh /\
   render_glyph 0x2584 w h = (ll >> lr) fresh /\
   render_glyph 0x258C w h = (ul >> ll) fresh /\
   render_glyph 0x2590 w h = (ur >> lr) fresh /\
   render_glyph 0x2588 w h = (ul >> ur >> ll >> lr) fresh /\
   render_glyph 0x2599 w h = (ul >> ll >> lr) fresh /\
   render_glyph 0x259A w h = (ul >> lr) fresh /\
   render_glyph 0x259B w h = (ul >> ur >> ll) fresh /\
   render_glyph 0x259C w h = (ul >> ur >> lr) fresh /\
   render_glyph 0x259E w h = (ur >> ll) fresh /\
   render_glyph 0x259F w h = (ur >> ll >> lr) fresh) /\
  (forall x y,
     ~ (painted w h ul x y /\ painted w h ur x y) /\
     ~ (painted w h ul x y /\ painted w h ll x y) /\
     ~ (painted w h ul x y /\ painted w h lr x y) /\
     ~ (painted w h ur x y /\ painted w h ll x y) /\
     ~ (painted w h ur x y /\ painted w h lr x y) /\
     ~ (painted w h ll x y /\ painted w h lr x y)).
Proof.
  cbv zeta. unfold render_glyph. split.
  - repeat apply conj; same_glyph.
  - intros x y.
    repeat apply conj; intros [H1 H2]; glyph_pixels_in H1; glyph_pixels_in H2; lia.
Qed.

(** X9. The bar glyphs grow with their fraction.  Unless the cell is 3
    pixels high, each lower block (1/8, 1/4, 3/8, 1/2, 5/8, 3/4, 7/8, full)
    contains the one before it; unless the cell is 1 pixel wide, so does each
    left block.  In a cell of at least one pixel the thinnest bars still have
    a pixel: the bottom row, the left column. *)
Theorem bar_glyphs_are_nested (w h x y : Z) :
  (h <> 3 ->
   (painted w h (glyph_cmd 0x2581 w h) x y -> painted w h (glyph_cmd 0x2582 w h) x y) /\
   (painted w h (glyph_cmd 0x2582 w h) x y -> painted w h (glyph_cmd 0x2583 w h) x y) /\
   (painted w h (glyph_cmd 0x2583 w h) x y -> painted w h (glyph_cmd 0x2584 w h) x y) /\
   (painted w h (glyph_cmd 0x2584 w h) x y -> painted w h (glyph_cmd 0x2585 w h) x y) /\
   (painted w h (glyph_cmd 0x2585 w h) x y -> painted w h (glyph_cmd 0x2586 w h) x y) /\
   (painted w h (glyph_cmd 0x2586 w h) x y -> painted w h (glyph_cmd 0x2587 w h) x y) /\
   (painted w h (glyph_cmd 0x2587 w h) x y -> painted w h (glyph_cmd 0x2588 w h) x y)) /\
  (w <> 1 ->
   (painted w h (glyph_cmd 0x258F w h) x y -> painted w h (glyph_cmd 0x258E w h) x y) /\
   (painted w h (glyph_cmd 0x258E w h) x y -> painted w h (glyph_cmd 0x258D w h) x y) /\
   (painted w h (glyph_cmd 0x258D w h) x y -> painted w h (glyph_cmd 0x258C w h) x y) /\
   (painted w h (glyph_cmd 0x258C w h) x y -> painted w h (glyph_cmd 0x258B w h) x y) /\
   (painted w h (glyph_cmd 0x258B w h) x y -> painted w h (glyph_cmd 0x258A w h) x y) /\
   (painted w h (glyph_cmd 0x258A w h) x y -> painted w h (glyph_cmd 0x2589 w h) x y) /\
   (painted w h (glyph_cmd 0x2589 w h) x y -> painted w h (glyph_cmd 0x2588 w h) x y)) /\
  (in_grid w h x y ->
   painted w h (glyph_cmd 0x2581 w h) x (h - 1) /\
   painted w h (glyph_cmd 0x258F w h) 0 y).
Proof.
  split; [|split].
  - intros Hh. repeat apply conj; intros H; glyph_pixels_in H; glyph_painted;
      Z.div_mod_to_equations; lia.
  - intros Hw. repeat apply conj; intros H; glyph_pixels_in H; glyph_painted;
      Z.div_mod_to_equations; lia.
  - intros [Hx Hy]. split; glyph_painted; Z.div_mod_to_equations; lia.
Qed.

(** X10. The missing glyph is the outline of the cell: its pixels that
    are on are those of the first and last row and the first and last
    column. *)
Theorem missing_glyph_is_the_cell_outline (cw ch x y : Z) :
  exists m, missing_glyph cw ch = Ok m /\
    (px m x y = 1 <->
     in_grid cw ch x y /\ (x = 0 \/ x = cw - 1 \/ y = 0 \/ y = ch - 1)).
Proof.
  unfold missing_glyph.
  eassert (Hd : draws cw ch
            (fill_rect 0 0 cw 1 >> fill_rect 0 (ch - 1) cw ch >>
             fill_rect 0 0 1 ch >> fill_rect (cw - 1) 0 cw ch) _) by draw.
  destruct (Hd (Bitmap_init cw ch) (wf_init cw ch) eq_refl eq_refl)
    as (m & E & _ & _ & _ & Hpx).
  exists m. split; [exact E|].
  destruct (Hpx x y) as [(Hg & HP & H1) | [Hn H0]].
  - rewrite H1. unfold in_grid in *. cbv beta in HP. split; [intros _; lia | reflexivity].
  - rewrite H0, px_init. unfold in_grid in *. cbv beta in Hn.
    split; [discriminate | intros; exfalso; apply Hn; lia].
Qed.

End GlyphFamilies.

Lemma bar_glyphs_are_nested_witness :
  (12 <> 3 /\ 6 <> 1 /\ in_grid 6 12 2 11) /\
  (painted 6 12 (glyph_cmd 0x2584 6 12) 2 11 -> painted 6 12 (glyph_cmd 0x2585 6 12) 2 11) /\
  painted 6 12 (glyph_cmd 0x2581 6 12) 2 11.
Proof.
  assert (Hg : in_grid 6 12 2 11) by (unfold in_grid; lia).
  split; [split; [lia | split; [lia | exact Hg]]|].
  destruct (bar_glyphs_are_nested 6 12 2 11) as (Hlower & _ & Hthin).
  destruct (Hlower ltac:(lia)) as (_ & _ & _ & H45 & _).
  destruct (Hthin Hg) as [Hbottom _].
  split; [exact H45 | exact Hbottom].
Defined.
(** ** The encoder: hexadecimal text read back *)

Lemma hex_value_digit (d : Z) : 0 <= d < 16 -> hex_value (hex_digit d) = d.
Proof.
  intros Hd.
  assert (E : d = 0 \/ d = 1 \/ d = 2 \/ d = 3 \/ d = 4 \/ d = 5 \/ d = 6 \/ d = 7 \/
              d = 8 \/ d = 9 \/ d = 10 \/ d = 11 \/ d = 12 \/ d = 13 \/ d = 14 \/ d = 15)
    by lia.
  repeat (destruct E as [-> | E]; [reflexivity|]). subst d. reflexivity.
Qed.

Lemma parse_hex_digits (fuel : nat) (n : Z) (acc : list ascii) :
  0 <= n < 16 ^ Z.of_nat fuel ->
  foldl (fun a c => a * 16 + hex_value c) 0 (hex_digits fuel n acc) =
  foldl (fun a c => a * 16 + hex_value c) n acc.
Proof.
  revert n acc. induction fuel as [|fuel IH]; intros n acc Hn.
  - simpl in *. assert (n = 0) as -> by lia. reflexivity.
  - cbn [hex_digits]. destruct (Z.ltb_spec n 16) as [Hlt|Hge].
    + cbn [foldl]. rewrite hex_value_digit by lia. reflexivity.
    + rewrite IH.
      * cbn [foldl]. rewrite hex_value_digit by (apply Z.mod_pos_bound; lia).
        f_equal. pose proof (Z.div_mod n 16). lia.
      * rewrite Nat2Z.inj_succ, Z.pow_succ_r in Hn by lia.
        split; [apply Z.div_pos; lia | apply Z.div_lt_upper_bound; lia].
Qed.

Lemma parse_hex_zeros (k : nat) (s : list ascii) :
  parse_hex (replicate k "0"%char ++ s) = parse_hex s.
Proof. induction k as [|k IH]; [reflexivity | exact IH]. Qed.

Lemma parse_format_X (width : nat) (v : Z) : 0 <= v -> parse_hex (format_X width v) = v.
Proof.
  intros Hv. unfold format_X. destruct (Z.ltb_spec v 0) as [|_]; [lia|].
  rewrite parse_hex_zeros. unfold parse_hex. rewrite Z.abs_eq by lia.
  rewrite parse_hex_digits; [reflexivity|]. split; [lia|].
  rewrite Nat2Z.inj_succ, Z2Nat.id by apply Z.log2_nonneg.
  destruct (Z.eq_dec v 0) as [->|Hnz]; [reflexivity|].
  pose proof (Z.log2_spec v ltac:(lia)) as [_ Hlt].
  eapply Z.lt_le_trans; [exact Hlt|].
  apply Z.pow_le_mono_l. lia.
Qed.

Lemma hex_groups_concat (n : nat) (vs : list Z) (rest : list ascii) :
  Forall (fun v => 0 <= v /\ length (format_X n v) = n) vs ->
  hex_groups n (length vs) (concat (format_X n <$> vs) ++ rest) = vs.
Proof.
  induction 1 as [|v vs [Hv Hn] _ IH]; [reflexivity|].
  cbn [fmap list_fmap concat length hex_groups]. rewrite <- app_assoc.
  rewrite take_app_length' by (symmetry; exact Hn).
  rewrite drop_app_length' by (symmetry; exact Hn).
  rewrite parse_format_X by exact Hv. f_equal. exact IH.
Qed.

Lemma hex_groups_format (n : nat) (vs : list Z) :
  n <> 0%nat ->
  Forall (fun v => 0 <= v /\ length (format_X n v) = n) vs ->
  hex_groups n (length (concat (format_X n <$> vs)) / n) (concat (format_X n <$> vs)) = vs.
Proof.
  intros Hn Hvs. rewrite (length_concat_uniform _ n).
  2:{ apply Forall_fmap. eapply Forall_impl; [exact Hvs|]. intros v [_ H]; exact H. }
  rewrite length_fmap, Nat.div_mul by exact Hn.
  rewrite <- (app_nil_r (concat _)). apply hex_groups_concat, Hvs.
Qed.

Lemma bytes_of_hex_format (bytes : list Z) :
  Forall (fun b => 0 <= b < 256) bytes ->
  bytes_of_hex (concat (format_X 2 <$> bytes)) = bytes.
Proof.
  intros Hb. apply hex_groups_format; [discriminate|].
  eapply Forall_impl; [exact Hb|]. intros b Hb'. cbv beta in Hb'.
  split; [lia | apply format_X_2_length, Hb'].
Qed.

Lemma words_of_hex_format (ws : list Z) :
  Forall (fun w => 0 <= w < 65536) ws ->
  words_of_hex (concat (format_X 4 <$> ws)) = ws.
Proof.
  intros Hw. apply hex_groups_format; [discriminate|].
  eapply Forall_impl; [exact Hw|]. intros w Hw'. cbv beta in Hw'.
  split; [lia | apply format_X_4_length, Hw'].
Qed.

(** ** The encoder: from glyph bitmaps to strike bits *)

Lemma read_px_px (bm : Bitmap) (x y : Z) :
  wf bm -> in_grid (bm_w bm) (bm_h bm) x y -> read_px bm y x = Ok (px bm x y).
Proof.
  intros [Hlen Hrows] [Hx Hy]. unfold read_px, px.
  rewrite py_index_ok by lia. simpl.
  destruct (Z.leb_spec 0 x), (Z.leb_spec 0 y); try lia. simpl.
  destruct (pixels bm !! Z.to_nat y) as [row|] eqn:Erow.
  2:{ apply lookup_ge_None in Erow. lia. }
  assert (Hrow : length row = Z.to_nat (bm_w bm)).
  { rewrite Forall_forall in Hrows. apply Hrows. eapply list_elem_of_lookup_2; eauto. }
  unfold list_read. rewrite py_index_ok by lia. simpl.
  destruct (row !! Z.to_nat x) as [v|] eqn:Ev; [reflexivity|].
  apply lookup_ge_None in Ev. lia.
Qed.

Lemma enumerate_snoc {A : Type} (l : list A) (a : A) :
  enumerate (l ++ [a]) = enumerate l ++ [(Z.of_nat (length l), a)].
Proof.
  unfold enumerate. rewrite imap_app. simpl. rewrite Nat.add_0_r. reflexivity.
Qed.

(** A loop over [enumerate(l)] whose invariant follows the index. *)
Lemma for_each_enumerate_inv {A S : Type} (I : Z -> S -> Prop) (l : list A)
    (body : Z * A -> S -> result S) (s : S) :
  I 0 s ->
  (forall i a s0, l !! Z.to_nat i = Some a -> 0 <= i -> I i s0 ->
     exists s1, body (i, a) s0 = Ok s1 /\ I (i + 1) s1) ->
  exists s', for_each (enumerate l) body s = Ok s' /\ I (Z.of_nat (length l)) s'.
Proof.
  intros Hs. induction l as [|a l IH] using rev_ind; intros Hbody.
  - simpl. eauto.
  - rewrite enumerate_snoc, for_each_app.
    destruct IH as (s1 & -> & Hs1).
    { intros i b s0 Hb Hi. apply Hbody; [|exact Hi].
      rewrite lookup_app_l; [exact Hb|]. eapply lookup_lt_Some; eauto. }
    rewrite bind_Ok. simpl.
    destruct (Hbody (Z.of_nat (length l)) a s1) as (s2 & -> & Hs2); [| lia | exact Hs1 |].
    { rewrite Nat2Z.id, lookup_app_r, Nat.sub_diag by lia. reflexivity. }
    exists s2. split; [reflexivity|].
    rewrite length_app. simpl length. rewrite Nat2Z.inj_add. exact Hs2.
Qed.

Section StrikeLayout.
Context {FM : FloatModel}.

(** The strike row as a function of the glyph bitmaps. *)
Lemma strike_row_bits (gl : list Bitmap) (cw ch row_bits y : Z) :
  Forall (cell_bitmap cw ch) gl ->
  Z.of_nat (length gl) * cw <= row_bits ->
  0 <= y ->
  exists row, strike_row gl cw row_bits y = Ok row /\
    length row = Z.to_nat row_bits /\
    (forall gi bm x, gl !! gi = Some bm -> 0 <= x < cw ->
       row !! Z.to_nat (Z.of_nat gi * cw + x) = Some (if px bm x y =? 0 then 0 else 1)) /\
    (forall j, 0 <= j < row_bits -> Z.of_nat (length gl) * cw <= j ->
       row !! Z.to_nat j = Some 0).
Proof.
  intros Hgl Hbits Hy. unfold strike_row.
  pose (I := fun (g : Z) (row : list Z) =>
    length row = Z.to_nat row_bits /\
    (forall gi bm x, Z.of_nat gi < g -> gl !! gi = Some bm -> 0 <= x < cw ->
       row !! Z.to_nat (Z.of_nat gi * cw + x) = Some (if px bm x y =? 0 then 0 else 1)) /\
    (forall j, 0 <= j < row_bits -> g * cw <= j -> row !! Z.to_nat j = Some 0)).
  destruct (for_each_enumerate_inv I gl
    (fun gbm row =>
       let '(gi, bm) := gbm in
       let x_offset := gi * cw in
       for_each (range 0 cw) (fun x row =>
         if (y <? bm_h bm) && (x <? bm_w bm) then
           v ← read_px bm y x;
           if v =? 0 then Ok row else list_store row (x_offset + x) 1
         else Ok row) row)
    (replicate (Z.to_nat row_bits) 0)) as (row & E & Hlen & Hgly & Hpad).
  { split; [apply length_replicate|]. split; [intros; lia|].
    intros j Hj _. apply lookup_replicate_2. lia. }
  { intros g bm row Hbm Hg (Hlen & Hgly & Hpad). cbv zeta.
    assert (Hcell : cell_bitmap cw ch bm).
    { rewrite Forall_forall in Hgl. apply Hgl. eapply list_elem_of_lookup_2; eauto. }
    destruct Hcell as (Hwf & Hw & Hh).
    assert (Hglen : g < Z.of_nat (length gl)).
    { apply lookup_lt_Some in Hbm. lia. }
    destruct (Z.le_gt_cases 0 cw) as [Hcw|Hcw].
    2:{ rewrite range_nil by lia. simpl. exists row. split; [reflexivity|].
        split; [exact Hlen|]. split.
        - intros gi b x _ _ Hx. lia.
        - intros j Hj Hge. apply Hpad; [exact Hj | nia]. }
    pose (J := fun (x : Z) (row : list Z) =>
      length row = Z.to_nat row_bits /\
      (forall gi b x', Z.of_nat gi < g -> gl !! gi = Some b -> 0 <= x' < cw ->
         row !! Z.to_nat (Z.of_nat gi * cw + x') = Some (if px b x' y =? 0 then 0 else 1)) /\
      (forall x', 0 <= x' < x ->
         row !! Z.to_nat (g * cw + x') = Some (if px bm x' y =? 0 then 0 else 1)) /\
      (forall j, 0 <= j < row_bits -> g * cw + x <= j -> row !! Z.to_nat j = Some 0)).
    destruct (for_range_inv J 0 cw
      (fun x row =>
         if (y <? bm_h bm) && (x <? bm_w bm) then
           v ← read_px bm y x;
           if v =? 0 then Ok row else list_store row (g * cw + x) 1
         else Ok row) row Hcw) as (row' & E' & Hlen' & Hold & Hnew & Hpad').
    { split; [exact Hlen|]. split; [exact Hgly|]. split; [intros; lia|].
      intros j Hj Hge. apply Hpad; [exact Hj | lia]. }
    { intros x r Hx (Hl & Ho & Hn & Hp).
      assert (Hin : 0 <= g * cw + x < row_bits) by nia.
      destruct ((y <? bm_h bm) && (x <? bm_w bm)) eqn:Ein.
      - apply andb_true_iff in Ein as [Hyh Hxw]. apply Z.ltb_lt in Hyh, Hxw.
        rewrite (read_px_px bm x y Hwf) by (unfold in_grid; lia). rewrite bind_Ok.
        destruct (Z.eqb_spec (px bm x y) 0) as [Ez|Enz].
        + exists r. split; [reflexivity|]. split; [exact Hl|]. split; [exact Ho|]. split.
          * intros x' Hx'. destruct (Z.eq_dec x' x) as [->|Hne].
            -- rewrite Ez. simpl. apply Hp; lia.
            -- apply Hn. lia.
          * intros j Hj Hge. apply Hp; [exact Hj | lia].
        + unfold list_store. rewrite py_index_ok by lia. simpl.
          eexists. split; [reflexivity|]. split; [rewrite length_insert; exact Hl|].
          split; [|split].
          * intros gi b x' Hgi Hb Hx'.
            rewrite list_lookup_insert_ne by nia. apply Ho; assumption.
          * intros x' Hx'. destruct (Z.eq_dec x' x) as [->|Hne].
            -- rewrite list_lookup_insert_eq by lia.
               destruct (Z.eqb_spec (px bm x y) 0); [contradiction | reflexivity].
            -- rewrite list_lookup_insert_ne by lia. apply Hn. lia.
          * intros j Hj Hge. rewrite list_lookup_insert_ne by lia.
            apply Hp; [exact Hj | lia].
      - exists r. split; [reflexivity|]. split; [exact Hl|]. split; [exact Ho|]. split.
        + intros x' Hx'. destruct (Z.eq_dec x' x) as [->|Hne].
          * rewrite px_outside.
            -- simpl. apply Hp; lia.
            -- exact Hwf.
            -- apply andb_false_iff in Ein. unfold in_grid.
               destruct Ein as [Ein|Ein]; apply Z.ltb_ge in Ein; lia.
          * apply Hn. lia.
        + intros j Hj Hge. apply Hp; [exact Hj | lia]. }
    exists row'. split; [exact E'|]. split; [exact Hlen'|]. split.
    - intros gi b x Hgi Hb Hx.
      destruct (Z.eq_dec (Z.of_nat gi) g) as [Eg|Hne].
      + subst g. rewrite Nat2Z.id in Hbm. rewrite Hb in Hbm. injection Hbm as ->.
        apply Hnew. exact Hx.
      + apply Hold; [lia | exact Hb | exact Hx].
    - intros j Hj Hge. apply Hpad'; [exact Hj | lia]. }
  exists row. split; [exact E|]. split; [exact Hlen|]. split.
  - intros gi bm x Hbm Hx. apply (Hgly gi bm x); [|exact Hbm | exact Hx].
    apply lookup_lt_Some in Hbm. lia.
  - intros j Hj Hge. apply Hpad; [exact Hj | exact Hge].
Qed.

End StrikeLayout.

(** The bytes of a row as a function of its pixels. *)
Lemma pack_row_bits (row : list Z) (row_bits : Z) :
  exists row_bytes, pack_row row row_bits = Ok row_bytes /\
    length row_bytes = Z.to_nat ((row_bits + 7) / 8) /\
    forall k b, row_bytes !! k = Some b ->
      0 <= b < 256 /\
      forall j, 0 <= j < 8 ->
        Z.testbit b (7 - j) =
        match row !! Z.to_nat (Z.of_nat k * 8 + j) with
        | Some v => negb (v =? 0)
        | None => false
        end.
Proof.
  unfold pack_row, range_step. simpl.
  set (starts := (fun k => 0 + Z.of_nat k * 8) <$> seq 0 (Z.to_nat ((row_bits - 0 + 8 - 1) / 8))).
  pose (expected := fun j : Z =>
    match row !! Z.to_nat j with Some v => negb (v =? 0) | None => false end).
  destruct (for_each_collect
    (fun i => for_each (range 0 8) (fun bit byte =>
       if i + bit <? Z.of_nat (length row) then
         v ← list_read row (i + bit);
         if v =? 0 then Ok byte else Ok (Z.lor byte (Z.shiftr 0x80 bit))
       else Ok byte) 0)
    (fun i b => 0 <= b < 256 /\
       forall j, 0 <= j < 8 -> Z.testbit b (7 - j) = expected (i + j))
    starts []) as (bytes & E & HQ).
  { intros i Hi. apply list_elem_of_fmap in Hi as (k & -> & _).
    set (i := 0 + Z.of_nat k * 8). assert (Hi : 0 <= i) by (subst i; lia).
    destruct (for_range_inv (fun bit byte => 0 <= byte < 256 /\
                forall j, 0 <= j < 8 ->
                  Z.testbit byte (7 - j) = if j <? bit then expected (i + j) else false)
              0 8
              (fun bit byte =>
                 if i + bit <? Z.of_nat (length row) then
                   v ← list_read row (i + bit);
                   if v =? 0 then Ok byte else Ok (Z.lor byte (Z.shiftr 0x80 bit))
                 else Ok byte) 0) as (b & Eb & Hb & Hbits); [lia | | |].
    - split; [lia|]. intros j Hj. rewrite Z.bits_0.
      destruct (Z.ltb_spec j 0); [lia | reflexivity].
    - intros bit byte Hbit (Hbyte & Hbits).
      assert (Hkeep : expected (i + bit) = false ->
                forall j, 0 <= j < 8 ->
                  Z.testbit byte (7 - j) = if j <? bit + 1 then expected (i + j) else false).
      { intros Hexp j Hj. rewrite Hbits by exact Hj.
        destruct (Z.ltb_spec j bit), (Z.ltb_spec j (bit + 1)); try lia; try reflexivity.
        assert (j = bit) as -> by lia. symmetry. exact Hexp. }
      destruct (Z.ltb_spec (i + bit) (Z.of_nat (length row))) as [Hlt|Hge].
      + unfold list_read. rewrite py_index_ok by lia. simpl.
        destruct (row !! Z.to_nat (i + bit)) as [v|] eqn:Ev.
        2:{ apply lookup_ge_None in Ev. lia. }
        simpl. destruct (Z.eqb_spec v 0) as [Ez|Enz].
        * exists byte. split; [reflexivity|]. split; [exact Hbyte|].
          apply Hkeep. unfold expected. rewrite Ev, Ez. reflexivity.
        * eexists. split; [reflexivity|]. split.
          { apply lor_byte; [exact Hbyte|].
            assert (Ebit : bit = 0 \/ bit = 1 \/ bit = 2 \/ bit = 3 \/ bit = 4 \/
                           bit = 5 \/ bit = 6 \/ bit = 7) by lia.
            destruct Ebit as [-> | [-> | [-> | [-> | [-> | [-> | [-> | ->]]]]]]];
              vm_compute; split; congruence. }
          intros j Hj. rewrite Z.lor_spec, Z.shiftr_spec by lia.
          change 128 with (2 ^ 7). rewrite Z.pow2_bits_eqb by lia.
          rewrite Hbits by exact Hj.
          destruct (Z.ltb_spec j bit), (Z.ltb_spec j (bit + 1)),
                   (Z.eqb_spec 7 (7 - j + bit)); try lia; simpl;
            try reflexivity; try apply orb_false_r.
          assert (j = bit) as -> by lia. unfold expected. rewrite Ev.
          destruct (Z.eqb_spec v 0); [contradiction | reflexivity].
      + exists byte. split; [reflexivity|]. split; [exact Hbyte|].
        apply Hkeep. unfold expected.
        rewrite (proj2 (lookup_ge_None row (Z.to_nat (i + bit)))) by lia. reflexivity.
    - exists b. split; [exact Eb|]. split; [exact Hb|].
      intros j Hj. rewrite Hbits by exact Hj.
      destruct (Z.ltb_spec j 8); [reflexivity | lia]. }
  exists bytes. split; [exact E|]. split.
  - rewrite <- (Forall2_length _ _ _ HQ). unfold starts.
    rewrite length_fmap, length_seq. f_equal. f_equal. lia.
  - intros k b Hk.
    destruct (Forall2_lookup_r _ _ _ _ _ HQ Hk) as (i & Hi & Hb & Hbits).
    unfold starts in Hi. rewrite list_lookup_fmap in Hi.
    destruct (seq 0 _ !! k) as [k'|] eqn:Ek; [|discriminate].
    apply lookup_seq in Ek as [-> _]. injection Hi as <-.
    split; [exact Hb|]. intros j Hj. rewrite Hbits by exact Hj.
    unfold expected. simpl. reflexivity.
Qed.

Section StrikeText.
Context {FM : FloatModel}.

(** A bit of the printed strike row is the pixel of the row it was packed
    from. *)
Lemma strike_bit_of_row (row row_bytes : list Z) (row_bits j : Z) :
  length row = Z.to_nat row_bits ->
  length row_bytes = Z.to_nat ((row_bits + 7) / 8) ->
  (forall k b, row_bytes !! k = Some b ->
     0 <= b < 256 /\
     forall j, 0 <= j < 8 ->
       Z.testbit b (7 - j) =
       match row !! Z.to_nat (Z.of_nat k * 8 + j) with
       | Some v => negb (v =? 0)
       | None => false
       end) ->
  0 <= j ->
  strike_bit (concat (format_X 2 <$> row_bytes)) j =
  match row !! Z.to_nat j with Some v => negb (v =? 0) | None => false end.
Proof.
  intros Hrow Hbytes Hbits Hj. unfold strike_bit.
  rewrite bytes_of_hex_format.
  2:{ apply Forall_lookup. intros k b Hk. apply (Hbits k b Hk). }
  pose proof (Z.div_mod j 8 ltac:(lia)) as Hdm.
  pose proof (Z.mod_pos_bound j 8 ltac:(lia)) as Hm.
  destruct (row_bytes !! Z.to_nat (j / 8)) as [b|] eqn:Eb.
  - destruct (Hbits _ _ Eb) as [_ Hb]. rewrite (Hb (j mod 8) Hm).
    rewrite Z2Nat.id by (apply Z.div_pos; lia).
    replace (j / 8 * 8 + j mod 8) with j by lia. reflexivity.
  - apply lookup_ge_None in Eb.
    rewrite (proj2 (lookup_ge_None row (Z.to_nat j))); [reflexivity|].
    rewrite Hrow. rewrite Hbytes in Eb.
    pose proof (Z.div_mod (row_bits + 7) 8 ltac:(lia)).
    pose proof (Z.mod_pos_bound (row_bits + 7) 8 ltac:(lia)).
    assert (0 <= j / 8) by (apply Z.div_pos; lia).
    lia.
Qed.

(** The strike text of [pack_nfnt] as a function of the glyph list. *)
Lemma pack_nfnt_strike (pt cw ch asc dsc lead : Z) (gl : list Bitmap) :
  glyph_bitmaps_of cw ch = Ok gl ->
  exists data m,
    pack_nfnt pt cw ch asc dsc lead = Ok data /\
    missing_glyph cw ch = Ok m /\
    length (strike_hex data) = Z.to_nat ch /\
    forall y row_hex, strike_hex data !! y = Some row_hex ->
      Z.of_nat y < ch /\
      (forall gi bm x, (gl ++ [m]) !! gi = Some bm -> 0 <= x < cw ->
         strike_bit row_hex (Z.of_nat gi * cw + x) = negb (px bm x (Z.of_nat y) =? 0)) /\
      (forall j, 0 <= j -> (num_chars + 1) * cw <= j -> strike_bit row_hex j = false).
Proof.
  intros Egl. unfold pack_nfnt. fold num_chars. cbv zeta.
  set (rw := ((num_chars + 1) * cw + 15) / 16).
  destruct (glyph_bitmaps_of_returned cw ch gl Egl) as (Hlen & Hgl & _).
  rewrite Egl, bind_Ok.
  destruct (missing_glyph_ok cw ch) as (m & Em & Hm). rewrite Em, bind_Ok.
  assert (Hall : Forall (cell_bitmap cw ch) (gl ++ [m])).
  { apply Forall_app. split; [exact Hgl | constructor; [exact Hm | constructor]]. }
  assert (Hcount : Z.of_nat (length (gl ++ [m])) = num_chars + 1).
  { rewrite length_app. simpl length. lia. }
  assert (Hbits : Z.of_nat (length (gl ++ [m])) * cw <= rw * 16).
  { rewrite Hcount. subst rw.
    pose proof (Z.div_mod ((num_chars + 1) * cw + 15) 16).
    pose proof (Z.mod_pos_bound ((num_chars + 1) * cw + 15) 16). lia. }
  pose (Q1 := fun (y : Z) (row : list Z) =>
    length row = Z.to_nat (rw * 16) /\
    (forall gi bm x, (gl ++ [m]) !! gi = Some bm -> 0 <= x < cw ->
       row !! Z.to_nat (Z.of_nat gi * cw + x) = Some (if px bm x y =? 0 then 0 else 1)) /\
    (forall j, 0 <= j < rw * 16 -> Z.of_nat (length (gl ++ [m])) * cw <= j ->
       row !! Z.to_nat j = Some 0)).
  destruct (for_each_collect (fun y => strike_row (gl ++ [m]) cw (rw * 16) y)
              Q1 (range 0 ch) []) as (rows & -> & Hrows).
  { intros y Hy. apply elem_of_range in Hy.
    apply (strike_row_bits _ cw ch); [exact Hall | exact Hbits | lia]. }
  rewrite bind_Ok. change ([] ++ rows) with rows.
  pose (f := fun row : list Z =>
    row_bytes ← pack_row row (rw * 16); Ok (concat (format_X 2 <$> row_bytes))).
  rewrite (for_each_ext _ _ (fun row acc => b ← f row; Ok (acc ++ [b]))).
  2:{ intros row acc _. unfold f. destruct (pack_row row (rw * 16)); reflexivity. }
  pose (Q2 := fun (row : list Z) (hex : list ascii) =>
    forall j, length row = Z.to_nat (rw * 16) -> 0 <= j ->
      strike_bit hex j =
      match row !! Z.to_nat j with Some v => negb (v =? 0) | None => false end).
  destruct (for_each_collect f Q2 rows []) as (strike & -> & Hstrike).
  { intros row _. unfold f.
    destruct (pack_row_bits row (rw * 16)) as (bytes & -> & Hn & Hb).
    rewrite bind_Ok. eexists. split; [reflexivity|].
    intros j Hrow Hj. apply (strike_bit_of_row row bytes (rw * 16)); assumption. }
  rewrite bind_Ok. eexists _, m. split; [reflexivity|].
  split; [reflexivity|].
  cbn [strike_hex]. change ([] ++ strike) with strike.
  split.
  { rewrite <- (Forall2_length _ _ _ Hstrike), <- (Forall2_length _ _ _ Hrows).
    rewrite length_range. f_equal. lia. }
  intros y row_hex Hy.
  destruct (Forall2_lookup_r _ _ _ _ _ Hstrike Hy) as (row & Hrow & Hhex).
  destruct (Forall2_lookup_r _ _ _ _ _ Hrows Hrow) as (y' & Hy' & Hl & Hglyph & Hpad).
  unfold range in Hy'. apply lookup_seqZ in Hy' as [-> Hlt].
  replace (0 + Z.of_nat y) with (Z.of_nat y) in * by lia.
  split; [lia|]. split.
  - intros gi bm x Hbm Hx.
    assert (Hgi : Z.of_nat gi < num_chars + 1).
    { apply lookup_lt_Some in Hbm. lia. }
    rewrite (Hhex _ Hl) by nia. rewrite (Hglyph gi bm x Hbm Hx).
    destruct (px bm x (Z.of_nat y) =? 0); reflexivity.
  - intros j Hj Hge. rewrite (Hhex _ Hl) by exact Hj.
    destruct (Z.lt_ge_cases j (rw * 16)) as [Hin|Hout].
    + rewrite Hpad by lia. reflexivity.
    + rewrite (proj2 (lookup_ge_None row (Z.to_nat j))) by lia. reflexivity.
Qed.

(** [pack_nfnt] returns only when the glyphs were rendered. *)
Lemma pack_nfnt_glyphs (pt cw ch asc dsc lead : Z) (data : nfnt_data) :
  pack_nfnt pt cw ch asc dsc lead = Ok data ->
  exists gl, glyph_bitmaps_of cw ch = Ok gl.
Proof.
  intros E. destruct (glyph_bitmaps_of cw ch) as [gl|e] eqn:Egl; [exists gl; reflexivity|].
  unfold pack_nfnt in E. cbv zeta in E. rewrite Egl, bind_Raise in E. discriminate E.
Qed.

End StrikeText.

(** ** emit_rez: lines of 64 characters *)

Lemma chunks_of_lines (text : list ascii) : chunks_of text = Ok (lines_of text).
Proof.
  unfold chunks_of, range_step, lines_of. simpl. f_equal.
  replace (Z.to_nat ((Z.of_nat (length text) - 0 + 64 - 1) / 64))
    with ((length text + 63) / 64)%nat.
  2:{ apply Nat2Z.inj. rewrite Nat2Z.inj_div, Z2Nat.id by (apply Z.div_pos; lia).
      f_equal. lia. }
  rewrite <- list_fmap_compose. apply list_fmap_ext. intros _ k _.
  unfold slice, compose. f_equal; [lia | f_equal; lia].
Qed.

Lemma concat_lines (text : list ascii) (m : nat) :
  concat ((fun k => take 64 (drop (k * 64) text)) <$> seq 0 m) = take (m * 64) text.
Proof.
  induction m as [|m IH]; [reflexivity|].
  rewrite seq_S, fmap_app, concat_app, IH. simpl. rewrite app_nil_r.
  rewrite take_take_drop. f_equal. lia.
Qed.

Lemma lines_of_spec (text : list ascii) :
  concat (lines_of text) = text /\
  Forall (fun line => (1 <= length line <= 64)%nat) (lines_of text) /\
  forall k line, lines_of text !! k = Some line ->
    (S k < length (lines_of text))%nat -> length line = 64%nat.
Proof.
  unfold lines_of.
  pose proof (Nat.div_mod_eq (length text + 63) 64) as Hdm.
  pose proof (Nat.mod_upper_bound (length text + 63) 64 ltac:(lia)) as Hm.
  split; [|split].
  - rewrite concat_lines. apply take_ge. lia.
  - apply Forall_fmap, Forall_forall. intros k Hk. apply elem_of_seq in Hk.
    simpl. rewrite length_take, length_drop. lia.
  - intros k line Hk Hlast. rewrite length_fmap, length_seq in Hlast.
    rewrite list_lookup_fmap in Hk.
    destruct (seq 0 _ !! k) as [k'|] eqn:Ek; [|discriminate].
    apply lookup_seq in Ek as [-> _]. injection Hk as <-.
    rewrite length_take, length_drop. lia.
Qed.

Lemma concat_lines_rows (rows : list (list ascii)) :
  concat (concat (lines_of <$> rows)) = concat rows.
Proof.
  induction rows as [|row rows IH]; [reflexivity|].
  rewrite fmap_cons. cbn [concat].
  rewrite concat_app, IH, (proj1 (lines_of_spec row)). reflexivity.
Qed.

Lemma lines_rows_lengths (rows : list (list ascii)) :
  Forall (fun line => (1 <= length line <= 64)%nat) (concat (lines_of <$> rows)).
Proof.
  induction rows as [|row rows IH]; [constructor|].
  rewrite fmap_cons. cbn [concat]. apply Forall_app.
  split; [apply lines_of_spec | exact IH].
Qed.

Section PrintedLines.
Context {FM : FloatModel}.

Lemma nfnt_data_lines_ok (i : Z) (m : metrics) (rz : nfnt_rez) :
  emit_nfnt i m = Ok rz ->
  nfnt_data_lines rz =
    Ok ([header_hex rz] ++ concat (lines_of <$> strike_rows_hex rz)
          ++ lines_of (loc_hex rz) ++ lines_of (ow_hex rz)) /\
  length (header_hex rz) = 52%nat.
Proof.
  destruct m as [[[[[pt cw] ch] asc] dsc] lead]. unfold emit_nfnt.
  destruct (pack_nfnt pt cw ch asc dsc lead) as [data|e].
  2:{ rewrite bind_Raise. intros E. discriminate E. }
  rewrite bind_Ok. cbv zeta. intros E. apply Ok_inj in E. rewrite <- E.
  unfold nfnt_data_lines. cbn [header_hex strike_rows_hex loc_hex ow_hex strike_hex].
  rewrite (for_each_append lines_of).
  2:{ intros row acc _. rewrite chunks_of_lines. reflexivity. }
  rewrite bind_Ok, !chunks_of_lines, !bind_Ok. split; [reflexivity|].
  rewrite (length_concat_uniform _ 4); [reflexivity|].
  apply Forall_fmap, Forall_forall. intros w _.
  apply format_X_4_length, land_FFFF_bounds.
Qed.

End PrintedLines.

(** ** The encoder, property by property *)

Section EncoderLaws.
Context {FM : FloatModel}.

(** X11. The strike row of line [y]: pixel [x] of the glyph at index [gi] of
    the glyph list is stored at position [gi * cell_w + x], as 1 when the
    pixel is set and 0 when it is not; the positions after the last glyph,
    up to [row_bits], stay 0.  The glyphs must fit in the row. *)
Theorem strike_row_places_glyphs (gl : list Bitmap) (cw ch row_bits y : Z) :
  Forall (cell_bitmap cw ch) gl ->
  Z.of_nat (length gl) * cw <= row_bits ->
  0 <= y ->
  exists row, strike_row gl cw row_bits y = Ok row /\
    length row = Z.to_nat row_bits /\
    (forall gi bm x, gl !! gi = Some bm -> 0 <= x < cw ->
       row !! Z.to_nat (Z.of_nat gi * cw + x) = Some (if px bm x y =? 0 then 0 else 1)) /\
    (forall j, 0 <= j < row_bits -> Z.of_nat (length gl) * cw <= j ->
       row !! Z.to_nat j = Some 0).
Proof. apply strike_row_bits. Qed.

(** X12. [pack_row] packs eight pixels to the byte, the first pixel in the
    most significant bit: bit [7 - j] of byte [k] is set exactly when
    pixel [8 * k + j] of the row is there and is not 0.  It returns
    [ceil(row_bits / 8)] bytes for every row, each below 256. *)
Theorem pack_row_msb_first (row : list Z) (row_bits : Z) :
  exists row_bytes, pack_row row row_bits = Ok row_bytes /\
    length row_bytes = Z.to_nat ((row_bits + 7) / 8) /\
    forall k b, row_bytes !! k = Some b ->
      0 <= b < 256 /\
      forall j, 0 <= j < 8 ->
        Z.testbit b (7 - j) =
        match row !! Z.to_nat (Z.of_nat k * 8 + j) with
        | Some v => negb (v =? 0)
        | None => false
        end.
Proof. apply pack_row_bits. Qed.

(** X13. The strike text of [pack_nfnt] read back: in the row of line [y],
    bit [(code - firstChar) * cell_w + x] is pixel [(x, y)] of the glyph
    that [render_glyph] draws for the code point mapped to [code]; the
    slot of a code without a glyph is blank; the slot after the last
    character holds the missing glyph; the bits after it are 0.  This holds
    of whatever [pack_nfnt] returns; and it returns for every cell within
    [cell_limit]. *)
Theorem strike_text_holds_every_glyph (pt cw ch asc dsc lead : Z) :
  (cell_fits cw ch -> exists data, pack_nfnt pt cw ch asc dsc lead = Ok data) /\
  forall data, pack_nfnt pt cw ch asc dsc lead = Ok data ->
  exists m,
    missing_glyph cw ch = Ok m /\
    Z.of_nat (length (strike_hex data)) = Z.max 0 ch /\
    forall y row_hex, strike_hex data !! y = Some row_hex ->
      (forall ucp code x, dict_get GLYPH_MAP ucp = Some code -> 0 <= x < cw ->
         exists g, render_glyph ucp cw ch = Ok g /\
           strike_bit row_hex ((code - FIRST_CHAR) * cw + x)
           = negb (px g x (Z.of_nat y) =? 0)) /\
      (forall code x, FIRST_CHAR <= code <= LAST_CHAR ->
         dict_get CODE_TO_UNICODE code = None -> 0 <= x < cw ->
         strike_bit row_hex ((code - FIRST_CHAR) * cw + x) = false) /\
      (forall x, 0 <= x < cw ->
         strike_bit row_hex (num_chars * cw + x) = negb (px m x (Z.of_nat y) =? 0)) /\
      (forall j, 0 <= j -> (num_chars + 1) * cw <= j -> strike_bit row_hex j = false).
Proof.
  split.
  { intros Hfits. destruct (pack_nfnt_ok pt cw ch asc dsc lead Hfits) as (data & E & _).
    exists data. exact E. }
  intros data0 E0.
  destruct (pack_nfnt_glyphs pt cw ch asc dsc lead data0 E0) as (gl & Egl).
  destruct (pack_nfnt_strike pt cw ch asc dsc lead gl Egl) as (data & m & E & Em & Hn & H).
  rewrite E0 in E. apply Ok_inj in E. subst data0.
  destruct (glyph_bitmaps_of_returned cw ch gl Egl) as (Hlen & _ & Hslots).
  exists m. split; [exact Em|]. split; [lia|].
  intros y row_hex Hy. destruct (H y row_hex Hy) as (Hych & Hbit & Hpad).
  assert (Hslot : forall code bm x, FIRST_CHAR <= code <= LAST_CHAR ->
            gl !! Z.to_nat (code - FIRST_CHAR) = Some bm -> 0 <= x < cw ->
            strike_bit row_hex ((code - FIRST_CHAR) * cw + x)
            = negb (px bm x (Z.of_nat y) =? 0)).
  { intros code bm x Hcode Hbm Hx.
    rewrite <- (Hbit (Z.to_nat (code - FIRST_CHAR)) bm x).
    - rewrite Z2Nat.id by lia. reflexivity.
    - rewrite lookup_app_l; [exact Hbm|]. eapply lookup_lt_Some; eauto.
    - exact Hx. }
  split; [|split; [|split]].
  - intros ucp code x Hmap Hx.
    assert (Hcode : FIRST_CHAR <= code <= LAST_CHAR).
    { pose proof glyph_codes_in_range as Hr. rewrite Forall_forall in Hr.
      apply dict_get_elem_of in Hmap. apply (Hr _ Hmap). }
    destruct (Hslots code Hcode) as (bm & Hbm & Hrender).
    rewrite (proj2 (code_to_unicode_spec code ucp) Hmap) in Hrender.
    exists bm. split; [exact Hrender|]. apply Hslot; assumption.
  - intros code x Hcode Hnone Hx.
    destruct (Hslots code Hcode) as (bm & Hbm & Hblank).
    rewrite Hnone in Hblank. subst bm.
    rewrite (Hslot code _ x Hcode Hbm Hx), px_init. reflexivity.
  - intros x Hx. rewrite <- (Hbit (Z.to_nat num_chars) m x).
    + rewrite Z2Nat.id by (rewrite num_chars_value; lia). reflexivity.
    + rewrite lookup_app_r by lia.
      replace (Z.to_nat num_chars - length gl)%nat with 0%nat by lia. reflexivity.
    + exact Hx.
  - exact Hpad.
Qed.

(** X14. The words printed for a font resource read back as the numbers
    they were printed from, when the cell fits 16-bit tables and the offset
    to the offset/width table fits a 16-bit word: the header text gives the
    thirteen header fields, [owTLoc] itself among them, with [nDescent] the
    16-bit two's complement of minus the descent; the location text gives
    the location table and the offset/width text the offset/width table. *)
Theorem printed_words_read_back (i pt cw ch asc dsc lead : Z) :
  0 <= cw -> (num_chars + 1) * cw < 65536 ->
  0 <= ch < 65536 -> 0 <= asc < 65536 -> 0 <= dsc <= 32768 -> 0 <= lead < 65536 ->
  ((num_chars + 1) * cw + 15) / 16 * ch + 149 < 65536 ->
  exists rz data,
    pack_nfnt pt cw ch asc dsc lead = Ok data /\
    emit_nfnt i (pt, cw, ch, asc, dsc, lead) = Ok rz /\
    owTLoc data = ((num_chars + 1) * cw + 15) / 16 * ch + 149 /\
    words_of_hex (header_hex rz)
    = [0x9000; FIRST_CHAR; LAST_CHAR; cw; 0; (65536 - dsc) mod 65536; cw; ch;
       owTLoc data; asc; dsc; lead; row_words data] /\
    signed16 <$> words_of_hex (header_hex rz) !! 5%nat = Some (- dsc) /\
    words_of_hex (loc_hex rz) = loc_table data /\
    words_of_hex (ow_hex rz) = ow_table data.
Proof.
  intros Hcw Hloc Hch Hasc Hdsc Hlead Hoff.
  assert (Hfits : cell_fits cw ch).
  { unfold cell_fits, cell_limit. rewrite num_chars_value in Hloc. lia. }
  destruct (pack_nfnt_ok pt cw ch asc dsc lead Hfits) as (data & E & strike & -> & _).
  unfold emit_nfnt. rewrite E, bind_Ok. cbv zeta.
  eexists. eexists. split; [reflexivity|]. split; [reflexivity|].
  cbn [header_hex header_words loc_hex ow_hex loc_table ow_table row_words owTLoc].
  set (rw := ((num_chars + 1) * cw + 15) / 16) in *.
  assert (Hrw : 0 <= rw < 65536).
  { subst rw. rewrite num_chars_value in *.
    split; [apply Z.div_pos; lia | apply Z.div_lt_upper_bound; lia]. }
  assert (Hoffset : (26 + rw * 2 * ch + (num_chars + 2) * 2 - 16) / 2 = rw * ch + 149).
  { rewrite num_chars_value.
    replace (26 + rw * 2 * ch + (142 + 2) * 2 - 16) with ((rw * ch + 149) * 2) by lia.
    apply Z.div_mul. lia. }
  split; [exact Hoffset|].
  assert (Hhdr : forall ws, Forall (fun w => 0 <= w < 65536) ws ->
            words_of_hex (concat ((fun w => format_X 4 (Z.land w 0xFFFF)) <$> ws)) = ws).
  { intros ws Hws.
    rewrite (list_fmap_ext _ (format_X 4) ws); [apply words_of_hex_format, Hws|].
    intros k w Hk. rewrite land_FFFF_id; [reflexivity|].
    rewrite Forall_forall in Hws. apply Hws. eapply list_elem_of_lookup_2; eauto. }
  assert (Hneg : Z.land (- dsc) 65535 = (65536 - dsc) mod 65536).
  { change 65535 with (Z.ones 16). rewrite Z.land_ones by lia.
    change (2 ^ 16) with 65536.
    replace (65536 - dsc) with (- dsc + 1 * 65536) by lia.
    rewrite Z.mod_add by lia. reflexivity. }
  assert (Hmask : Z.land ((26 + rw * 2 * ch + (num_chars + 2) * 2 - 16) / 2) 65535
                  = (26 + rw * 2 * ch + (num_chars + 2) * 2 - 16) / 2).
  { apply land_FFFF_id. rewrite Hoffset. nia. }
  rewrite Hmask, Hneg.
  assert (Hws : Forall (fun w => 0 <= w < 65536)
            [36864; FIRST_CHAR; LAST_CHAR; cw; 0; (65536 - dsc) mod 65536; cw; ch;
             (26 + rw * 2 * ch + (num_chars + 2) * 2 - 16) / 2;
             asc; dsc; lead; rw]).
  { rewrite Hoffset. rewrite num_chars_value in *. unfold FIRST_CHAR, LAST_CHAR.
    pose proof (Z.mod_pos_bound (65536 - dsc) 65536 ltac:(lia)).
    repeat (apply Forall_cons; split; [cbv beta; nia|]).
    constructor. }
  rewrite (Hhdr _ Hws). split; [reflexivity|]. split.
  { cbn [lookup list_lookup fmap option_fmap option_map]. f_equal. unfold signed16.
    pose proof (Z.mod_pos_bound (65536 - dsc) 65536 ltac:(lia)).
    pose proof (Z.div_mod (65536 - dsc) 65536 ltac:(lia)).
    destruct (Z.ltb_spec ((65536 - dsc) mod 65536) 32768); lia. }
  split.
  - apply words_of_hex_format.
    rewrite num_chars_value in *.
    apply Forall_app. split; [|repeat constructor; lia].
    apply Forall_fmap, Forall_forall. intros k Hk. apply elem_of_range in Hk. cbv beta. unfold compose. nia.
  - rewrite Z.shiftl_0_l, Z.lor_0_l. apply Hhdr.
    rewrite num_chars_value in *.
    apply Forall_app. split; [|repeat constructor; lia].
    apply Forall_fmap, Forall_forall. intros k Hk. cbv beta. unfold compose.
    destruct (dict_get CODE_TO_UNICODE (FIRST_CHAR + k)); lia.
Qed.

(** X15. Splitting the printed text into lines of 64 characters loses
    nothing: the chunks of a text are never empty, hold 64 characters each
    but for the last and, put together, give the text again; the data lines
    of a font resource put together are its resource data, no line longer
    than 64 characters.  The font resource is the one [emit_nfnt] returns,
    which it does for every cell within [cell_limit]. *)
Theorem line_splitting_keeps_the_data (i : Z) (m : metrics) (text : list ascii) :
  (exists chunks, chunks_of text = Ok chunks /\
     concat chunks = text /\
     Forall (fun line => (1 <= length line <= 64)%nat) chunks /\
     forall k line, chunks !! k = Some line -> (S k < length chunks)%nat ->
       length line = 64%nat) /\
  (cell_fits (cell_width_of m) (cell_height_of m) -> exists rz, emit_nfnt i m = Ok rz) /\
  (forall rz, emit_nfnt i m = Ok rz ->
     exists lines,
       nfnt_data_lines rz = Ok lines /\
       concat lines = nfnt_resource_hex rz /\
       Forall (fun line => (1 <= length line <= 64)%nat) lines).
Proof.
  split; [|split].
  - exists (lines_of text). split; [apply chunks_of_lines | apply lines_of_spec].
  - apply emit_nfnt_total.
  - intros rz E. destruct (nfnt_data_lines_ok i m rz E) as (El & Hh).
    eexists. split; [exact El|]. split.
    + unfold nfnt_resource_hex. rewrite !concat_app. cbn [concat]. rewrite app_nil_r.
      rewrite (proj1 (lines_of_spec (loc_hex rz))), (proj1 (lines_of_spec (ow_hex rz))).
      rewrite concat_lines_rows. reflexivity.
    + apply Forall_app. split; [constructor; [lia | constructor]|].
      apply Forall_app. split; [|apply Forall_app; split; apply lines_of_spec].
      apply lines_rows_lengths.
Qed.

End EncoderLaws.

Lemma strike_row_places_glyphs_witness :
  exists row, strike_row [mkBitmap 2 1 [[0; 1]]; mkBitmap 2 1 [[1; 0]]] 2 16 0 = Ok row /\
    length row = 16%nat /\
    row !! 1%nat = Some 1 /\ row !! 3%nat = Some 0 /\ row !! 9%nat = Some 0.
Proof.
  destruct (strike_row_places_glyphs [mkBitmap 2 1 [[0; 1]]; mkBitmap 2 1 [[1; 0]]] 2 1 16 0)
    as (row & E & Hlen & Hglyph & Hpad).
  - repeat constructor.
  - simpl. lia.
  - lia.
  - exists row. split; [exact E|]. split; [exact Hlen|]. split; [|split].
    + exact (Hglyph 0%nat _ 1 eq_refl ltac:(lia)).
    + exact (Hglyph 1%nat _ 1 eq_refl ltac:(lia)).
    + apply (Hpad 9); simpl; lia.
Defined.

Lemma printed_words_read_back_witness :
  exists rz data,
    pack_nfnt 12 7 17 12 3 1 = Ok data /\
    emit_nfnt 2 (12, 7, 17, 12, 3, 1) = Ok rz /\
    owTLoc data = ((num_chars + 1) * 7 + 15) / 16 * 17 + 149 /\
    words_of_hex (header_hex rz)
    = [0x9000; FIRST_CHAR; LAST_CHAR; 7; 0; (65536 - 3) mod 65536; 7; 17;
       owTLoc data; 12; 3; 1; row_words data] /\
    signed16 <$> words_of_hex (header_hex rz) !! 5%nat = Some (- 3) /\
    words_of_hex (loc_hex rz) = loc_table data /\
    words_of_hex (ow_hex rz) = ow_table data.
Proof.
  apply (printed_words_read_back 2 12 7 17 12 3 1);
    rewrite ?num_chars_value; try lia; vm_compute; reflexivity.
Defined.

Lemma strike_text_holds_every_glyph_witness :
  cell_fits 6 12 /\
  exists data m,
    pack_nfnt 9 6 12 9 2 0 = Ok data /\ missing_glyph 6 12 = Ok m /\
    Z.of_nat (length (strike_hex data)) = Z.max 0 12.
Proof.
  assert (Hf : cell_fits 6 12) by (unfold cell_fits, cell_limit; lia).
  split; [exact Hf|].
  destruct (strike_text_holds_every_glyph 9 6 12 9 2 0) as [Hret Hprop].
  destruct (Hret Hf) as (data & E).
  destruct (Hprop data E) as (m & Em & Hn & _).
  exists data, m. split; [exact E|]. split; [exact Em | exact Hn].
Defined.

Lemma line_splitting_keeps_the_data_witness :
  cell_fits 6 12 /\
  exists rz lines,
    emit_nfnt 0 (9, 6, 12, 9, 2, 0) = Ok rz /\
    nfnt_data_lines rz = Ok lines /\ concat lines = nfnt_resource_hex rz.
Proof.
  assert (Hf : cell_fits 6 12) by (unfold cell_fits, cell_limit; lia).
  split; [exact Hf|].
  destruct (line_splitting_keeps_the_data 0 (9, 6, 12, 9, 2, 0) []) as (_ & Hret & Hprop).
  destruct (Hret Hf) as (rz & E).
  destruct (Hprop rz E) as (lines & El & Hc & _).
  exists rz, lines. split; [exact E|]. split; [exact El | exact Hc].
Defined.

(** ** The family resource, property by property *)

Lemma emit_pack_h_raises (v : Z) (acc : list Z) :
  ~ (-32768 <= v <= 32767) -> emit (pack_h v) acc = Raise StructError.
Proof.
  intros Hv. unfold emit, pack_h.
  destruct (Z.leb_spec (-32768) v), (Z.leb_spec v 32767); simpl; try reflexivity. lia.
Qed.

(** The loop over the sizes either appends every entry or raises. *)
Lemma assoc_loop_cases (ims : list (Z * metrics)) (acc : list Z) :
  let body := fun (im : Z * metrics) (fond_data : list Z) =>
    let '(i, (pt, cw, ch, asc, dsc, lead)) := im in
    fond_data ← emit (pack_h pt) fond_data;
    fond_data ← emit (pack_h 0) fond_data;
    emit (pack_h (NFNT_BASE_ID + i)) fond_data in
  let fits := fun im : Z * metrics =>
    -32768 <= pt_size_of (snd im) <= 32767 /\
    -32768 <= NFNT_BASE_ID + fst im <= 32767 in
  (Forall fits ims /\
   for_each ims body acc = Ok (acc ++ concat (assoc_entry_bytes <$> ims))) \/
  (~ Forall fits ims /\ for_each ims body acc = Raise StructError).
Proof.
  cbv zeta. revert acc.
  induction ims as [|[i [[[[[pt cw] ch] asc] dsc] lead]] ims IH]; intros acc.
  - left. split; [constructor|]. simpl. rewrite app_nil_r. reflexivity.
  - cbn [for_each].
    destruct (Z_le_dec (-32768) pt) as [Hlo|Hlo];
      [destruct (Z_le_dec pt 32767) as [Hhi|Hhi]|].
    + rewrite (emit_pack_h pt) by lia. rewrite bind_Ok.
      rewrite (emit_pack_h 0) by lia. rewrite bind_Ok.
      destruct (Z_le_dec (-32768) (NFNT_BASE_ID + i)) as [Hlo'|Hlo'];
        [destruct (Z_le_dec (NFNT_BASE_ID + i) 32767) as [Hhi'|Hhi']|].
      * rewrite (emit_pack_h (NFNT_BASE_ID + i)) by lia. rewrite bind_Ok.
        destruct (IH (((acc ++ be16 pt) ++ be16 0) ++ be16 (NFNT_BASE_ID + i)))
          as [[Hall E]|[Hnot E]].
        -- left. split; [constructor; [unfold pt_size_of; cbn [fst snd]; lia | exact Hall]|].
           rewrite E, fmap_cons. cbn [concat]. unfold assoc_entry_bytes at 2.
           unfold pt_size_of. cbn [fst snd]. rewrite <- !app_assoc. reflexivity.
        -- right. split; [|exact E]. intros Hall. apply Hnot.
           inversion Hall; assumption.
      * right. split.
        -- intros Hall. inversion Hall as [|? ? [_ Hid] _]; subst. cbn [fst snd] in Hid. lia.
        -- rewrite emit_pack_h_raises by lia. reflexivity.
      * right. split.
        -- intros Hall. inversion Hall as [|? ? [_ Hid] _]; subst. cbn [fst snd] in Hid. lia.
        -- rewrite emit_pack_h_raises by lia. reflexivity.
    + right. split.
      * intros Hall. inversion Hall as [|? ? [Hp _] _]; subst.
        unfold pt_size_of in Hp. cbn [fst snd] in Hp. lia.
      * rewrite emit_pack_h_raises by lia. reflexivity.
    + right. split.
      * intros Hall. inversion Hall as [|? ? [Hp _] _]; subst.
        unfold pt_size_of in Hp. cbn [fst snd] in Hp. lia.
      * rewrite emit_pack_h_raises by lia. reflexivity.
Qed.

Lemma enumerate_lookup {A : Type} (l : list A) (i : nat) (a : A) :
  l !! i = Some a -> (Z.of_nat i, a) ∈ enumerate l.
Proof.
  intros Hi. unfold enumerate. apply list_elem_of_lookup. exists i.
  rewrite list_lookup_imap, Hi. reflexivity.
Qed.

(** X16. The family record is built exactly when every point size and
    every resource id [NFNT_BASE_ID + i] fits a signed 16-bit word; it then
    has 54 bytes and six more for each size.  Otherwise [struct.pack]
    raises and nothing is returned. *)
Theorem fond_data_of_raises_exactly_when_a_word_overflows (ms : list metrics) :
  let fits := forall i m, ms !! i = Some m ->
    -32768 <= pt_size_of m <= 32767 /\ NFNT_BASE_ID + Z.of_nat i <= 32767 in
  (fits -> exists fond_data, fond_data_of ms = Ok fond_data /\
     Z.of_nat (length fond_data) = fond_header_bytes + 2 + 6 * Z.of_nat (length ms)) /\
  (~ fits -> fond_data_of ms = Raise StructError).
Proof.
  cbv zeta.
  assert (Hiff : (forall i m, ms !! i = Some m ->
              -32768 <= pt_size_of m <= 32767 /\ NFNT_BASE_ID + Z.of_nat i <= 32767) <->
            Forall (fun im : Z * metrics =>
              -32768 <= pt_size_of (snd im) <= 32767 /\
              -32768 <= NFNT_BASE_ID + fst im <= 32767) (enumerate ms)).
  { rewrite Forall_forall. split.
    - intros H [i m] Him. apply elem_of_enumerate in Him as [Hi Hm].
      destruct (H _ _ Hm) as [Hp Hid]. rewrite Z2Nat.id in Hid by lia.
      cbn [fst snd]. unfold NFNT_BASE_ID in *. lia.
    - intros H i m Hm. destruct (H _ (enumerate_lookup ms i m Hm)) as [Hp Hid].
      cbn [fst snd] in *. lia. }
  destruct fond_fixed_fields_ok as (fixed & E & Hfixed).
  unfold fond_data_of. rewrite E, bind_Ok. cbv zeta.
  destruct (Z_le_dec (Z.of_nat (length ms)) 32768) as [Hn|Hn].
  - rewrite (emit_pack_h (Z.of_nat (length ms) - 1)) by lia. rewrite bind_Ok.
    destruct (assoc_loop_cases (enumerate ms) (fixed ++ be16 (Z.of_nat (length ms) - 1)))
      as [[Hall El]|[Hnot El]]; cbv zeta in El.
    + split; [|intros Hno; exfalso; apply Hno, Hiff, Hall].
      intros _. eexists. split; [exact El|].
      rewrite !length_app, (length_concat_uniform _ 6).
      * rewrite length_fmap. unfold enumerate. rewrite length_imap.
        unfold be16. simpl length. lia.
      * apply Forall_fmap, Forall_forall. intros im _. reflexivity.
    + split; [intros Hyes; exfalso; apply Hnot, Hiff, Hyes|].
      intros _. exact El.
  - split.
    + intros Hfits. exfalso.
      destruct (ms !! Z.to_nat 32568) as [m|] eqn:Em.
      * destruct (Hfits _ _ Em) as [_ Hid]. unfold NFNT_BASE_ID in Hid. lia.
      * apply lookup_ge_None in Em. lia.
    + intros _. rewrite emit_pack_h_raises by lia. reflexivity.
Qed.

(** ** More glyph families *)

(** The pixels of a glyph program with loops. *)
Ltac draw_loops :=
  lazymatch goal with
  | |- draws _ _ (_ >> _) _ => eapply draws_seq; draw_loops
  | |- draws _ _ (for_range _ _ _) _ =>
      eapply draws_for_range; intros ? ?; cbv beta; draw_loops
  | |- _ => draw
  end.

Ltac painted_pixels :=
  repeat match goal with
  | |- context [painted ?w ?h ?c ?x ?y] =>
      let H := fresh "Hdraw" in
      eassert (H : draws w h c _) by (glyph_branch; draw_loops);
      rewrite (draws_painted _ _ _ _ H); clear H
  end;
  unfold in_grid; cbv beta.

Section ShapeFamilies.
Context {FM : FloatModel}.

(** X17. The double-line box glyphs stay on the two rows and two columns
    next to the centre: every pixel of one of them is a pixel of the heavy
    cross, and none of them paints the centre pixel. *)
Theorem double_lines_leave_the_centre_clear (w h x y : Z) :
  Forall (fun cp =>
            painted w h (glyph_cmd cp w h) x y ->
            painted w h (glyph_cmd 0x254B w h) x y /\ ~ (x = w / 2 /\ y = h / 2))
    [0x2550; 0x2551; 0x2554; 0x2557; 0x255A; 0x255D; 0x2560; 0x2563; 0x2566;
     0x2569; 0x256C].
Proof.
  repeat (apply List.Forall_cons; [painted_pixels; lia|]). constructor.
Qed.

(** X18. In a cell of at least three pixels each way the white squares are
    the borders of the black squares: a pixel of the white square is a pixel
    of the black square of the same margin that lies on its first or last
    row or column.  The ballot box is the white square. *)
Theorem white_squares_are_the_borders_of_the_black (w h x y : Z) :
  3 <= w -> 3 <= h ->
  let border := fun m => x = m \/ x = w - m - 1 \/ y = m \/ y = h - m - 1 in
  (painted w h (glyph_cmd 0x25A1 w h) x y <->
   painted w h (glyph_cmd 0x25A0 w h) x y /\ border (Z.max 1 (Z.min w h / 6))) /\
  (painted w h (glyph_cmd 0x25AB w h) x y <->
   painted w h (glyph_cmd 0x25AA w h) x y /\ border (Z.max 1 (Z.min w h / 4))) /\
  (painted w h (glyph_cmd 0x25FB w h) x y <->
   painted w h (glyph_cmd 0x25FC w h) x y /\ border (Z.max 1 (Z.min w h / 5))) /\
  render_glyph 0x2610 w h = render_glyph 0x25A1 w h.
Proof.
  intros Hw Hh. cbv zeta. split; [|split; [|split]].
  - painted_pixels. Z.div_mod_to_equations. lia.
  - painted_pixels. Z.div_mod_to_equations. lia.
  - painted_pixels. Z.div_mod_to_equations. lia.
  - reflexivity.
Qed.

(** X19. [outline_circle] paints a ring, for a radius up to [2 ** 51],
    where the radius and its product with 1.5 are exact doubles: with a
    radius of at least 3 each of its pixels is within [r + 1] of the centre
    and farther than [r - 1] from it; and it paints every grid point at
    distance exactly [r].  The large circle is the white circle. *)
Theorem outline_circle_is_a_ring (w h cx cy r x y : Z) :
  r <= 2251799813685248 ->
  (3 <= r -> painted w h (outline_circle cx cy r) x y ->
   painted w h (fill_circle cx cy (r + 1)) x y /\
   ~ painted w h (fill_circle cx cy (r - 1)) x y) /\
  (0 <= r -> in_grid w h x y -> (x - cx) * (x - cx) + (y - cy) * (y - cy) = r * r ->
   painted w h (outline_circle cx cy r) x y) /\
  render_glyph 0x25EF w h = render_glyph 0x25CB w h.
Proof.
  intros Hmax. split; [|split].
  - intros Hr. painted_pixels. intros (Hg & H).
    split; [split; [exact Hg | nia] | intros [_ Hin]; nia].
  - intros Hr Hg Hd. painted_pixels. unfold in_grid in Hg.
    split; [exact Hg|]. rewrite Hd. lia.
  - reflexivity.
Qed.

(** X20. The arrows: the left-right arrow is the left arrow and the right
    arrow drawn one over the other; the right arrow is the mirror image of
    the left arrow and the down arrow that of the up arrow; each arrow
    holds its shaft, the light line. *)
Theorem arrows_mirror_each_other (w h x y : Z) :
  render_glyph 0x2194 w h
  = (glyph_cmd 0x2190 w h >> glyph_cmd 0x2192 w h) (Bitmap_init w h) /\
  (painted w h (glyph_cmd 0x2192 w h) x y <->
   painted w h (glyph_cmd 0x2190 w h) (w - 1 - x) y) /\
  (painted w h (glyph_cmd 0x2193 w h) x y <->
   painted w h (glyph_cmd 0x2191 w h) x (h - 1 - y)) /\
  (painted w h (glyph_cmd 0x2500 w h) x y -> painted w h (glyph_cmd 0x2190 w h) x y) /\
  (painted w h (glyph_cmd 0x2502 w h) x y -> painted w h (glyph_cmd 0x2191 w h) x y).
Proof.
  split; [|split; [|split; [|split]]].
  - unfold render_glyph. eapply (draws_same w h).
    + glyph_branch. draw_loops.
    + glyph_branch. draw_loops.
    + intros x0 y0 _. cbv beta. split.
      * intros [Hl | (i & Hi & [H | [H | [H | H]]])].
        -- left. left. exact Hl.
        -- left. right. exists i. tauto.
        -- left. right. exists i. tauto.
        -- right. right. exists i. tauto.
        -- right. right. exists i. tauto.
      * intros [[Hl | (i & Hi & [H | H])] | [Hl | (i & Hi & [H | H])]];
          first [left; exact Hl | right; exists i; tauto].
    + apply wf_init.
    + reflexivity.
    + reflexivity.
  - painted_pixels. split.
    + intros (Hg & [Hl | (i & Hi & [H | H])]).
      * split; [lia|]. left. lia.
      * split; [lia|]. right. exists i. split; [exact Hi|]. left. lia.
      * split; [lia|]. right. exists i. split; [exact Hi|]. right. lia.
    + intros (Hg & [Hl | (i & Hi & [H | H])]).
      * split; [lia|]. left. lia.
      * split; [lia|]. right. exists i. split; [exact Hi|]. left. lia.
      * split; [lia|]. right. exists i. split; [exact Hi|]. right. lia.
  - painted_pixels. split.
    + intros (Hg & [Hl | (i & Hi & [H | H])]).
      * split; [lia|]. left. lia.
      * split; [lia|]. right. exists i. split; [exact Hi|]. left. lia.
      * split; [lia|]. right. exists i. split; [exact Hi|]. right. lia.
    + intros (Hg & [Hl | (i & Hi & [H | H])]).
      * split; [lia|]. left. lia.
      * split; [lia|]. right. exists i. split; [exact Hi|]. left. lia.
      * split; [lia|]. right. exists i. split; [exact Hi|]. right. lia.
  - painted_pixels. intros (Hg & Hl). split; [exact Hg|]. left. exact Hl.
  - painted_pixels. intros (Hg & Hl). split; [exact Hg|]. left. exact Hl.
Qed.

End ShapeFamilies.

Lemma white_squares_are_the_borders_of_the_black_witness :
  (3 <= 7 /\ 3 <= 17) /\
  (painted 7 17 (glyph_cmd 0x25A1 7 17) 1 1 <->
   painted 7 17 (glyph_cmd 0x25A0 7 17) 1 1 /\
   (1 = Z.max 1 (Z.min 7 17 / 6) \/ 1 = 7 - Z.max 1 (Z.min 7 17 / 6) - 1 \/
    1 = Z.max 1 (Z.min 7 17 / 6) \/ 1 = 17 - Z.max 1 (Z.min 7 17 / 6) - 1)).
Proof.
  split; [lia|].
  destruct (white_squares_are_the_borders_of_the_black 7 17 1 1 ltac:(lia) ltac:(lia))
    as [H _].
  exact H.
Defined.

Lemma outline_circle_is_a_ring_witness :
  3 <= 2251799813685248 /\
  painted 11 11 (outline_circle 5 5 3) 8 5 /\
  painted 11 11 (fill_circle 5 5 (3 + 1)) 8 5 /\
  ~ painted 11 11 (fill_circle 5 5 (3 - 1)) 8 5.
Proof.
  assert (Hmax : 3 <= 2251799813685248) by lia.
  split; [exact Hmax|].
  destruct (outline_circle_is_a_ring 11 11 5 5 3 8 5 Hmax) as (Hring & Hon & _).
  assert (Hp : painted 11 11 (outline_circle 5 5 3) 8 5).
  { apply Hon; [lia | unfold in_grid; lia | reflexivity]. }
  split; [exact Hp | apply Hring; [lia | exact Hp]].
Defined.
